(** * VoltAgent core: a shallow embedding of the per-call execution engine

    The development follows [packages/core/src/agent/agent.ts] and
    [packages/core/src/agent/error-utils.ts].  Part I holds the model (one
    module per component of the source), Part II the properties proved about
    it.  JavaScript values that the engine only passes around are kept as a
    small tree type; values that may be cyclic (error payloads) live in an
    explicit heap. *)

From Stdlib Require Import ZArith Lia Bool Ascii String.
From stdpp Require Import gmap strings list fin_maps sorting pretty.

Set Warnings "-register-all".

(* ===================================================================== *)
(** * Part I: the model                                                    *)
(* ===================================================================== *)

(** ** JavaScript values without sharing *)
Module Js.

Inductive JsValue : Type :=
  | JUndefined
  | JNull
  | JBool (b : bool)
  | JNum (z : Z)
  | JStr (s : string)
  | JArr (items : list JsValue)
  | JObj (fields : list (string * JsValue)).

(** [Boolean(v)]: the falsy values are undefined, null, false, 0 and "". *)
Definition truthy (v : JsValue) : bool :=
  match v with
  | JUndefined | JNull => false
  | JBool b => b
  | JNum z => negb (z =? 0)%Z
  | JStr s => negb (String.eqb s "")
  | JArr _ | JObj _ => true
  end.

(** A string in a boolean position: [s && ...], [s || ...]. *)
Definition strTruthy (s : string) : bool := negb (String.eqb s "").

(** An optional string in a boolean position ([undefined] is falsy). *)
Definition optTruthy (o : option string) : bool :=
  match o with Some s => strTruthy s | None => false end.

(** [v ?? d] *)
Definition nullish (v : JsValue) : bool :=
  match v with JUndefined | JNull => true | _ => false end.

Definition orElse (v d : JsValue) : JsValue := if truthy v then v else d.
Definition coalesce (v d : JsValue) : JsValue := if nullish v then d else v.

(** Own property lookup on an object literal. *)
Fixpoint assoc {A} (k : string) (l : list (string * A)) : option A :=
  match l with
  | [] => None
  | (k', v) :: l' => if String.eqb k k' then Some v else assoc k l'
  end.

(** [String.prototype.trim] on the ASCII white space characters. *)
Definition isSpace (a : ascii) : bool :=
  let n := nat_of_ascii a in
  ((9 <=? n) && (n <=? 13)) || (n =? 32).

Fixpoint trimStart (s : string) : string :=
  match s with
  | EmptyString => EmptyString
  | String a s' => if isSpace a then trimStart s' else s
  end.

Definition trim (s : string) : string :=
  String.rev (trimStart (String.rev (trimStart s))).

End Js.

(** ** Step recorder ([recordStepResults]) *)
Module StepRecorder.
Import Js.

Record LanguageModelUsage := {
  inputTokens : option Z;
  outputTokens : option Z;
  usageTotalTokens : option Z }.

Record UsageInfo := {
  promptTokens : Z;
  completionTokens : Z;
  totalTokens : Z }.

(** What the recorder takes from the platform and from helpers that live
    outside the agent module: the UUID generator ([randomUUID], the [n]-th
    value it hands out), the wall clock ([new Date().toISOString()] at the
    [n]-th read), [convertUsage] and [safeStringify] on plain values. *)
Class Platform := {
  uuid : nat → string;
  isoTime : nat → string;
  convertUsage : option LanguageModelUsage → UsageInfo;
  stringifyValue : JsValue → string }.

Record ToolCall := {
  tc_toolCallId : string;
  tc_toolName : string;
  tc_input : JsValue }.

Record ToolResult := {
  tr_toolCallId : string;
  tr_toolName : string;
  tr_output : JsValue }.

Inductive ContentPart : Type :=
  | PartText (text : string)
  | PartReasoning (text : string)
  | PartToolCall (toolName toolCallId : string) (input : JsValue)
  | PartToolResult (toolName toolCallId : string) (output : JsValue)
  | PartToolError (toolName toolCallId : string) (error : JsValue)
  | PartOther (kind : string).

(** [StepResult<ToolSet>] of the model-invocation service, with the fields
    the agent reads.  [step_content = None] stands for a [content] that is
    missing or not an array. *)
Record StepResult := {
  step_content : option (list ContentPart);
  step_text : option string;
  step_toolCalls : option (list ToolCall);
  step_toolResults : option (list ToolResult);
  step_usage : option LanguageModelUsage;
  step_responseMessages : option (list JsValue) }.

Inductive StepType := text | tool_call | tool_result.

(** [StepWithContent]: an entry of [oc.conversationSteps]. *)
Record StepWithContent := {
  swc_id : string;
  swc_type : StepType;
  swc_content : string;
  swc_role : string;
  swc_name : option string;
  swc_arguments : option JsValue;
  swc_result : option JsValue;
  swc_usage : UsageInfo;
  swc_subAgentId : option string;
  swc_subAgentName : option string }.

Record ConversationStepRecord := {
  rec_id : string;
  rec_conversationId : string;
  rec_userId : string;
  rec_agentId : string;
  rec_agentName : string;
  rec_operationId : string;
  rec_stepIndex : nat;
  rec_type : StepType;
  rec_role : string;
  rec_content : option string;
  rec_arguments : option JsValue;
  rec_result : option JsValue;
  rec_usage : UsageInfo;
  rec_subAgentId : option string;
  rec_subAgentName : option string;
  rec_createdAt : string }.

Record AgentMetadataContextValue := {
  meta_agentId : string;
  meta_agentName : string }.

(** The part of the operation context that [recordStepResults] reads and
    writes.  The two [systemContext] entries are the ones stored under
    ["conversationSteps"] and under the private symbol
    [STEP_PERSIST_COUNT_KEY]; the latter is written by the recorder only,
    so it always holds a natural number or nothing. *)
Record RecorderContext := {
  oc_operationId : string;
  oc_userId : option string;
  oc_conversationId : option string;
  oc_parentAgentId : option string;
  oc_conversationSteps : option (list StepWithContent);
  sc_conversationSteps : option (list StepResult);
  sc_persistedStepCount : option nat;
  sc_agentMetadata : option AgentMetadataContextValue }.

(** The outside world as the recorder sees it: how many UUIDs and clock
    reads were consumed, and the batches handed to
    [memoryManager.saveConversationSteps] (fire and forget), in order. *)
Record World := {
  uuidsDrawn : nat;
  clockReads : nat;
  savedBatches : list (list ConversationStepRecord) }.

Record Agent := {
  agent_id : string;
  agent_name : string }.

Definition setConversationSteps (l : option (list StepWithContent))
    (oc : RecorderContext) : RecorderContext :=
  {| oc_operationId := oc_operationId oc;
     oc_userId := oc_userId oc;
     oc_conversationId := oc_conversationId oc;
     oc_parentAgentId := oc_parentAgentId oc;
     oc_conversationSteps := l;
     sc_conversationSteps := sc_conversationSteps oc;
     sc_persistedStepCount := sc_persistedStepCount oc;
     sc_agentMetadata := sc_agentMetadata oc |}.

Definition setPersistedStepCount (n : nat) (oc : RecorderContext)
    : RecorderContext :=
  {| oc_operationId := oc_operationId oc;
     oc_userId := oc_userId oc;
     oc_conversationId := oc_conversationId oc;
     oc_parentAgentId := oc_parentAgentId oc;
     oc_conversationSteps := oc_conversationSteps oc;
     sc_conversationSteps := sc_conversationSteps oc;
     sc_persistedStepCount := Some n;
     sc_agentMetadata := sc_agentMetadata oc |}.

Section Recorder.
Context `{Platform}.
Variable self : Agent.

(** The state of one pass while it walks the new steps: the two output
    arrays, the UUID and clock counters and the current [recordTimestamp]. *)
Record Pass := {
  p_steps : list StepWithContent;
  p_records : list ConversationStepRecord;
  p_uuids : nat;
  p_clock : nat;
  p_timestamp : string }.

Definition randomUUID (p : Pass) : string * Pass :=
  (uuid (p_uuids p),
   {| p_steps := p_steps p; p_records := p_records p;
      p_uuids := S (p_uuids p); p_clock := p_clock p;
      p_timestamp := p_timestamp p |}).

(** [toolCallId || randomUUID()] *)
Definition idOrFresh (given : string) (p : Pass) : string * Pass :=
  if strTruthy given then (given, p) else randomUUID p.

Definition pushStep (s : StepWithContent) (p : Pass) : Pass :=
  {| p_steps := p_steps p ++ [s]; p_records := p_records p;
     p_uuids := p_uuids p; p_clock := p_clock p;
     p_timestamp := p_timestamp p |}.

Definition pushRecord (r : ConversationStepRecord) (p : Pass) : Pass :=
  {| p_steps := p_steps p; p_records := p_records p ++ [r];
     p_uuids := p_uuids p; p_clock := p_clock p;
     p_timestamp := p_timestamp p |}.

Definition refreshTimestamp (p : Pass) : Pass :=
  {| p_steps := p_steps p; p_records := p_records p;
     p_uuids := p_uuids p; p_clock := S (p_clock p);
     p_timestamp := isoTime (p_clock p) |}.

(** [oc.userId && oc.conversationId], as the pair of both when truthy. *)
Definition persistTarget (oc : RecorderContext) : option (string * string) :=
  match oc_userId oc, oc_conversationId oc with
  | Some u, Some c =>
      if strTruthy u && strTruthy c then Some (u, c) else None
  | _, _ => None
  end.

Definition subAgentMetadata (oc : RecorderContext)
    : option AgentMetadataContextValue :=
  if optTruthy (oc_parentAgentId oc) then sc_agentMetadata oc else None.

Section PerStep.
Variable oc : RecorderContext.
Variable usage : UsageInfo.
Variable stepIndex : nat.

Definition baseRecord (rid : string) (ty : StepType) (uc : string * string)
    (content : option string) (args result : option JsValue) (ts : string)
    : ConversationStepRecord :=
  {| rec_id := rid;
     rec_conversationId := snd uc;
     rec_userId := fst uc;
     rec_agentId := agent_id self;
     rec_agentName := agent_name self;
     rec_operationId := oc_operationId oc;
     rec_stepIndex := stepIndex;
     rec_type := ty;
     rec_role := "assistant";
     rec_content := content;
     rec_arguments := args;
     rec_result := result;
     rec_usage := usage;
     rec_subAgentId := meta_agentId <$> subAgentMetadata oc;
     rec_subAgentName := meta_agentName <$> subAgentMetadata oc;
     rec_createdAt := ts |}.

Definition baseStep (sid : string) (ty : StepType) (content : string)
    (name : option string) (args result : option JsValue) : StepWithContent :=
  {| swc_id := sid;
     swc_type := ty;
     swc_content := content;
     swc_role := "assistant";
     swc_name := name;
     swc_arguments := args;
     swc_result := result;
     swc_usage := usage;
     swc_subAgentId := meta_agentId <$> subAgentMetadata oc;
     swc_subAgentName := meta_agentName <$> subAgentMetadata oc |}.

Definition recordText (trimmed : string) (p : Pass) : Pass :=
  let '(sid, p) := randomUUID p in
  let p := pushStep (baseStep sid text trimmed None None None) p in
  match persistTarget oc with
  | Some uc =>
      let '(rid, p) := randomUUID p in
      pushRecord
        (baseRecord rid text uc (Some trimmed) None None (p_timestamp p)) p
  | None => p
  end.

Definition recordToolCall (p : Pass) (c : ToolCall) : Pass :=
  let '(sid, p) := idOrFresh (tc_toolCallId c) p in
  let args := orElse (tc_input c) (JObj []) in
  let p :=
    pushStep
      (baseStep sid tool_call
         (stringifyValue (coalesce (tc_input c) (JObj [])))
         (Some (tc_toolName c)) (Some args) None) p in
  match persistTarget oc with
  | Some uc =>
      let '(rid, p) := idOrFresh (tc_toolCallId c) p in
      pushRecord
        (baseRecord rid tool_call uc None (Some args) None (p_timestamp p)) p
  | None => p
  end.

Definition recordToolResult (p : Pass) (r : ToolResult) : Pass :=
  let '(sid, p) := idOrFresh (tr_toolCallId r) p in
  let p :=
    pushStep
      (baseStep sid tool_result (stringifyValue (tr_output r))
         (Some (tr_toolName r)) None (Some (tr_output r))) p in
  match persistTarget oc with
  | Some uc =>
      let '(rid, p) := idOrFresh (tr_toolCallId r) p in
      pushRecord
        (baseRecord rid tool_result uc None None
           (Some (coalesce (tr_output r) JNull)) (p_timestamp p)) p
  | None => p
  end.

End PerStep.

(** The body of [newSteps.forEach((step, offset) => ...)] for one step. *)
Definition recordStep (oc : RecorderContext) (stepIndex : nat)
    (step : StepResult) (p : Pass) : Pass :=
  let usage := convertUsage (step_usage step) in
  let p :=
    match trim <$> step_text step with
    | Some trimmed =>
        if strTruthy trimmed then recordText oc usage stepIndex trimmed p
        else p
    | None => p
    end in
  let p := foldl (recordToolCall oc usage stepIndex) p
             (default [] (step_toolCalls step)) in
  let p := foldl (recordToolResult oc usage stepIndex) p
             (default [] (step_toolResults step)) in
  refreshTimestamp p.

(** The whole [forEach]: step number [offset] of [newSteps] gets
    [stepIndex = previouslyPersistedCount + offset]. *)
Fixpoint recordSteps (oc : RecorderContext) (stepIndex : nat)
    (newSteps : list StepResult) (p : Pass) : Pass :=
  match newSteps with
  | [] => p
  | step :: rest =>
      recordSteps oc (S stepIndex) rest (recordStep oc stepIndex step p)
  end.

(** [recordStepResults] once [storedSteps] is known to be a non-empty
    array: everything after the first early return. *)
Definition recordStored (storedSteps : list StepResult)
    (oc : RecorderContext) (w : World) : RecorderContext * World :=
  let oc :=
    match oc_conversationSteps oc with
    | Some _ => oc
    | None => setConversationSteps (Some []) oc
    end in
  let previouslyPersistedCount := default 0 (sc_persistedStepCount oc) in
  let newSteps := drop previouslyPersistedCount storedSteps in
  match newSteps with
  | [] => (oc, w)
  | _ :: _ =>
      let oc :=
        setPersistedStepCount
          (previouslyPersistedCount + length newSteps) oc in
      let p0 :=
        {| p_steps := default [] (oc_conversationSteps oc);
           p_records := [];
           p_uuids := uuidsDrawn w;
           p_clock := S (clockReads w);
           p_timestamp := isoTime (clockReads w) |} in
      let p := recordSteps oc previouslyPersistedCount newSteps p0 in
      let oc := setConversationSteps (Some (p_steps p)) oc in
      let saved :=
        match p_records p, persistTarget oc with
        | _ :: _, Some _ => savedBatches w ++ [p_records p]
        | _, _ => savedBatches w
        end in
      (oc, {| uuidsDrawn := p_uuids p;
              clockReads := p_clock p;
              savedBatches := saved |})
  end.

(** [recordStepResults(steps, oc)].  The steps passed in are used when there
    are any, the ones the step handler stored under ["conversationSteps"]
    otherwise.  Trace-span attributes are left out: they do not feed back
    into the recorder. *)
Definition recordStepResults (steps : option (list StepResult))
    (oc : RecorderContext) (w : World) : RecorderContext * World :=
  let storedSteps :=
    match steps with
    | Some (_ :: _) => steps
    | _ => sc_conversationSteps oc
    end in
  match storedSteps with
  | None | Some [] => (oc, w)
  | Some storedSteps => recordStored storedSteps oc w
  end.

(** Every record handed to storage so far, in the order of the writes. *)
Definition persisted (w : World) : list ConversationStepRecord :=
  concat (savedBatches w).

(** A record without its wall-clock stamp. *)
Definition withoutTimestamp (r : ConversationStepRecord)
    : ConversationStepRecord :=
  {| rec_id := rec_id r;
     rec_conversationId := rec_conversationId r;
     rec_userId := rec_userId r;
     rec_agentId := rec_agentId r;
     rec_agentName := rec_agentName r;
     rec_operationId := rec_operationId r;
     rec_stepIndex := rec_stepIndex r;
     rec_type := rec_type r;
     rec_role := rec_role r;
     rec_content := rec_content r;
     rec_arguments := rec_arguments r;
     rec_result := rec_result r;
     rec_usage := rec_usage r;
     rec_subAgentId := rec_subAgentId r;
     rec_subAgentName := rec_subAgentName r;
     rec_createdAt := "" |}.

(** A run of recording passes over one operation context. *)
Fixpoint recordPasses (passes : list (option (list StepResult)))
    (oc : RecorderContext) (w : World) : RecorderContext * World :=
  match passes with
  | [] => (oc, w)
  | steps :: rest =>
      let '(oc, w) := recordStepResults steps oc w in
      recordPasses rest oc w
  end.

(** The records a run of passes hands to storage, beyond what was there. *)
Definition emitted (passes : list (option (list StepResult)))
    (oc : RecorderContext) (w : World) : list ConversationStepRecord :=
  drop (length (persisted w)) (persisted (recordPasses passes oc w).2).

(** The steps held under ["conversationSteps"], when there are any, are the
    first steps of [steps]: the step handler stores the very events the
    model-invocation service later returns as [result.steps]. *)
Definition storedIsPrefix (oc : RecorderContext) (steps : list StepResult)
    : Prop :=
  match sc_conversationSteps oc with
  | Some stored => stored `prefix_of` steps
  | None => True
  end.

End Recorder.

End StepRecorder.

(** ** Effects: state and exceptions

    User code called by the engine (hooks, tools, guardrails) may change
    state and may throw.  A computation takes the state and either returns
    a value or throws, in both cases with the state it leaves behind;
    [bind] is [await a; b]: what follows a throw does not run. *)
Module Effects.

Inductive Outcome (S E A : Type) : Type :=
  | Returned (s : S) (v : A)
  | Threw (s : S) (e : E).
Arguments Returned {S E A} s v.
Arguments Threw {S E A} s e.

Definition M (S E A : Type) : Type := S → Outcome S E A.

Definition ret {S E A} (v : A) : M S E A := λ s, Returned s v.

Definition throw {S E A} (e : E) : M S E A := λ s, Threw s e.

Definition bind {S E A B} (m : M S E A) (k : A → M S E B) : M S E B :=
  λ s, match m s with
       | Returned s' v => k v s'
       | Threw s' e => Threw s' e
       end.

(** [try { m } catch (e) { handler(e) }] *)
Definition tryCatch {S E A} (m : M S E A) (handler : E → M S E A) : M S E A :=
  λ s, match m s with
       | Returned s' v => Returned s' v
       | Threw s' e => handler e s'
       end.

(** [try { m } finally { cleanup }] for a cleanup that cannot throw. *)
Definition finally {S E A} (m : M S E A) (cleanup : S → S) : M S E A :=
  λ s, match m s with
       | Returned s' v => Returned (cleanup s') v
       | Threw s' e => Threw (cleanup s') e
       end.

Definition modify {S E} (f : S → S) : M S E unit := λ s, Returned (f s) tt.

Definition get {S E} : M S E S := λ s, Returned s s.

End Effects.

Declare Scope effect_scope.
Delimit Scope effect_scope with eff.
Notation "'let*' x ':=' m 'in' k" :=
  (Effects.bind m (λ x, k))
  (at level 10, x pattern, m at level 100, k at level 200) : effect_scope.
Notation "m ';;' k" :=
  (Effects.bind m (λ _, k))
  (at level 100, k at level 200, right associativity) : effect_scope.

(** ** Lifecycle hooks ([getMergedHooks]) *)
Module Hooks.
Import Effects.

Inductive HookName : Type :=
  | OnStart | OnEnd | OnError | OnHandoff | OnHandoffComplete
  | OnToolStart | OnToolEnd | OnStepFinish
  | OnPrepareMessages | OnPrepareModelMessages.

Definition isPrepare (n : HookName) : bool :=
  match n with
  | OnPrepareMessages | OnPrepareModelMessages => true
  | _ => false
  end.

Section Hooks.
(** [S]: whatever state user hooks can reach; [E]: what they can throw;
    [Args]: the argument object of a hook; [R]: what a hook returns
    ([None] for [undefined]). *)
Context {S E Args R : Type}.

Definition Hook : Type := Args → M S E (option R).

Record AgentHooks := {
  onStart : option Hook;
  onEnd : option Hook;
  onError : option Hook;
  onHandoff : option Hook;
  onHandoffComplete : option Hook;
  onToolStart : option Hook;
  onToolEnd : option Hook;
  onStepFinish : option Hook;
  onPrepareMessages : option Hook;
  onPrepareModelMessages : option Hook }.

Definition hookNamed (n : HookName) (h : AgentHooks) : option Hook :=
  match n with
  | OnStart => onStart h
  | OnEnd => onEnd h
  | OnError => onError h
  | OnHandoff => onHandoff h
  | OnHandoffComplete => onHandoffComplete h
  | OnToolStart => onToolStart h
  | OnToolEnd => onToolEnd h
  | OnStepFinish => onStepFinish h
  | OnPrepareMessages => onPrepareMessages h
  | OnPrepareModelMessages => onPrepareModelMessages h
  end.

(** [await h?.(...args)] *)
Definition callHook (h : option Hook) (args : Args) : M S E (option R) :=
  match h with
  | Some f => f args
  | None => ret None
  end.

(** [async (...args) => { await c?.(...args); await a?.(...args); }] *)
Definition callThenAgent (c a : option Hook) : Hook :=
  λ args, (callHook c args ;; callHook a args ;; ret None)%eff.

(** [c || a] on two optional functions. *)
Definition firstDefined (c a : option Hook) : option Hook :=
  match c with
  | Some f => Some f
  | None => a
  end.

Record HookOptions := { opt_hooks : option AgentHooks }.

(** [getMergedHooks(options)], with [agentHooks] for [this.hooks]. *)
Definition getMergedHooks (agentHooks : AgentHooks)
    (options : option HookOptions) : AgentHooks :=
  match options ≫= opt_hooks with
  | None => agentHooks
  | Some callHooks =>
      {| onStart :=
           Some (callThenAgent (onStart callHooks) (onStart agentHooks));
         onEnd :=
           Some (callThenAgent (onEnd callHooks) (onEnd agentHooks));
         onError :=
           Some (callThenAgent (onError callHooks) (onError agentHooks));
         onHandoff :=
           Some (callThenAgent (onHandoff callHooks) (onHandoff agentHooks));
         onHandoffComplete :=
           Some (callThenAgent (onHandoffComplete callHooks)
                   (onHandoffComplete agentHooks));
         onToolStart :=
           Some (callThenAgent (onToolStart callHooks)
                   (onToolStart agentHooks));
         onToolEnd :=
           Some (callThenAgent (onToolEnd callHooks) (onToolEnd agentHooks));
         onStepFinish :=
           Some (callThenAgent (onStepFinish callHooks)
                   (onStepFinish agentHooks));
         onPrepareMessages :=
           firstDefined (onPrepareMessages callHooks)
             (onPrepareMessages agentHooks);
         onPrepareModelMessages :=
           firstDefined (onPrepareModelMessages callHooks)
             (onPrepareModelMessages agentHooks) |}
  end.

End Hooks.
Arguments Hook : clear implicits.
Arguments AgentHooks : clear implicits.
Arguments HookOptions : clear implicits.

End Hooks.

(** ** Operation context factory ([createOperationContext])

    Context maps and abort controllers are objects shared by reference
    between a parent operation and the operations delegated from it, so
    both live in a store and the operation context holds their addresses. *)
Module OperationContextFactory.
Import Js.

(** Addresses in the store. *)
Abbreviation loc := nat.

(** A key of a context map: a string or a symbol. *)
Inductive Key : Type :=
  | KStr (s : string)
  | KSym (id : nat).

#[global] Instance Key_eq_dec : EqDecision Key.
Proof. solve_decision. Defined.

(** A JavaScript [Map<string | symbol, unknown>]: its entries in insertion
    order. *)
Definition ContextMap : Type := list (Key * JsValue).

Fixpoint mapGet (k : Key) (m : ContextMap) : option JsValue :=
  match m with
  | [] => None
  | (k', v) :: m' => if decide (k = k') then Some v else mapGet k m'
  end.

Definition mapHas (k : Key) (m : ContextMap) : bool :=
  bool_decide (is_Some (mapGet k m)).

(** [m.set(k, v)]: an existing key keeps its place, a new one goes last. *)
Fixpoint mapSet (k : Key) (v : JsValue) (m : ContextMap) : ContextMap :=
  match m with
  | [] => [(k, v)]
  | (k', v') :: m' =>
      if decide (k = k') then (k, v) :: m' else (k', v') :: mapSet k v m'
  end.

(** [new Map(entries)] *)
Definition mapOfEntries (entries : list (Key * JsValue)) : ContextMap :=
  foldl (λ m kv, mapSet kv.1 kv.2 m) [] entries.

(** [for (const [k, v] of src.entries()) if (!dst.has(k)) dst.set(k, v)] *)
Definition backfill (src dst : ContextMap) : ContextMap :=
  foldl (λ d kv, if mapHas kv.1 d then d else mapSet kv.1 kv.2 d) dst src.

(** An [AbortController] with its signal: whether it has fired, with which
    reason, and the listeners registered for ["abort"].  The one listener
    the factory registers is the bridge to a controller it created. *)
Inductive Listener : Type :=
  | Bridge (target : loc).

Record AbortController := {
  aborted : bool;
  reason : option JsValue;
  listeners : list Listener }.

Record Store := {
  maps : list ContextMap;
  controllers : list AbortController;
  stepArrays : list (list StepRecorder.StepWithContent);
  operationsCreated : nat }.

(** [ContextInput]: a [Map] (by reference) or a plain object. *)
Inductive ContextInput : Type :=
  | ContextAsMap (m : loc)
  | ContextAsRecord (fields : list (Key * JsValue)).

Record SystemContext := {
  sys_agentMetadata : StepRecorder.AgentMetadataContextValue;
  sys_bufferCreated : bool;
  sys_queueDebounceMs : nat }.

Record OperationContext := {
  operationId : string;
  context : loc;
  systemContext : SystemContext;
  isActive : bool;
  conversationSteps : option loc;
  abortController : loc;
  userId : option string;
  conversationId : option string;
  parentAgentId : option string;
  input : JsValue;
  output : option string }.

Record BaseGenerationOptions := {
  opt_context : option ContextInput;
  opt_parentOperationContext : option OperationContext;
  opt_abortSignal : option loc;
  opt_userId : option string;
  opt_conversationId : option string;
  opt_parentAgentId : option string }.

Record Agent := {
  agent_id : string;
  agent_name : string;
  agent_context : option loc }.

(** [Object.entries] lists the string-keyed properties only. *)
Definition isStringKey (k : Key) : bool :=
  match k with KStr _ => true | KSym _ => false end.

Definition objectEntries (fields : list (Key * JsValue))
    : list (Key * JsValue) :=
  filter (λ kv, isStringKey kv.1 = true) fields.

Definition allocMap (m : ContextMap) (st : Store) : loc * Store :=
  (length (maps st),
   {| maps := maps st ++ [m];
      controllers := controllers st;
      stepArrays := stepArrays st;
      operationsCreated := operationsCreated st |}).

Definition entriesAt (l : loc) (st : Store) : ContextMap :=
  default [] (maps st !! l).

Definition setMap (l : loc) (m : ContextMap) (st : Store) : Store :=
  {| maps := <[l := m]> (maps st);
     controllers := controllers st;
     stepArrays := stepArrays st;
     operationsCreated := operationsCreated st |}.

(** The fill-in loop on two maps of the store.  The loop writes to [dst]
    only, and when [src] is the same object every key is already there, so
    reading the entries of [src] up front is what the live iteration sees. *)
Definition backfillFrom (src dst : loc) (st : Store) : Store :=
  setMap dst (backfill (entriesAt src st) (entriesAt dst st)) st.

(** [toContextMap(context)] *)
Definition toContextMap (c : option ContextInput) (st : Store)
    : option loc * Store :=
  match c with
  | None => (None, st)
  | Some (ContextAsMap m) => (Some m, st)
  | Some (ContextAsRecord fields) =>
      let '(m, st) := allocMap (mapOfEntries (objectEntries fields)) st in
      (Some m, st)
  end.

Definition optBackfill (src : option loc) (dst : loc) (st : Store) : Store :=
  match src with
  | Some src => backfillFrom src dst st
  | None => st
  end.

Definition newAbortController (st : Store) : loc * Store :=
  (length (controllers st),
   {| maps := maps st;
      controllers :=
        controllers st
          ++ [{| aborted := false; reason := None; listeners := [] |}];
      stepArrays := stepArrays st;
      operationsCreated := operationsCreated st |}).

(** [signal.addEventListener("abort", listener)] *)
Definition addEventListener (signal : loc) (l : Listener) (st : Store)
    : Store :=
  {| maps := maps st;
     controllers :=
       match controllers st !! signal with
       | Some c =>
           <[signal := {| aborted := aborted c; reason := reason c;
                          listeners := listeners c ++ [l] |}]>
             (controllers st)
       | None => controllers st
       end;
     stepArrays := stepArrays st;
     operationsCreated := operationsCreated st |}.

Definition newStepArray (st : Store) : loc * Store :=
  (length (stepArrays st),
   {| maps := maps st;
      controllers := controllers st;
      stepArrays := stepArrays st ++ [[]];
      operationsCreated := operationsCreated st |}).

Definition countOperation (st : Store) : Store :=
  {| maps := maps st;
     controllers := controllers st;
     stepArrays := stepArrays st;
     operationsCreated := S (operationsCreated st) |}.

Section Factory.
(** [randomUUID] for the [n]-th operation, and the trigger context that is
    active in the ambient tracing context, when it is a [Map]. *)
Variable operationUuid : nat → string.
Variable activeTriggerContext : option loc.
Variable self : Agent.

(** [createOperationContext(input, options)].  Logger and trace context
    are left out. *)
Definition createOperationContext (input : JsValue)
    (options : option BaseGenerationOptions) (st : Store)
    : OperationContext * Store :=
  let operationId := operationUuid (operationsCreated st) in
  let st := countOperation st in
  let '(runtimeContext, st) := toContextMap (options ≫= opt_context) st in
  let parent := options ≫= opt_parentOperationContext in
  let '(context, st) :=
    match parent with
    | Some parent =>
        let context := context parent in
        let st := optBackfill runtimeContext context st in
        let st := optBackfill (agent_context self) context st in
        (context, st)
    | None =>
        match runtimeContext with
        | Some context =>
            (context, optBackfill (agent_context self) context st)
        | None =>
            match agent_context self with
            | Some context => (context, st)
            | None => allocMap [] st
            end
        end
    end in
  let st := optBackfill activeTriggerContext context st in
  let '(abortController, st) :=
    match parent with
    | Some parent => (abortController parent, st)
    | None => newAbortController st
    end in
  let st :=
    match parent, options ≫= opt_abortSignal with
    | None, Some externalSignal =>
        addEventListener externalSignal (Bridge abortController) st
    | _, _ => st
    end in
  let systemContext :=
    {| sys_agentMetadata :=
         {| StepRecorder.meta_agentId := agent_id self;
            StepRecorder.meta_agentName := agent_name self |};
       sys_bufferCreated := true;
       sys_queueDebounceMs := 200 |} in
  let '(conversationSteps, st) :=
    match parent ≫= conversationSteps with
    | Some steps => (steps, st)
    | None => newStepArray st
    end in
  ({| operationId := operationId;
      context := context;
      systemContext := systemContext;
      isActive := true;
      conversationSteps := Some conversationSteps;
      abortController := abortController;
      userId := options ≫= opt_userId;
      conversationId := options ≫= opt_conversationId;
      parentAgentId := options ≫= opt_parentAgentId;
      input := input;
      output := None |}, st).

End Factory.

(** [controller.abort(reason)]: nothing when the signal has fired already;
    otherwise the signal fires with [reason] and its listeners run in
    order.  A bridge listener is
    [() => { if (!target.signal.aborted) target.abort(signal.reason) }],
    so listeners can set off further controllers; [depth] bounds how deep
    such a chain may nest (the call stack). *)
Fixpoint abort (depth : nat) (c : loc) (r : JsValue)
    (cs : list AbortController) : option (list AbortController) :=
  match depth with
  | 0 => None
  | S depth =>
      match cs !! c with
      | None => Some cs
      | Some ctl =>
          if aborted ctl then Some cs
          else
            let cs :=
              <[c := {| aborted := true; reason := Some r;
                        listeners := listeners ctl |}]> cs in
            (fix dispatch (ls : list Listener) (cs : list AbortController)
               : option (list AbortController) :=
               match ls with
               | [] => Some cs
               | Bridge target :: ls =>
                   match cs !! target with
                   | Some t =>
                       if aborted t then dispatch ls cs
                       else
                         match abort depth target r cs with
                         | Some cs => dispatch ls cs
                         | None => None
                         end
                   | None => dispatch ls cs
                   end
               end) (listeners ctl) cs
      end
  end.

(** Controllers that have not fired yet. *)
Definition pending (cs : list AbortController) : nat :=
  length (filter (λ c, aborted c = false) cs).

Definition ctxGet (st : Store) (l : loc) (k : Key) : option JsValue :=
  mapGet k (entriesAt l st).

(** What the caller supplied under [k], as [toContextMap] sees it. *)
Definition suppliedGet (st : Store) (c : option ContextInput) (k : Key)
    : option JsValue :=
  match c with
  | None => None
  | Some (ContextAsMap m) => ctxGet st m k
  | Some (ContextAsRecord fields) =>
      mapGet k (mapOfEntries (objectEntries fields))
  end.

Definition firstSome (a b : option JsValue) : option JsValue :=
  match a with Some v => Some v | None => b end.

End OperationContextFactory.

(** ** Error payloads ([error-utils.ts])

    Values attached to a thrown error can share structure and can be
    cyclic, so objects live in a heap and values refer to them by address. *)
Module ErrorUtils.
Import Js.

Abbreviation addr := nat.

Inductive Value : Type :=
  | VUndefined
  | VNull
  | VBool (b : bool)
  | VNum (z : Z)
  | VStr (s : string)
  | VFunction (source : string)
  | VRef (a : addr).

(** An [Error] instance: [name], [message], [stack] and its further own
    properties ([cause] among them when it has one), in creation order. *)
Record JsError := {
  err_name : string;
  err_message : string;
  err_stack : option string;
  err_props : list (string * Value) }.

Inductive Object : Type :=
  | OPlain (fields : list (string * Value))
  | OArray (items : list Value)
  | OError (e : JsError)
  | ODate (iso : option string)
  | OMapOrSet.

Abbreviation Heap := (list Object).

(** What a JavaScript call can come to: a value, or an exception (of which
    the model keeps the name). *)
Inductive Result (A : Type) : Type :=
  | Ok (a : A)
  | Thrown (name : string).
Arguments Ok {A} a.
Arguments Thrown {A} name.

Definition resultBind {A B} (r : Result A) (k : A → Result B) : Result B :=
  match r with
  | Ok a => k a
  | Thrown n => Thrown n
  end.

(** [items.map(f)] for an [f] that may throw. *)
Fixpoint mapResult {A B} (f : A → Result B) (l : list A) : Result (list B) :=
  match l with
  | [] => Ok []
  | x :: l =>
      resultBind (f x) (λ y, resultBind (mapResult f l) (λ ys, Ok (y :: ys)))
  end.

(** [String.prototype.startsWith] *)
Fixpoint startsWith (needle hay : string) : bool :=
  match needle, hay with
  | EmptyString, _ => true
  | String _ _, EmptyString => false
  | String c needle', String c' hay' =>
      Ascii.eqb c c' && startsWith needle' hay'
  end.

(** [String.prototype.includes] *)
Fixpoint includes (needle hay : string) : bool :=
  startsWith needle hay
  || match hay with
     | EmptyString => false
     | String _ hay' => includes needle hay'
     end.

Definition doubleQuote : string := String (ascii_of_nat 34) EmptyString.
Definition backslash : string := String (ascii_of_nat 92) EmptyString.

Fixpoint escapeJson (s : string) : string :=
  match s with
  | EmptyString => EmptyString
  | String c s' =>
      (if (nat_of_ascii c =? 34) || (nat_of_ascii c =? 92)
       then backslash +:+ String c EmptyString
       else String c EmptyString) +:+ escapeJson s'
  end.

Definition quote (s : string) : string :=
  doubleQuote +:+ escapeJson s +:+ doubleQuote.

Definition circularMarker : string := "[Circular]".

(** [JSON.stringify] leaves out object properties whose value is
    [undefined] or a function. *)
Definition keepsProperty (v : Value) : bool :=
  match v with
  | VUndefined | VFunction _ => false
  | _ => true
  end.

(** Modelled from the spec: [safeStringify] of [@voltagent/internal/utils]
    is not among the sources.  The spec has it produce a JSON string in
    which a circular reference is replaced by a string form containing the
    marker [[Circular]]; the model is [JSON.stringify] with a replacer that
    keeps the chain of objects it is inside of ([seen]) and writes the
    marker, as a JSON string, for a reference back into that chain.
    [fuel] bounds the nesting; [safeStringify] below supplies enough. *)
Fixpoint stringifyAt (fuel : nat) (h : Heap) (seen : list addr) (v : Value)
    : option string :=
  match v with
  | VUndefined | VFunction _ | VNull => Some "null"
  | VBool b => Some (if b then "true" else "false")
  | VNum z => Some (pretty z)
  | VStr s => Some (quote s)
  | VRef a =>
      if bool_decide (a ∈ seen) then Some (quote circularMarker)
      else
        match fuel with
        | 0 => None
        | S fuel =>
            let inner := stringifyAt fuel h (a :: seen) in
            let member (kv : string * Value) : option string :=
              (λ s, quote kv.1 +:+ ":" +:+ s) <$> inner kv.2 in
            let object (fields : list (string * Value)) : option string :=
              (λ ms, "{" +:+ String.concat "," ms +:+ "}")
                <$> mapM member (List.filter (λ kv, keepsProperty kv.2) fields) in
            match h !! a with
            | None => Some "null"
            | Some (OPlain fields) => object fields
            | Some (OArray items) =>
                (λ ss, "[" +:+ String.concat "," ss +:+ "]")
                  <$> mapM inner items
            | Some (OError e) => object (err_props e)
            | Some (ODate iso) =>
                Some (match iso with Some i => quote i | None => "null" end)
            | Some OMapOrSet => Some "{}"
            end
        end
  end.

(** Modelled from the spec: [safeStringify(value)].  At the top level
    [JSON.stringify] gives [undefined] for [undefined] and for a function. *)
Definition safeStringify (h : Heap) (v : Value) : Result JsValue :=
  match v with
  | VUndefined | VFunction _ => Ok JUndefined
  | _ =>
      match stringifyAt (S (length h)) h [] v with
      | Some s => Ok (JStr s)
      | None => Thrown "Error"
      end
  end.

(** [String(value)], where [sanitizeErrorValue] can reach it. *)
Definition stringOf (h : Heap) (v : Value) : string :=
  match v with
  | VFunction source => source
  | _ => "[object Object]"
  end.

(** [{ name, message, stack }] of an [Error]. *)
Definition errorSummary (e : JsError) : JsValue :=
  JObj [("name", JStr (err_name e));
        ("message", JStr (err_message e));
        ("stack", match err_stack e with
                  | Some s => JStr s
                  | None => JUndefined
                  end)].

(** [try { return safeStringify(value) } catch { return String(value) }] *)
Definition stringifyOrString (h : Heap) (v : Value) : Result JsValue :=
  match safeStringify h v with
  | Ok s => Ok s
  | Thrown _ => Ok (JStr (stringOf h v))
  end.

(** [sanitizeErrorValue(value)].  [depth] is the room left on the call
    stack: every call takes one frame, and a call with no room left throws
    [RangeError] (maximum call stack size exceeded). *)
Fixpoint sanitizeErrorValue (depth : nat) (h : Heap) (value : Value)
    : Result JsValue :=
  match depth with
  | 0 => Thrown "RangeError"
  | S depth =>
      match value with
      | VNull => Ok JNull
      | VUndefined => Ok JUndefined
      | VStr s => Ok (JStr s)
      | VNum z => Ok (JNum z)
      | VBool b => Ok (JBool b)
      | VFunction _ => stringifyOrString h value
      | VRef a =>
          match h !! a with
          | Some (OArray items) =>
              resultBind (mapResult (sanitizeErrorValue depth h) items)
                (λ out, Ok (JArr out))
          | Some (OError e) => Ok (errorSummary e)
          | Some (ODate iso) =>
              match iso with
              | Some i => Ok (JStr i)
              | None => Thrown "RangeError"
              end
          | Some OMapOrSet => safeStringify h value
          | Some (OPlain _) | None => stringifyOrString h value
          end
      end
  end.

(** [obj[key] = v] on an object literal: an existing key keeps its place. *)
Fixpoint objSet (key : string) (v : JsValue) (obj : list (string * JsValue))
    : list (string * JsValue) :=
  match obj with
  | [] => [(key, v)]
  | (k, v') :: obj' =>
      if String.eqb key k then (k, v) :: obj'
      else (k, v') :: objSet key v obj'
  end.

Definition reservedKeys : list string :=
  ["name"; "message"; "stack"; "cause"; "error"].

Definition isReserved (key : string) : bool :=
  existsb (String.eqb key) reservedKeys.

(** The loop over [Object.getOwnPropertyNames(error)]; [message] and
    [stack], which that list also holds, are skipped like the other
    reserved keys. *)
Fixpoint copyOwnProperties (depth : nat) (h : Heap)
    (props : list (string * Value)) (errorResult : list (string * JsValue))
    : Result (list (string * JsValue)) :=
  match props with
  | [] => Ok errorResult
  | (key, value) :: props =>
      if isReserved key || negb (keepsProperty value)
      then copyOwnProperties depth h props errorResult
      else
        resultBind (sanitizeErrorValue depth h value)
          (λ v, copyOwnProperties depth h props (objSet key v errorResult))
  end.

(** [buildToolErrorResult(error, toolCallId, toolName)] *)
Definition buildToolErrorResult (depth : nat) (h : Heap) (error : JsError)
    (toolCallId toolName : string) : Result (list (string * JsValue)) :=
  let errorResult :=
    [("error", JBool true);
     ("name", JStr (err_name error));
     ("message", JStr (err_message error));
     ("stack", match err_stack error with
               | Some s => JStr s
               | None => JUndefined
               end);
     ("toolCallId", JStr toolCallId);
     ("toolName", JStr toolName)] in
  let cause := default VUndefined (assoc "cause" (err_props error)) in
  resultBind
    (match cause with
     | VUndefined => Ok errorResult
     | VRef a =>
         match h !! a with
         | Some (OError c) => Ok (objSet "cause" (errorSummary c) errorResult)
         | _ =>
             resultBind (sanitizeErrorValue depth h cause)
               (λ c, Ok (objSet "cause" c errorResult))
         end
     | _ =>
         resultBind (sanitizeErrorValue depth h cause)
           (λ c, Ok (objSet "cause" c errorResult))
     end)
    (copyOwnProperties depth h (err_props error)).

(** The values an object holds, as far as the serialiser follows them. *)
Definition children (o : Object) : list Value :=
  match o with
  | OPlain fields => snd <$> fields
  | OArray items => items
  | OError e => snd <$> err_props e
  | ODate _ | OMapOrSet => []
  end.

(** [a] holds a reference to [b]. *)
Definition pointsTo (h : Heap) (a b : addr) : Prop :=
  ∃ o, h !! a = Some o ∧ VRef b ∈ children o.

(** [a] contains a self-reference: it points back to itself, directly or
    through a cycle. *)
Definition selfReferencing (h : Heap) (a : addr) : Prop :=
  tc (pointsTo h) a a.

(** The result is a string that contains the marker. *)
Definition markedString (r : Result JsValue) : Prop :=
  ∃ s, r = Ok (JStr s) ∧ includes circularMarker s = true.

End ErrorUtils.

(** ** Tool execution wrapper ([createToolExecutionFactory]) *)
Module ToolExecution.
Import Js Effects ErrorUtils Hooks.

(** [toolContext] of [ToolExecuteOptions]. *)
Record ToolExecuteOptions := {
  teo_name : string;
  teo_callId : string }.

(** [tool.outputSchema.safeParse(result)] *)
Inductive ParseResult : Type :=
  | ParseSuccess (data : Value)
  | ParseFailure (message : string) (errors : Value).

(** [createVoltAgentError] lives in [./errors], which is not among the
    sources; the wrapper hands its arguments over and passes the result to
    [onToolEnd], so the model keeps it as the record of those arguments. *)
Record VoltAgentError := {
  vae_error : JsError;
  vae_stage : string;
  vae_toolCallId : string;
  vae_toolName : string;
  vae_toolArguments : Value }.

(** What the wrapped tool function returns to the model-invocation
    service: the tool's own result, or the error payload. *)
Inductive ToolReturn : Type :=
  | RawResult (result : Value)
  | ErrorResult (payload : list (string * JsValue)).

Section Wrapper.
(** [U]: the state user code (tools, hooks) keeps besides the heap. *)
Context {U : Type}.

(** The world a tool call runs in: the heap of objects, the reason the
    operation's abort controller was aborted with (if it was), the number
    of UUIDs drawn, and the user's state. *)
Record World := {
  heap : Heap;
  abortedWith : option Value;
  uuidsDrawn : nat;
  user : U }.

(** Thrown values are JavaScript values; an [Error] is a reference to an
    [OError] of the heap. *)
Definition Eff (A : Type) : Type := M World Value A.

Record Tool := {
  tool_name : string;
  tool_execute : option (Value → ToolExecuteOptions → Eff Value);
  tool_outputSchema : option (Heap → Value → ParseResult) }.

Inductive HookArgs : Type :=
  | ToolStartArgs (tool : Tool) (args : Value) (options : ToolExecuteOptions)
  | ToolEndArgs (tool : Tool) (output : option Value)
      (error : option VoltAgentError) (options : ToolExecuteOptions).

Definition ToolHooks : Type := AgentHooks World Value HookArgs unit.

(** [uuid]: [randomUUID]; [stackDepth]: the room on the call stack where
    the error payload is built; [isToolDeniedError]: the test of
    [./errors].
    [stringOfThrown]: [String(e)] for a thrown value that is not an
    [Error].  For an object the conversion calls the object's own
    [toString] (or [valueOf]): code of whoever made the value, which can
    change the world and can throw, and an object without a usable
    [toString] makes the conversion itself throw a [TypeError]. *)
Variable uuid : nat → string.
Variable stackDepth : nat.
Variable stringOfThrown : Value → Eff string.
Variable isToolDeniedError : Heap → Value → bool.

Definition newError (message : string) : JsError :=
  {| err_name := "Error";
     err_message := message;
     err_stack := Some ("Error: " +:+ message);
     err_props := [] |}.

(** [throw error] for a newly made [Error] object. *)
Definition throwError {A} (error : JsError) : Eff A :=
  λ w, Threw {| heap := heap w ++ [OError error];
                abortedWith := abortedWith w;
                uuidsDrawn := uuidsDrawn w;
                user := user w |}
         (VRef (length (heap w))).

(** [oc.abortController.abort(e)] *)
Definition abortWith (e : Value) (w : World) : World :=
  {| heap := heap w;
     abortedWith := match abortedWith w with
                    | Some r => Some r
                    | None => Some e
                    end;
     uuidsDrawn := uuidsDrawn w;
     user := user w |}.

(** [options?.toolCallId ?? randomUUID()] *)
Definition resolveCallId (toolCallId : option string) : Eff string :=
  match toolCallId with
  | Some callId => ret callId
  | None =>
      λ w, Returned {| heap := heap w;
                       abortedWith := abortedWith w;
                       uuidsDrawn := S (uuidsDrawn w);
                       user := user w |}
             (uuid (uuidsDrawn w))
  end.

(** [validateToolOutput(result, tool)] *)
Definition validateToolOutput (result : Value) (tool : Tool) : Eff Value :=
  match tool_outputSchema tool with
  | None => ret result
  | Some safeParse =>
      λ w, match safeParse (heap w) result with
           | ParseSuccess data => Returned w data
           | ParseFailure message errors =>
               throwError
                 {| err_name := "Error";
                    err_message := "Output validation failed: " +:+ message;
                    err_stack :=
                      Some ("Error: Output validation failed: " +:+ message);
                    err_props := [("validationErrors", errors);
                                  ("actualOutput", result)] |} w
           end
  end.

(** [e instanceof Error]: the [Error] a thrown value is, if it is one. *)
Definition asError (h : Heap) (e : Value) : option JsError :=
  match e with
  | VRef a =>
      match h !! a with
      | Some (OError error) => Some error
      | _ => None
      end
  | _ => None
  end.

(** [e instanceof Error ? e : new Error(String(e))] *)
Definition toError (e : Value) : Eff JsError :=
  (let* w := get in
   match asError (heap w) e with
   | Some error => ret error
   | None =>
       let* message := stringOfThrown e in
       ret (newError message)
   end)%eff.

(** The [try] block of the wrapped function. *)
Definition tryBlock (hooks : ToolHooks) (tool : Tool) (args : Value)
    (executionOptions : ToolExecuteOptions) : Eff ToolReturn :=
  (callHook (onToolStart hooks) (ToolStartArgs tool args executionOptions) ;;
   match tool_execute tool with
   | None =>
       throwError
         (newError ("Tool " +:+ tool_name tool +:+ " does not have "
                    +:+ doubleQuote +:+ "execute" +:+ doubleQuote
                    +:+ " method"))
   | Some execute =>
       let* result := execute args executionOptions in
       let* validatedResult := validateToolOutput result tool in
       callHook (onToolEnd hooks)
         (ToolEndArgs tool (Some validatedResult) None executionOptions) ;;
       ret (RawResult result)
   end)%eff.

(** The [catch] block. *)
Definition catchBlock (hooks : ToolHooks) (tool : Tool) (args : Value)
    (executionOptions : ToolExecuteOptions) (toolCallId : string)
    (e : Value) : Eff ToolReturn :=
  (let* error := toError e in
   let voltAgentError :=
     {| vae_error := error;
        vae_stage := "tool_execution";
        vae_toolCallId := toolCallId;
        vae_toolName := tool_name tool;
        vae_toolArguments := args |} in
   let* w := get in
   match buildToolErrorResult stackDepth (heap w) error toolCallId
           (tool_name tool) with
   | Thrown name => throwError (newError name)
   | Ok errorResult =>
       callHook (onToolEnd hooks)
         (ToolEndArgs tool None (Some voltAgentError) executionOptions) ;;
       let* w' := get in
       (if isToolDeniedError (heap w') e
        then modify (abortWith e) else ret tt) ;;
       ret (ErrorResult errorResult)
   end)%eff.

(** [createToolExecutionFactory(oc, hooks)(tool)(args, options)].  The
    trace span of the call is left out. *)
Definition createToolExecutionFactory (hooks : ToolHooks) (tool : Tool)
    (args : Value) (toolCallId : option string) : Eff ToolReturn :=
  (let* toolCallId := resolveCallId toolCallId in
   let executionOptions :=
     {| teo_name := tool_name tool; teo_callId := toolCallId |} in
   tryCatch (tryBlock hooks tool args executionOptions)
     (catchBlock hooks tool args executionOptions toolCallId))%eff.

End Wrapper.
Arguments World : clear implicits.
Arguments Tool : clear implicits.
Arguments HookArgs : clear implicits.
Arguments ToolHooks : clear implicits.
Arguments Eff : clear implicits.

(** [value] can be sanitised with [depth] frames of call stack: arrays
    nest less than [depth] deep, and [value] neither is nor holds, in an
    array, an invalid [Date] (whose [toISOString] throws [RangeError]). *)
Fixpoint fits (depth : nat) (h : Heap) (value : Value) : Prop :=
  match depth with
  | 0 => False
  | S depth =>
      match value with
      | VRef a =>
          match h !! a with
          | Some (OArray items) => Forall (fits depth h) items
          | Some (ODate None) => False
          | _ => True
          end
      | _ => True
      end
  end.

End ToolExecution.

(** ** The streams of [streamText]

    [streamText] hands the caller streams built from the ones of the
    model-invocation service.  Which stages are put in front of which
    stream is kept as a term; the abort-handling stage also gets its
    meaning on finite streams. *)
Module Streaming.
Import Js.

(** The streams the service returns, and the stages of [streamText]. *)
Inductive Stream (G : Type) : Type :=
  | SdkTextStream                 (* result.textStream *)
  | SdkFullStream                 (* result.fullStream *)
  | SdkUIMessageStream            (* result.toUIMessageStream(options) *)
  | AbortHandled (base : Stream G)   (* wrapWithAbortHandling(base) *)
  | MergedFullStream (parent : Stream G)  (* createMergedFullStream() *)
  | MergedUIStream (inner : Stream G)     (* createMergedUIStream(options) *)
  | PipelineFullStream (base text : Stream G) (guardrails : list G)
  | PipelineTextStream (base text : Stream G) (guardrails : list G)
  | PipelineUIStream (base text : Stream G) (guardrails : list G).
Arguments SdkTextStream {G}.
Arguments SdkFullStream {G}.
Arguments SdkUIMessageStream {G}.
Arguments AbortHandled {G} base.
Arguments MergedFullStream {G} parent.
Arguments MergedUIStream {G} inner.
Arguments PipelineFullStream {G} base text guardrails.
Arguments PipelineTextStream {G} base text guardrails.
Arguments PipelineUIStream {G} base text guardrails.

Section Streams.
(** [G]: an output guardrail. *)
Context {G : Type}.

(** [createGuardrailPipeline(base, text, context)]; the function is in
    [./streaming/guardrail-stream], not among the sources, and is kept as
    the record of its arguments. *)
Record GuardrailPipeline := {
  pipelineBase : Stream G;
  pipelineText : Stream G;
  pipelineGuardrails : list G }.

(** [createBaseFullStream()] *)
Definition createBaseFullStream (hasSubAgents : bool) : Stream G :=
  if hasSubAgents
  then MergedFullStream (AbortHandled SdkFullStream)
  else AbortHandled SdkFullStream.

(** [guardrailPipeline], as [streamText] sets it. *)
Definition guardrailPipeline (outputGuardrails : list G)
    (hasSubAgents : bool) : option GuardrailPipeline :=
  let guardrailStreamingEnabled := 0 <? length outputGuardrails in
  if guardrailStreamingEnabled
  then Some {| pipelineBase := createBaseFullStream hasSubAgents;
               pipelineText := SdkTextStream;
               pipelineGuardrails := outputGuardrails |}
  else None.

Definition getGuardrailAwareFullStream (pipeline : option GuardrailPipeline)
    (hasSubAgents : bool) : Stream G :=
  match pipeline with
  | Some p =>
      PipelineFullStream (pipelineBase p) (pipelineText p)
        (pipelineGuardrails p)
  | None => createBaseFullStream hasSubAgents
  end.

Definition getGuardrailAwareTextStream (pipeline : option GuardrailPipeline)
    : Stream G :=
  match pipeline with
  | Some p =>
      PipelineTextStream (pipelineBase p) (pipelineText p)
        (pipelineGuardrails p)
  | None => SdkTextStream
  end.

Definition getGuardrailAwareUIStream (pipeline : option GuardrailPipeline)
    : Stream G :=
  match pipeline with
  | None => SdkUIMessageStream
  | Some p =>
      PipelineUIStream (pipelineBase p) (pipelineText p)
        (pipelineGuardrails p)
  end.

(** [toUIMessageStreamSanitized(options)] *)
Definition toUIMessageStreamSanitized (pipeline : option GuardrailPipeline)
    (hasSubAgents : bool) : Stream G :=
  if hasSubAgents
  then MergedUIStream (getGuardrailAwareUIStream pipeline)
  else getGuardrailAwareUIStream pipeline.

(** The streams of [resultWithContext]. *)
Record ExposedStreams := {
  textStream : Stream G;
  fullStream : Stream G;
  toUIMessageStream : Stream G }.

Definition exposedStreams (outputGuardrails : list G) (hasSubAgents : bool)
    : ExposedStreams :=
  let pipeline := guardrailPipeline outputGuardrails hasSubAgents in
  {| textStream := getGuardrailAwareTextStream pipeline;
     fullStream := getGuardrailAwareFullStream pipeline hasSubAgents;
     toUIMessageStream := toUIMessageStreamSanitized pipeline hasSubAgents |}.

End Streams.
Arguments GuardrailPipeline : clear implicits.
Arguments ExposedStreams : clear implicits.

(** *** What a finite stream delivers *)

(** How a stream ends: it is done, or reading it throws. *)
Inductive Ending : Type :=
  | Done
  | Failed (error : JsValue).

(** The chunks a reader gets, and how the stream ends for it. *)
Record Delivery := {
  chunks : list JsValue;
  ending : Ending }.

(** [wrapWithAbortHandling(baseStream)] on a base stream that delivers
    [base] and then ends with [baseEnding].  [aborted n] is what the
    [n]-th look at [oc.abortController.signal.aborted] finds; [look] is
    the number of looks taken so far. *)
Fixpoint wrapWithAbortHandling (aborted : nat → bool) (look : nat)
    (base : list JsValue) (baseEnding : Ending) : Delivery :=
  if aborted look then {| chunks := []; ending := Done |}
  else
    match base with
    | [] =>
        match baseEnding with
        | Done => {| chunks := []; ending := Done |}
        | Failed error =>
            if aborted (S look) then {| chunks := []; ending := Done |}
            else {| chunks := []; ending := Failed error |}
        end
    | value :: rest =>
        let later := wrapWithAbortHandling aborted (S look) rest baseEnding in
        {| chunks := value :: chunks later; ending := ending later |}
    end.

End Streaming.

(** ** Sub-agent bail: step handler, [generateText], [streamText] *)
Module Bail.
Import Js Effects Hooks StepRecorder.

(** What an abort carries as its reason and what a call can throw: the
    bail signal, a value tagged with [{ agentName, response }], or any
    other value. *)
Inductive Thrown : Type :=
  | BailError (agentName : JsValue) (response : string)
  | OtherError (error : JsValue).

(** Modelled from the spec: [createBailError] of [./errors] is not among
    the sources.  The spec has the bail signal be a tagged value that
    carries the sub-agent's name and response as the abort reason. *)
Definition createBailError (agentName : JsValue) (response : string)
    : Thrown :=
  BailError agentName response.

(** Modelled from the spec: [isBailError] of [./errors] is not among the
    sources.  It holds of exactly the values [createBailError] makes. *)
Definition isBailError (e : Thrown) : bool :=
  match e with
  | BailError _ _ => true
  | OtherError _ => false
  end.

(** The value stored under ["bailedResult"]. *)
Record BailedResult := {
  bailed_agentName : JsValue;
  bailed_response : string }.

(** [v.key] on a value; [None] is the [TypeError] of reading a property
    of [null] or [undefined]. *)
Definition getProp (v : JsValue) (key : string) : option JsValue :=
  match v with
  | JUndefined | JNull => None
  | JObj fields => Some (default JUndefined (assoc key fields))
  | _ => Some JUndefined
  end.

(** [String(v)], when the conversion returns (see [convertible]).
    [numberToString] is [Number.prototype.toString]. *)
Fixpoint stringWith (numberToString : Z → string) (v : JsValue) : string :=
  match v with
  | JUndefined => "undefined"
  | JNull => "null"
  | JBool b => if b then "true" else "false"
  | JNum z => numberToString z
  | JStr s => s
  | JArr items =>
      String.concat ","
        (map (λ item, match item with
                      | JUndefined | JNull => ""
                      | _ => stringWith numberToString item
                      end) items)
  | JObj _ => "[object Object]"
  end.

(** Integers in decimal, as [String] prints those below [1e21]. *)
Definition decimal (z : Z) : string := pretty z.

(** [String(v)] for a value whose numbers are such integers. *)
Definition jsString : JsValue → string := stringWith decimal.

(** Whether [String(v)] returns.  An object is converted through its
    [toString]; a value of this type holds no functions, so an object with
    an own property named [toString] has none it could call, its [valueOf]
    gives no primitive either, and the conversion throws a [TypeError].
    An array converts its elements ([null] and [undefined] apart). *)
Fixpoint convertible (v : JsValue) : bool :=
  match v with
  | JArr items => forallb convertible items
  | JObj fields => negb (existsb (λ kv, String.eqb kv.1 "toString") fields)
  | _ => true
  end.

(** [String(v)]: the text, or the [TypeError] of the conversion. *)
Definition stringOrThrow (numberToString : Z → string) (v : JsValue)
    : ErrorUtils.Result string :=
  if convertible v then ErrorUtils.Ok (stringWith numberToString v)
  else ErrorUtils.Thrown "TypeError".

(** [toolResult.find((r) => r.bailed === true)]: the first element whose
    [bailed] is [true]; [Thrown] when an element before it is [null] or
    [undefined]. *)
Fixpoint findBailed (toolResult : list JsValue)
    : ErrorUtils.Result (option JsValue) :=
  match toolResult with
  | [] => ErrorUtils.Ok None
  | r :: rest =>
      match getProp r "bailed" with
      | None => ErrorUtils.Thrown "TypeError"
      | Some (JBool true) => ErrorUtils.Ok (Some r)
      | Some _ => findBailed rest
      end
  end.

(** [{ agentName, response }] as the step handler takes it from the
    element found: [agentName || "unknown"], [String(response || "")];
    [Thrown] when the conversion of the response throws. *)
Definition bailedResultOf (numberToString : Z → string) (r : JsValue)
    : ErrorUtils.Result BailedResult :=
  let agentName :=
    orElse (default JUndefined (getProp r "agentName")) (JStr "unknown") in
  ErrorUtils.resultBind
    (stringOrThrow numberToString
       (orElse (default JUndefined (getProp r "response")) (JStr "")))
    (λ response,
       ErrorUtils.Ok {| bailed_agentName := agentName;
                        bailed_response := response |}).

(** The finish reason of a call; ["error"] is the error value. *)
Definition isErrorFinishReason (finishReason : string) : bool :=
  String.eqb finishReason "error".

Record EndOutput := {
  end_text : string;
  end_finishReason : string }.

Inductive HookArgs : Type :=
  | StartArgs
  | StepFinishArgs (step : StepResult)
  | EndArgs (output : option EndOutput) (error : option Thrown)
  | ErrorArgs (error : Thrown).

(** What the model-invocation service returns from a call. *)
Record SdkResult := {
  res_text : string;
  res_steps : option (list StepResult);
  res_finishReason : string }.

(** What [generateText] returns. *)
Record GenerateTextResult := {
  gen_text : string;
  gen_finishReason : string }.

Section Operation.
(** [U]: the state of user code (hooks, guardrails). *)
Context {U : Type}.
Context `{Platform}.
Variable self : Agent.

(** [Number.prototype.toString], for a bailed response that is a number. *)
Variable numberToString : Z → string.

(** The operation as the bail protocol sees it: the recorder's part of the
    context (with [systemContext["conversationSteps"]]) and its world,
    [systemContext["bailedResult"]], the shared abort controller (the
    reason it was aborted with, if it was), the messages handed to the
    conversation buffer, [oc.output], the finish reason set on the trace,
    the cancellation error, and the user's state. *)
Record OperationState := {
  recorder : RecorderContext;
  world : World;
  bailedResult : option BailedResult;
  abortReason : option Thrown;
  bufferedMessages : list (list JsValue);
  output : option string;
  traceFinishReason : option string;
  cancellationError : option Thrown;
  user : U }.

Definition Eff (A : Type) : Type := M OperationState Thrown A.
Definition BailHooks : Type := AgentHooks OperationState Thrown HookArgs unit.

(** An output guardrail gets the current text and the finish reason, and
    returns the text to go on with or rejects by throwing. *)
Definition OutputGuardrail : Type := string → string → Eff string.

(** Modelled from the spec: [executeOutputGuardrails] of [./guardrail] is
    not among the sources.  The spec has the output pass through the
    guardrails in declaration order, each invoked once with the previous
    one's output, the first rejection ending the call. *)
Fixpoint executeOutputGuardrails (guardrails : list OutputGuardrail)
    (output finishReason : string) : Eff string :=
  match guardrails with
  | [] => ret output
  | g :: rest =>
      (let* next := g output finishReason in
       executeOutputGuardrails rest next finishReason)%eff
  end.

Definition pushStoredStep (event : StepResult) (s : OperationState)
    : OperationState :=
  let rc := recorder s in
  {| recorder :=
       {| oc_operationId := oc_operationId rc;
          oc_userId := oc_userId rc;
          oc_conversationId := oc_conversationId rc;
          oc_parentAgentId := oc_parentAgentId rc;
          oc_conversationSteps := oc_conversationSteps rc;
          sc_conversationSteps :=
            Some (default [] (sc_conversationSteps rc) ++ [event]);
          sc_persistedStepCount := sc_persistedStepCount rc;
          sc_agentMetadata := sc_agentMetadata rc |};
     world := world s;
     bailedResult := bailedResult s;
     abortReason := abortReason s;
     bufferedMessages := bufferedMessages s;
     output := output s;
     traceFinishReason := traceFinishReason s;
     cancellationError := cancellationError s;
     user := user s |}.

(** [oc.systemContext.set("bailedResult", b)] followed by
    [oc.abortController.abort(createBailError(agentName, response))]; an
    abort of a controller that was aborted before changes nothing. *)
Definition recordBail (b : BailedResult) (s : OperationState)
    : OperationState :=
  {| recorder := recorder s;
     world := world s;
     bailedResult := Some b;
     abortReason :=
       match abortReason s with
       | Some r => Some r
       | None =>
           Some (createBailError (bailed_agentName b) (bailed_response b))
       end;
     bufferedMessages := bufferedMessages s;
     output := output s;
     traceFinishReason := traceFinishReason s;
     cancellationError := cancellationError s;
     user := user s |}.

Definition addModelMessages (messages : list JsValue) (s : OperationState)
    : OperationState :=
  {| recorder := recorder s;
     world := world s;
     bailedResult := bailedResult s;
     abortReason := abortReason s;
     bufferedMessages := bufferedMessages s ++ [messages];
     output := output s;
     traceFinishReason := traceFinishReason s;
     cancellationError := cancellationError s;
     user := user s |}.

Definition setOutput (finalText : string) (finishReason : option string)
    (s : OperationState) : OperationState :=
  {| recorder := recorder s;
     world := world s;
     bailedResult := bailedResult s;
     abortReason := abortReason s;
     bufferedMessages := bufferedMessages s;
     output := Some finalText;
     traceFinishReason :=
       match finishReason with
       | Some r => Some r
       | None => traceFinishReason s
       end;
     cancellationError := cancellationError s;
     user := user s |}.

(** [this.recordStepResults(steps, oc)] *)
Definition recordSteps (steps : option (list StepResult))
    (s : OperationState) : OperationState :=
  let r := recordStepResults self steps (recorder s) (world s) in
  {| recorder := r.1;
     world := r.2;
     bailedResult := bailedResult s;
     abortReason := abortReason s;
     bufferedMessages := bufferedMessages s;
     output := output s;
     traceFinishReason := traceFinishReason s;
     cancellationError := cancellationError s;
     user := user s |}.

(** The loop over [event.content] in the step handler: [true] when a bail
    was found, recorded and the handler returns at once.  A [TypeError] of
    the search or of the conversion of the response leaves the handler
    before anything is recorded. *)
Fixpoint scanContent (parts : list ContentPart) : Eff bool :=
  match parts with
  | [] => ret false
  | PartToolResult _ _ (JArr toolResult) :: rest =>
      match findBailed toolResult with
      | ErrorUtils.Thrown name => throw (OtherError (JStr name))
      | ErrorUtils.Ok (Some r) =>
          match bailedResultOf numberToString r with
          | ErrorUtils.Thrown name => throw (OtherError (JStr name))
          | ErrorUtils.Ok b => (modify (recordBail b) ;; ret true)%eff
          end
      | ErrorUtils.Ok None => scanContent rest
      end
  | _ :: rest => scanContent rest
  end.

(** [createStepHandler(oc, options)(event)], with the merged hooks. *)
Definition createStepHandler (hooks : BailHooks) (event : StepResult)
    : Eff unit :=
  let finish : Eff unit :=
    ((match step_responseMessages event with
      | Some (m :: ms) => modify (addModelMessages (m :: ms))
      | _ => ret tt
      end) ;;
     callHook (onStepFinish hooks) (StepFinishArgs event) ;;
     ret tt)%eff in
  match step_content event with
  | Some parts =>
      (modify (pushStoredStep event) ;;
       let* bailed := scanContent parts in
       if bailed then ret tt else finish)%eff
  | None => finish
  end.

(** [handleError(error, oc, options)]: always throws. *)
Definition handleError {A} (hooks : BailHooks) (error : Thrown) : Eff A :=
  if isBailError error then throw error
  else
    (let* s := get in
     match cancellationError s with
     | Some cancelled => throw cancelled
     | None =>
         callHook (onEnd hooks) (EndArgs None (Some error)) ;;
         callHook (onError hooks) (ErrorArgs error) ;;
         throw error
     end)%eff.

(** The [try] block of [generateText], from the input guardrails to the
    returned result.  [prelude] stands for what comes before the model is
    called (input guardrails, message preparation, the [onStart] hook),
    [invoke] for the call of the model-invocation service, which is given
    the step handler, and [flush] for [persistQueue.flush]. *)
Definition generateTextTry (prelude : Eff unit)
    (invoke : (StepResult → Eff unit) → Eff SdkResult) (flush : Eff unit)
    (guardrails : list OutputGuardrail) (hooks : BailHooks)
    : Eff GenerateTextResult :=
  (prelude ;;
   let* result := invoke (createStepHandler hooks) in
   modify (recordSteps (res_steps result)) ;;
   flush ;;
   let* finalText :=
     executeOutputGuardrails guardrails (res_text result)
       (res_finishReason result) in
   callHook (onEnd hooks)
     (EndArgs (Some {| end_text := finalText;
                       end_finishReason := res_finishReason result |})
        None) ;;
   modify (setOutput finalText (Some (res_finishReason result))) ;;
   ret {| gen_text := finalText;
          gen_finishReason := res_finishReason result |})%eff.

(** The [catch] block of [generateText]. *)
Definition generateTextCatch (flush : Eff unit)
    (guardrails : list OutputGuardrail) (hooks : BailHooks) (error : Thrown)
    : Eff GenerateTextResult :=
  (let* s := get in
   match isBailError error, bailedResult s with
   | true, Some bailed =>
       let* finalText :=
         executeOutputGuardrails guardrails (bailed_response bailed) "bail" in
       callHook (onEnd hooks)
         (EndArgs (Some {| end_text := finalText;
                           end_finishReason := "bail" |}) None) ;;
       modify (recordSteps None) ;;
       ret {| gen_text := finalText; gen_finishReason := "bail" |}
   | _, _ =>
       tryCatch flush (λ _, ret tt) ;;
       handleError hooks error
   end)%eff.

(** [generateText(input, options)], once the operation context exists. *)
Definition generateText (prelude : Eff unit)
    (invoke : (StepResult → Eff unit) → Eff SdkResult) (flush : Eff unit)
    (guardrails : list OutputGuardrail) (hooks : BailHooks)
    : Eff GenerateTextResult :=
  tryCatch (generateTextTry prelude invoke flush guardrails hooks)
    (generateTextCatch flush guardrails hooks).

(** [bailedResult?.response || aiSdkText] *)
Definition bailedOrSdkText (s : OperationState) (aiSdkText : string)
    : string :=
  match bailedResult s with
  | Some bailed =>
      if strTruthy (bailed_response bailed) then bailed_response bailed
      else aiSdkText
  | None => aiSdkText
  end.

(** What the [text] promise of the [streamText] result resolves to, in
    the state [s] the operation is in when the service's own text
    resolves.  [sanitized] is there when a guardrail pipeline was built:
    the text its runner holds, if any. *)
Definition streamTextPromise (sanitized : option (option string))
    (s : OperationState) (aiSdkText : string) : string :=
  match sanitized with
  | Some (Some clean) =>
      if strTruthy clean then clean else bailedOrSdkText s aiSdkText
  | Some None => bailedOrSdkText s aiSdkText
  | None => bailedOrSdkText s aiSdkText
  end.

(** The [onFinish] callback [streamText] gives to the service. *)
Definition streamTextOnFinish (flush : Eff unit)
    (guardrails : list OutputGuardrail) (sanitized : option (option string))
    (hooks : BailHooks) (userOnFinish : option (SdkResult → Eff unit))
    (finalResult : SdkResult) : Eff unit :=
  (flush ;;
   let* s := get in
   let* finalText :=
     match bailedResult s with
     | Some bailed =>
         match guardrails with
         | _ :: _ =>
             executeOutputGuardrails guardrails (bailed_response bailed)
               "bail"
         | [] => ret (bailed_response bailed)
         end
     | None =>
         match sanitized, guardrails with
         | Some _, _ =>
             ret (streamTextPromise sanitized s (res_text finalResult))
         | None, _ :: _ =>
             executeOutputGuardrails guardrails (res_text finalResult)
               (res_finishReason finalResult)
         | None, [] => ret (res_text finalResult)
         end
     end in
   modify (recordSteps (res_steps finalResult)) ;;
   modify (setOutput finalText
             (Some (match bailedResult s with
                    | Some _ => "stop"
                    | None => res_finishReason finalResult
                    end))) ;;
   callHook (onEnd hooks)
     (EndArgs (Some {| end_text := finalText;
                       end_finishReason := res_finishReason finalResult |})
        None) ;;
   match userOnFinish with
   | Some f =>
       f (match guardrails with
          | _ :: _ =>
              {| res_text := finalText;
                 res_steps := res_steps finalResult;
                 res_finishReason := res_finishReason finalResult |}
          | [] => finalResult
          end)
   | None => ret tt
   end)%eff.

End Operation.
Arguments OperationState : clear implicits.
Arguments Eff : clear implicits.
Arguments BailHooks : clear implicits.
Arguments OutputGuardrail : clear implicits.

(** An element of a tool result the search passes over: it is neither
    [null] nor [undefined], and its [bailed] is not [true]. *)
Definition passedOver (r : JsValue) : bool :=
  match getProp r "bailed" with
  | None | Some (JBool true) => false
  | Some _ => true
  end.

(** A content part in which the search finds nothing and does not throw:
    any part but a tool result with an array output, and such a tool result
    when the search passes over all elements of the array. *)
Definition quietPart (p : ContentPart) : bool :=
  match p with
  | PartToolResult _ _ (JArr toolResult) => forallb passedOver toolResult
  | _ => true
  end.

(** [fields[key]] of an object literal. *)
Definition fieldOf (fields : list (string * JsValue)) (key : string)
    : JsValue :=
  default JUndefined (assoc key fields).

End Bail.

(** ** Agent state report ([getFullState]): guardrail entries *)
Module FullState.
Import Js.

(** Strings are taken as sequences of ASCII characters: [toLowerCase]
    lowers [A-Z] and leaves every other character as it is. *)
Definition isUpper (a : ascii) : bool :=
  let n := nat_of_ascii a in (65 <=? n) && (n <=? 90).

Definition toLowerAscii (a : ascii) : ascii :=
  if isUpper a then ascii_of_nat (nat_of_ascii a + 32) else a.

(** The character class [[a-z0-9]]. *)
Definition isSlugChar (a : ascii) : bool :=
  let n := nat_of_ascii a in
  ((97 <=? n) && (n <=? 122)) || ((48 <=? n) && (n <=? 57)).

Definition isDash (a : ascii) : bool := Ascii.eqb a "-".

(** [.replace(/[^a-z0-9]+/g, "-")]: [inRun] tells that the character
    before was part of a run already replaced. *)
Fixpoint replaceRuns (inRun : bool) (l : list ascii) : list ascii :=
  match l with
  | [] => []
  | a :: l' =>
      if isSlugChar a then a :: replaceRuns false l'
      else if inRun then replaceRuns true l'
      else "-"%char :: replaceRuns true l'
  end.

Fixpoint dropWhile (p : ascii → bool) (l : list ascii) : list ascii :=
  match l with
  | [] => []
  | a :: l' => if p a then dropWhile p l' else l
  end.

(** [.replace(/^-+|-+$/g, "")] *)
Definition stripDashes (l : list ascii) : list ascii :=
  rev (dropWhile isDash (rev (dropWhile isDash l))).

(** [slugifyGuardrailIdentifier(value)] *)
Definition slugifyGuardrailIdentifier (value : string) : string :=
  let slug :=
    string_of_list_ascii
      (stripDashes
         (replaceRuns false
            (map toLowerAscii (list_ascii_of_string (trim value))))) in
  if strTruthy slug then slug else "guardrail".

(** A property value of a metadata record, as far as [cloneRecord] looks
    at it: a function or anything else. *)
Inductive Field : Type :=
  | FFunction
  | FValue (v : JsValue).

(** What [cloneRecord] is given. *)
Inductive Candidate : Type :=
  | CFalsy                                  (* undefined, null, 0, "", false *)
  | CPrimitive                              (* another primitive *)
  | CFunction
  | CArray
  | CObject (entries : list (string * Field)).

Definition isFunction (f : Field) : bool :=
  match f with FFunction => true | FValue _ => false end.

(** [cloneRecord(value)]; [None] is [null]. *)
Definition cloneRecord (value : Candidate)
    : option (list (string * Field)) :=
  match value with
  | CObject entries =>
      let result := List.filter (λ e, negb (isFunction e.2)) entries in
      if 0 <? length result then Some result else None
  | _ => None
  end.

Inductive Direction := input | output.

Definition directionName (d : Direction) : string :=
  match d with input => "input" | output => "output" end.

(** A normalized guardrail, as far as the report reads it. *)
Record Guardrail := {
  g_id : option string;
  g_name : option string;
  g_description : option string;
  g_severity : option string;
  g_tags : option (list string);
  g_metadata : option Candidate }.

(** [AgentGuardrailState]; [st_nodeName] is the name handed to
    [createNodeId(NodeType.GUARDRAIL, name, this.id)]. *)
Record AgentGuardrailState := {
  st_id : option string;
  st_name : option string;
  st_direction : Direction;
  st_nodeName : string;
  st_description : option string;
  st_severity : option string;
  st_tags : option (list string);
  st_metadata : option (list (string * Field)) }.

Definition keepTruthy (o : option string) : option string :=
  match o with
  | Some s => if strTruthy s then Some s else None
  | None => None
  end.

(** The callback of [guardrailList.map] in [mapGuardrails]. *)
Definition guardrailState (direction : Direction) (index : nat)
    (guardrail : Guardrail) : AgentGuardrailState :=
  let baseIdentifier :=
    match g_id guardrail, g_name guardrail with
    | Some i, _ => i
    | None, Some n => n
    | None, None => directionName direction +:+ "-" +:+ pretty (index + 1)
    end in
  let slug := slugifyGuardrailIdentifier baseIdentifier in
  let metadata := cloneRecord (default CFalsy (g_metadata guardrail)) in
  {| st_id := g_id guardrail;
     st_name := g_name guardrail;
     st_direction := direction;
     st_nodeName :=
       directionName direction +:+ "-" +:+
         (if strTruthy slug then slug else pretty (index + 1));
     st_description := keepTruthy (g_description guardrail);
     st_severity := keepTruthy (g_severity guardrail);
     st_tags :=
       match g_tags guardrail with
       | Some (t :: ts) => Some (t :: ts)
       | _ => None
       end;
     st_metadata := metadata |}.

(** [mapGuardrails(guardrailList, direction)] *)
Definition mapGuardrails (guardrailList : list Guardrail)
    (direction : Direction) : list AgentGuardrailState :=
  imap (guardrailState direction) guardrailList.

End FullState.

(** ** Delegation depth ([calculateDelegationDepth]) *)
Module Delegation.
Import Js.

Section Registry.
(** [AgentRegistry.getInstance().getParentAgentIds(id)]: the registry is
    the caller's. *)
Variable getParentAgentIds : string → list string.

(** The [while (currentParentId)] loop, [fuel] turns of it at most;
    [None] when the turns are used up before the loop ends. *)
Fixpoint walk (fuel : nat) (visited : gset string)
    (currentParentId : string) (depth : nat) : option nat :=
  match fuel with
  | 0 => None
  | S fuel' =>
      if strTruthy currentParentId then
        if decide (currentParentId ∈ visited) then Some depth
        else
          match getParentAgentIds currentParentId with
          | parent :: _ =>
              walk fuel' ({[ currentParentId ]} ∪ visited) parent (S depth)
          | [] => Some depth
          end
      else Some depth
  end.

(** [calculateDelegationDepth(parentAgentId)] *)
Definition calculateDelegationDepth (fuel : nat)
    (parentAgentId : option string) : option nat :=
  if optTruthy parentAgentId
  then walk fuel ∅ (default "" parentAgentId) 1
  else Some 0.

End Registry.
End Delegation.

(** ** The query for semantic search ([extractUserQuery]) *)
Module UserQuery.
Import Js.
Import ErrorUtils (Result, Ok, Thrown, resultBind).

(** [v.key]; [Thrown] for the [TypeError] of reading a property of
    [null] or [undefined]. *)
Definition prop (v : JsValue) (key : string) : Result JsValue :=
  match v with
  | JUndefined | JNull => Thrown "TypeError"
  | JObj fields => Ok (default JUndefined (assoc key fields))
  | _ => Ok JUndefined
  end.

(** [msg.role === "user"] *)
Definition isUserMessage (msg : JsValue) : Result bool :=
  resultBind (prop msg "role")
    (λ role, Ok match role with
                | JStr r => String.eqb r "user"
                | _ => false
                end).

(** [input.filter((msg) => msg.role === "user")] *)
Fixpoint userMessages (input : list JsValue) : Result (list JsValue) :=
  match input with
  | [] => Ok []
  | msg :: rest =>
      resultBind (isUserMessage msg) (λ keep,
        resultBind (userMessages rest) (λ kept,
          Ok (if keep then msg :: kept else kept)))
  end.

(** [part.type === "text" && typeof part.text === "string"], giving the
    text when it holds. *)
Definition textOf (part : JsValue) : Result (option string) :=
  resultBind (prop part "type") (λ ty,
    match ty with
    | JStr t =>
        if String.eqb t "text" then
          resultBind (prop part "text")
            (λ v, Ok match v with JStr s => Some s | _ => None end)
        else Ok None
    | _ => Ok None
    end).

(** [.filter(isText).map((part) => part.text.trim()).filter(Boolean)] *)
Fixpoint textParts (parts : list JsValue) : Result (list string) :=
  match parts with
  | [] => Ok []
  | part :: rest =>
      resultBind (textOf part) (λ t,
        resultBind (textParts rest) (λ ts,
          Ok match t with
             | Some s => if strTruthy (trim s) then trim s :: ts else ts
             | None => ts
             end))
  end.

(** [if (textParts.length > 0) return textParts.join(" ")] and
    [undefined] otherwise. *)
Definition joined (parts : list string) : option string :=
  match parts with
  | [] => None
  | _ => Some (String.concat " " parts)
  end.

(** What is done with [lastUserMessage]. *)
Definition queryOf (lastUserMessage : JsValue) : Result (option string) :=
  match lastUserMessage with
  | JObj fields =>
      match assoc "parts" fields with
      | Some (JArr parts) =>
          resultBind (textParts parts) (λ ts, Ok (joined ts))
      | _ =>
          match assoc "content" fields with
          | Some (JStr content) =>
              Ok (if 0 <? String.length (trim content)
                  then Some (trim content) else None)
          | Some (JArr parts) =>
              resultBind (textParts parts) (λ ts, Ok (joined ts))
          | _ => Ok None
          end
      end
  | _ => Ok None
  end.

(** [extractUserQuery(input)]; [Ok None] is [undefined]. *)
Definition extractUserQuery (input : JsValue) : Result (option string) :=
  match input with
  | JStr s => Ok (Some s)
  | JArr [] => Ok None
  | JArr messages =>
      resultBind (userMessages messages) (λ users,
        match last users with
        | Some lastUserMessage => queryOf lastUserMessage
        | None => Ok None
        end)
  | _ => Ok None
  end.

End UserQuery.

(** ** Model-call spans ([createLLMSpanFinalizer], [recordLLMUsage]) *)
Module Telemetry.
Import Js.

Inductive SpanStatusCode := UNSET | OK | ERROR.

Section Numbers.
(** [Num]: the numbers of JavaScript, IEEE doubles with their infinities
    and [NaN]; [isFinite]: [Number.isFinite]; [toNumber]: [Number(s)] for a
    string; [zero]: [0]; [add]: [+] on two numbers, with its rounding. *)
Context {Num : Type}.
Variable isFinite : Num → bool.
Variable toNumber : string → Num.
Variable zero : Num.
Variable add : Num → Num → Num.

(** A property of a usage object, as far as [coerce] tells values apart. *)
Inductive UsageField : Type :=
  | FAbsent
  | FNumber (n : Num)
  | FText (s : string)
  | FOther.

Definition Usage : Type := list (string * UsageField).

Definition field (usage : Usage) (key : string) : UsageField :=
  default FAbsent (assoc key usage).

Inductive AttributeValue : Type :=
  | ANumber (n : Num)
  | AString (s : string)
  | ABool (b : bool).

(** A span: its attributes, the status last set and how often [end()]
    was called on it. *)
Record Span := {
  attributes : gmap string AttributeValue;
  status : option (SpanStatusCode * option string);
  endCalls : nat }.

Definition setAttribute (key : string) (v : AttributeValue) (span : Span)
    : Span :=
  {| attributes := <[key := v]> (attributes span);
     status := status span;
     endCalls := endCalls span |}.

Definition setStatus (code : SpanStatusCode) (message : option string)
    (span : Span) : Span :=
  {| attributes := attributes span;
     status := Some (code, message);
     endCalls := endCalls span |}.

Definition endSpan (span : Span) : Span :=
  {| attributes := attributes span;
     status := status span;
     endCalls := S (endCalls span) |}.

(** [coerce(value)] *)
Definition coerce (value : UsageField) : option Num :=
  match value with
  | FNumber n => if isFinite n then Some n else None
  | FText s =>
      let parsed := toNumber s in
      if isFinite parsed then Some parsed else None
  | _ => None
  end.

(** [a ?? b ?? ...] over coerced fields. *)
Fixpoint firstCoerced (usage : Usage) (keys : list string) : option Num :=
  match keys with
  | [] => None
  | key :: rest =>
      match coerce (field usage key) with
      | Some n => Some n
      | None => firstCoerced usage rest
      end
  end.

Definition promptTokens (usage : Usage) : option Num :=
  firstCoerced usage ["promptTokens"; "prompt"; "inputTokens"; "input_tokens"].

Definition completionTokens (usage : Usage) : option Num :=
  firstCoerced usage
    ["completionTokens"; "completion"; "outputTokens"; "output_tokens"].

Definition totalTokens (usage : Usage) : Num :=
  match firstCoerced usage ["totalTokens"; "total_tokens"] with
  | Some n => n
  | None =>
      add (default zero (promptTokens usage))
        (default zero (completionTokens usage))
  end.

Definition setIfDefined (key : string) (v : option Num) (span : Span)
    : Span :=
  match v with
  | Some n => setAttribute key (ANumber n) span
  | None => span
  end.

(** [recordLLMUsage(span, usage)]; [None] is a usage that is [null] or
    [undefined]. *)
Definition recordLLMUsage (span : Span) (usage : option Usage) : Span :=
  match usage with
  | None => span
  | Some u =>
      setIfDefined "llm.usage.total_tokens" (Some (totalTokens u))
        (setIfDefined "llm.usage.completion_tokens" (completionTokens u)
           (setIfDefined "llm.usage.prompt_tokens" (promptTokens u) span))
  end.

(** The [details] argument of the finalizer. *)
Record Details := {
  d_message : option string;
  d_usage : option Usage;
  d_finishReason : option string }.

(** The closure [createLLMSpanFinalizer(span)] returns: the span and its
    [ended] flag. *)
Record Finalizer := {
  span : Span;
  ended : bool }.

Definition createLLMSpanFinalizer (s : Span) : Finalizer :=
  {| span := s; ended := false |}.

(** One call [finalize(status, details)]. *)
Definition finalize (code : SpanStatusCode) (details : option Details)
    (f : Finalizer) : Finalizer :=
  if ended f then f
  else
    let s1 := recordLLMUsage (span f) (details ≫= d_usage) in
    let s2 :=
      match details ≫= d_finishReason with
      | Some reason =>
          if strTruthy reason
          then setAttribute "llm.finish_reason" (AString reason) s1
          else s1
      | None => s1
      end in
    let s3 :=
      if optTruthy (details ≫= d_message)
      then setStatus code (details ≫= d_message) s2
      else setStatus code None s2 in
    {| span := endSpan s3; ended := true |}.

(** A sequence of calls of the same finalizer. *)
Definition finalizeAll (calls : list (SpanStatusCode * option Details))
    (f : Finalizer) : Finalizer :=
  foldl (λ f call, finalize call.1 call.2 f) f calls.

End Numbers.
End Telemetry.

(** ** The returned result ([cloneGenerateTextResultWithContext]) *)
Module ResultClone.
Import Js.

(** A property key: a string or a symbol. *)
Abbreviation PropertyKey := (string + nat)%type.

(** A property descriptor: a data property or an accessor (named by the
    getter it carries). *)
Inductive Descriptor : Type :=
  | DataDescriptor (value : JsValue)
      (writable enumerable configurable : bool)
  | AccessorDescriptor (getter : nat) (enumerable configurable : bool).

(** An object: its prototype and its own properties. *)
Record Object := {
  prototype : nat;
  own : gmap PropertyKey Descriptor }.

Definition isStringKey (k : PropertyKey) : bool :=
  match k with inl _ => true | inr _ => false end.

(** [Object.entries(Object.getOwnPropertyDescriptors(result))]: one entry
    for each own property of [result] whose key is a string. *)
Definition descriptorEntries (result : Object)
    : gmap PropertyKey Descriptor :=
  filter (λ kd, isStringKey kd.1 = true) (own result).

Definition overridden (overrides : gmap string JsValue) (k : PropertyKey)
    : bool :=
  match k with
  | inl name => bool_decide (is_Some (overrides !! name))
  | inr _ => false
  end.

(** [cloneGenerateTextResultWithContext(result, overrides)]; [overrides]
    is an object literal, given by its properties. *)
Definition cloneGenerateTextResultWithContext (result : Object)
    (overrides : gmap string JsValue) : Object :=
  let baseDescriptors :=
    filter (λ kd, overridden overrides kd.1 = false)
      (descriptorEntries result) in
  {| prototype := prototype result;
     own :=
       map_fold
         (λ key value clone,
            <[inl key := DataDescriptor value true true true]> clone)
         baseDescriptors overrides |}.

End ResultClone.

(** ** System instructions ([enrichInstructions]) *)
Module Instructions.
Import Js StepRecorder.

Definition newline : string := String (ascii_of_nat 10) EmptyString.

(** A toolkit, as far as the instructions read it. *)
Record Toolkit := {
  tk_addInstructions : bool;
  tk_instructions : option string }.

(** The loop of [addToolkitInstructions]: [toolInstructions] after the
    toolkits were gone through. *)
Fixpoint toolkitInstructions (toolInstructions : string)
    (toolkits : list Toolkit) : string :=
  match toolkits with
  | [] => toolInstructions
  | toolkit :: rest =>
      toolkitInstructions
        (if tk_addInstructions toolkit
            && optTruthy (tk_instructions toolkit)
         then toolInstructions +:+ newline +:+ newline +:+
                default "" (tk_instructions toolkit)
         else toolInstructions)
        rest
  end.

(** [addToolkitInstructions(baseInstructions)] *)
Definition addToolkitInstructions (toolkits : list Toolkit)
    (baseInstructions : string) : string :=
  baseInstructions +:+ toolkitInstructions "" toolkits.

(** [prepareAgentsMemory(oc)], for an agent with [subAgents] sub-agents
    and the conversation steps of the operation. *)
Definition prepareAgentsMemory (subAgents : nat)
    (conversationSteps : option (list StepWithContent)) : string :=
  if subAgents =? 0 then ""
  else
    let steps := default [] conversationSteps in
    let formattedMemory :=
      String.concat (newline +:+ newline)
        (map (λ step, swc_role step +:+ ": " +:+ swc_content step)
           (List.filter
              (λ step, negb (String.eqb (swc_role step) "system")
                       && String.eqb (swc_role step) "assistant")
              steps)) in
    if strTruthy formattedMemory then formattedMemory
    else "No previous agent interactions found.".

Section Agent.
(** The agent's settings; [generateSupervisorSystemMessage] is the
    sub-agent manager's, with the supervisor configuration fixed. *)
Variable toolkits : list Toolkit.
Variable markdown : bool.
Variable subAgents : nat.
Variable generateSupervisorSystemMessage : string → string → string.

(** [enrichInstructions(baseContent, retrieverContext,
    workingMemoryContext, oc)]; [None] is [null]. *)
Definition enrichInstructions (baseContent : string)
    (retrieverContext workingMemoryContext : option string)
    (conversationSteps : option (list StepWithContent)) : string :=
  let content := addToolkitInstructions toolkits baseContent in
  let content :=
    if markdown
    then content +:+ newline +:+ newline +:+
           "Use markdown to format your answers."
    else content in
  let content :=
    if optTruthy retrieverContext
    then content +:+ newline +:+ newline +:+ "Relevant Context:" +:+
           newline +:+ default "" retrieverContext
    else content in
  let content :=
    if optTruthy workingMemoryContext
    then content +:+ default "" workingMemoryContext
    else content in
  if 0 <? subAgents
  then generateSupervisorSystemMessage content
         (prepareAgentsMemory subAgents conversationSteps)
  else content.

End Agent.
End Instructions.

(** ** Cancellation ([setupAbortSignalListener], [handleError]) *)
Module Cancellation.
Import Js Effects Hooks.

(** The operation context, as far as the abort listener and
    [handleError] read and write it, and the state of user code. *)
Record Operation (U : Type) := {
  isActive : bool;
  cancellationError : option JsValue;
  conversationId : option string;
  user : U }.
Arguments isActive {U} _.
Arguments cancellationError {U} _.
Arguments conversationId {U} _.
Arguments user {U} _.

Inductive HookArgs : Type :=
  | EndArgs (conversationId : string) (output : option JsValue)
      (error : option JsValue)
  | ErrorArgs (error : JsValue).

Section Errors.
Context {U : Type}.
(** The helpers of [./errors], which is not among the sources: the two
    tests and the two constructors are the caller's. *)
Variable isBailError : JsValue → bool.
Variable isClientHTTPError : JsValue → bool.
Variable createAbortError : string → JsValue.
Variable createVoltAgentError : JsValue → JsValue.

Definition Eff (A : Type) : Type := M (Operation U) JsValue A.
Definition OperationHooks : Type :=
  AgentHooks (Operation U) JsValue HookArgs unit.

Definition deactivate (oc : Operation U) : Operation U :=
  {| isActive := false;
     cancellationError := cancellationError oc;
     conversationId := conversationId oc;
     user := user oc |}.

Definition setCancellationError (e : JsValue) (oc : Operation U)
    : Operation U :=
  {| isActive := isActive oc;
     cancellationError := Some e;
     conversationId := conversationId oc;
     user := user oc |}.

(** [match(signal.reason).with(P.string, ...).with({ message: P.string },
    ...).otherwise(() => "Operation cancelled")] *)
Definition abortReasonText (reason : JsValue) : string :=
  match reason with
  | JStr s => s
  | JObj fields =>
      match assoc "message" fields with
      | Some (JStr message) => message
      | _ => "Operation cancelled"
      end
  | _ => "Operation cancelled"
  end.

(** [oc.conversationId || ""] *)
Definition conversationOf (oc : Operation U) : string :=
  match conversationId oc with
  | Some c => c
  | None => ""
  end.

(** The listener [setupAbortSignalListener] registers, run when the signal
    fires with [reason].  The trace span is left out.  The hooks are the
    ones of [this.getMergedHooks()], called without options. *)
Definition abortListener (agentHooks : OperationHooks) (reason : JsValue)
    : Eff unit :=
  (modify deactivate ;;
   if isBailError reason then ret tt
   else
     modify (setCancellationError
               (if isClientHTTPError reason then reason
                else createAbortError (abortReasonText reason))) ;;
     let* oc := get in
     callHook (onEnd (getMergedHooks agentHooks None))
       (EndArgs (conversationOf oc) None (cancellationError oc)) ;;
     ret tt)%eff.

(** [!oc.isActive && oc.cancellationError] *)
Definition cancelled (oc : Operation U) : option JsValue :=
  if isActive oc then None
  else
    match cancellationError oc with
    | Some e => if truthy e then Some e else None
    | None => None
    end.

(** [handleError(error, oc, options)].  Trace span and log are left
    out. *)
Definition handleError {A} (agentHooks : OperationHooks)
    (options : option (HookOptions (Operation U) JsValue HookArgs unit))
    (error : JsValue) : Eff A :=
  if isBailError error then throw error
  else
    (let* oc := get in
     match cancelled oc with
     | Some cancellation => throw cancellation
     | None =>
         let voltagentError := createVoltAgentError error in
         let hooks := getMergedHooks agentHooks options in
         callHook (onEnd hooks)
           (EndArgs (conversationOf oc) None (Some voltagentError)) ;;
         callHook (onError hooks) (ErrorArgs voltagentError) ;;
         throw error
     end)%eff.

End Errors.
End Cancellation.

(** ** Chat prompts ([getSystemMessage], instructions of type [chat]) *)
Module ChatPrompt.
Import Js.
Import Instructions (newline).

(** A message of a chat prompt: its role, its content and the rest of
    its properties. *)
Record Message := {
  role : string;
  content : JsValue;
  rest : list (string * JsValue) }.

Definition isSystem (m : Message) : bool := String.eqb (role m) "system".

(** [[retrieverContext ? `Relevant Context:\n${retrieverContext}` : null,
    workingMemoryContext].filter(Boolean).join("\n\n")] *)
Definition additionalContext (retrieverContext workingMemoryContext
    : option string) : string :=
  String.concat (newline +:+ newline)
    (omap (λ entry, match entry with
                    | Some s => if strTruthy s then Some s else None
                    | None => None
                    end)
       [ if optTruthy retrieverContext
         then Some ("Relevant Context:" +:+ newline +:+
                    default "" retrieverContext)
         else None;
         workingMemoryContext ]).

(** [messages.map((m, i) => ({ message: m, index: i }))
      .filter(({ message }) => message.role === "system").pop()?.index] *)
Definition lastSystemIndex (messages : list Message) : option nat :=
  snd <$> last (List.filter (λ entry, isSystem entry.1)
                  (imap (λ index message, (message, index)) messages)).

(** The messages returned for instructions of type [chat]. *)
Definition chatMessages (promptMessages : list Message)
    (retrieverContext workingMemoryContext : option string)
    : list Message :=
  let messages := promptMessages in
  let additional :=
    additionalContext retrieverContext workingMemoryContext in
  if strTruthy additional then
    match lastSystemIndex messages with
    | Some lastSystemIndex =>
        match messages !! lastSystemIndex with
        | Some existingMessage =>
            <[lastSystemIndex :=
                {| role := role existingMessage;
                   content :=
                     JStr (Bail.jsString (content existingMessage)
                           +:+ newline +:+ newline +:+ additional);
                   rest := rest existingMessage |}]> messages
        | None => messages
        end
    | None =>
        messages ++ [ {| role := "system"; content := JStr additional;
                         rest := [] |} ]
    end
  else messages.

End ChatPrompt.

(** ** Retriever context ([getRetrieverContext]) *)
Module Retrieval.
Import Js Effects.

Section Retriever.
(** [S]: the state the retriever can reach; [E]: what it can throw. *)
Context {S E : Type}.

(** [this.retriever.retrieve(input, options)], when the agent has a
    retriever ([None] as a result is [null] or [undefined]), and
    [convertToModelMessages] of the model-invocation service. *)
Variable retriever : option (JsValue → M S E (option string)).
Variable convertToModelMessages : JsValue → M S E JsValue.

(** [String.prototype.trim], which strips the white space and the line
    terminators of all of Unicode. *)
Variable trim : string → string.

(** The text the [catch] block puts into its log entry:
    [error instanceof Error ? error.message : String(error)].  For a thrown
    object that is not an [Error] the conversion calls the object's own
    [toString]: code of whoever threw it, which can throw in turn, and an
    object without a usable [toString] makes the conversion throw a
    [TypeError]. *)
Variable errorText : E → M S E string.

(** [(input as any[])[0]?.content !== undefined] *)
Definition firstHasContent (items : list JsValue) : bool :=
  match items with
  | JObj fields :: _ =>
      match assoc "content" fields with
      | Some JUndefined | None => false
      | Some _ => true
      end
  | _ => false
  end.

(** The input handed to the retriever. *)
Definition retrieverInput (input : JsValue) : M S E JsValue :=
  match input with
  | JStr _ => ret input
  | JArr items =>
      if firstHasContent items then ret input
      else convertToModelMessages input
  | _ => convertToModelMessages input
  end.

(** The [try] block. *)
Definition retrieveTry (retrieve : JsValue → M S E (option string))
    (input : JsValue) : M S E (option string) :=
  (let* prepared := retrieverInput input in
   let* retrievedContent := retrieve prepared in
   match retrievedContent with
   | Some content =>
       if strTruthy (trim content) then ret (Some content)
       else ret None
   | None => ret None
   end)%eff.

(** The [catch] block: the log entry is made from the thrown value, then
    [null] is returned. *)
Definition retrieveCatch (error : E) : M S E (option string) :=
  (errorText error ;; ret None)%eff.

(** [getRetrieverContext(input, oc)]; [None] is [null].  The retriever is
    a [BaseRetriever], with its [tool]; the loggers and the trace span are
    left out. *)
Definition getRetrieverContext (input : JsValue) : M S E (option string) :=
  match retriever with
  | None => ret None
  | Some retrieve => tryCatch (retrieveTry retrieve input) retrieveCatch
  end.

End Retriever.
End Retrieval.

(** ** Attributes of a model-call span ([buildLLMSpanAttributes]) *)
Module SpanAttributes.
Import Js.

(** [modelName.includes("/")] and [modelName.split("/")[0]] *)
Fixpoint hasSlash (s : string) : bool :=
  match s with
  | EmptyString => false
  | String a s' => Ascii.eqb a "/" || hasSlash s'
  end.

Fixpoint beforeSlash (s : string) : string :=
  match s with
  | EmptyString => EmptyString
  | String a s' =>
      if Ascii.eqb a "/" then EmptyString else String a (beforeSlash s')
  end.

Section Numbers.
(** [Num]: the finite numbers of JavaScript; [toNumber]: [Number(s)] for a
    string, when the result is finite; [stringify]: [safeStringify]. *)
Context {Num : Type}.
Variable toNumber : string → option Num.
Variable stringify : JsValue → string.

(** The value of a call option, as far as [maybeNumber] and [??] tell
    values apart; [ONumber None] is a number that is not finite. *)
Inductive OptionValue : Type :=
  | OUndefined
  | ONull
  | ONumber (n : option Num)
  | OText (s : string)
  | OOther.

Inductive Attribute : Type :=
  | ANum (n : Num)
  | ACount (n : nat)
  | AStr (s : string)
  | AFlag (b : bool).

Record CallOptions := {
  co_temperature : OptionValue;
  co_temp : OptionValue;
  co_maxOutputTokens : OptionValue;
  co_topP : OptionValue;
  co_stop : option JsValue }.

Record Params := {
  operation : string;
  modelName : string;
  isStreaming : bool;
  messages : option (list (string * JsValue));
  tools : option (list string);
  providerOptions : option JsValue;
  callOptions : option CallOptions }.

(** [maybeNumber(value)] *)
Definition maybeNumber (value : OptionValue) : option Num :=
  match value with
  | ONumber n => n
  | OText s => toNumber s
  | _ => None
  end.

(** [a ?? b] *)
Definition orNullish (a b : OptionValue) : OptionValue :=
  match a with
  | OUndefined | ONull => b
  | _ => a
  end.

(** [if (v !== undefined) attrs[key] = v] *)
Definition setIfDefined (key : string) (v : option Attribute)
    (attrs : gmap string Attribute) : gmap string Attribute :=
  match v with
  | Some a => <[key := a]> attrs
  | None => attrs
  end.

(** [params.callOptions ?? {}] *)
Definition optionsOf (params : Params) : CallOptions :=
  default {| co_temperature := OUndefined; co_temp := OUndefined;
             co_maxOutputTokens := OUndefined; co_topP := OUndefined;
             co_stop := None |}
    (callOptions params).

(** [trimmedMessages.map((msg) => ({ role: msg.role, content:
    msg.content }))] for [trimmedMessages = params.messages.slice(-10)] *)
Definition trimmedMessages (msgs : list (string * JsValue))
    : list (string * JsValue) :=
  drop (length msgs - 10) msgs.

Definition messageEntry (msg : string * JsValue) : JsValue :=
  JObj [("role", JStr msg.1); ("content", msg.2)].

(** [buildLLMSpanAttributes(params)] *)
Definition buildLLMSpanAttributes (params : Params)
    : gmap string Attribute :=
  let attrs : gmap string Attribute :=
    <["llm.stream" := AFlag (isStreaming params)]>
      (<["llm.model" := AStr (modelName params)]>
         (<["llm.operation" := AStr (operation params)]> ∅)) in
  let provider :=
    if hasSlash (modelName params)
    then Some (beforeSlash (modelName params)) else None in
  let attrs :=
    setIfDefined "llm.provider"
      (match provider with
       | Some p => if strTruthy p then Some (AStr p) else None
       | None => None
       end) attrs in
  let co := optionsOf params in
  let attrs :=
    setIfDefined "llm.temperature"
      (ANum <$> maybeNumber
                  (orNullish (co_temperature co)
                     (orNullish (co_temp co) OUndefined))) attrs in
  let attrs :=
    setIfDefined "llm.max_output_tokens"
      (ANum <$> maybeNumber (co_maxOutputTokens co)) attrs in
  let attrs :=
    setIfDefined "llm.top_p" (ANum <$> maybeNumber (co_topP co)) attrs in
  let attrs :=
    setIfDefined "llm.stop_condition"
      ((λ stop, AStr (stringify stop)) <$> co_stop co) attrs in
  let attrs :=
    match messages params with
    | Some (m :: ms) =>
        <["llm.messages" :=
            AStr (stringify
                    (JArr (messageEntry <$> trimmedMessages (m :: ms))))]>
          (<["llm.messages.count" := ACount (length (m :: ms))]> attrs)
    | _ => attrs
    end in
  let attrs :=
    match tools params with
    | Some toolNames =>
        let attrs :=
          <["llm.tools.count" := ACount (length toolNames)]> attrs in
        match toolNames with
        | _ :: _ => <["llm.tools" := AStr (String.concat "," toolNames)]> attrs
        | [] => attrs
        end
    | None => attrs
    end in
  setIfDefined "llm.provider_options"
    ((λ po, AStr (stringify po)) <$> providerOptions params) attrs.

End Numbers.
Arguments OptionValue : clear implicits.
Arguments Attribute : clear implicits.
Arguments CallOptions : clear implicits.
Arguments Params : clear implicits.

End SpanAttributes.

(* ===================================================================== *)
(** * Part II: properties                                                  *)
(* ===================================================================== *)

(** ** Step recorder *)
Module StepRecorderProps.
Import Js StepRecorder.

Section Props.
Context `{Platform}.
Variable self : Agent.

Abbreviation idx := rec_stepIndex.
Abbreviation wt := withoutTimestamp.

(** *** What one pass appends *)

(** [grows i p p']: from [p] to [p'] the pass appended records, each of
    them with step index [i]. *)
Definition grows (i : nat) (p p' : Pass) : Prop :=
  ∃ rs, p_records p' = p_records p ++ rs ∧ Forall (λ r, idx r = i) rs.

Lemma grows_refl i p : grows i p p.
Proof. exists []. by rewrite app_nil_r. Qed.

Lemma grows_trans i p1 p2 p3 : grows i p1 p2 → grows i p2 p3 → grows i p1 p3.
Proof.
  intros (r1 & E1 & F1) (r2 & E2 & F2). exists (r1 ++ r2). split.
  - by rewrite E2, E1, app_assoc.
  - by apply Forall_app.
Qed.

Lemma grows_pushRecord i r p q :
  p_records q = p_records p → idx r = i → grows i p (pushRecord r q).
Proof.
  intros Eq E. exists [r]. split; [simpl; by rewrite Eq | by constructor].
Qed.

Lemma grows_same_records i p p' : p_records p' = p_records p → grows i p p'.
Proof. intros E. exists []. by rewrite app_nil_r. Qed.

Lemma randomUUID_records p : p_records (randomUUID p).2 = p_records p.
Proof. done. Qed.

Lemma idOrFresh_records g p : p_records (idOrFresh g p).2 = p_records p.
Proof. unfold idOrFresh. by destruct (strTruthy g). Qed.

Lemma grows_recordText oc u i t p : grows i p (recordText self oc u i t p).
Proof.
  unfold recordText. simpl. destruct (persistTarget oc) as [uc|].
  - by apply grows_pushRecord.
  - by apply grows_same_records.
Qed.

Lemma grows_recordToolCall oc u i p c :
  grows i p (recordToolCall self oc u i p c).
Proof.
  unfold recordToolCall.
  destruct (idOrFresh (tc_toolCallId c) p) as [sid p1] eqn:E1.
  assert (R1 : p_records p1 = p_records p).
  { by rewrite <- (idOrFresh_records (tc_toolCallId c) p), E1. }
  destruct (persistTarget oc) as [uc|].
  - match goal with |- context [idOrFresh ?g ?q] =>
      destruct (idOrFresh g q) as [rid p2] eqn:E2;
      pose proof (idOrFresh_records g q) as R2; rewrite E2 in R2 end.
    simpl in R2. apply grows_pushRecord; [by rewrite R2 | done].
  - by apply grows_same_records.
Qed.

Lemma grows_recordToolResult oc u i p r :
  grows i p (recordToolResult self oc u i p r).
Proof.
  unfold recordToolResult.
  destruct (idOrFresh (tr_toolCallId r) p) as [sid p1] eqn:E1.
  assert (R1 : p_records p1 = p_records p).
  { by rewrite <- (idOrFresh_records (tr_toolCallId r) p), E1. }
  destruct (persistTarget oc) as [uc|].
  - match goal with |- context [idOrFresh ?g ?q] =>
      destruct (idOrFresh g q) as [rid p2] eqn:E2;
      pose proof (idOrFresh_records g q) as R2; rewrite E2 in R2 end.
    simpl in R2. apply grows_pushRecord; [by rewrite R2 | done].
  - by apply grows_same_records.
Qed.

Lemma grows_foldl {A} (f : Pass → A → Pass) i (l : list A) :
  (∀ p a, grows i p (f p a)) → ∀ p, grows i p (foldl f p l).
Proof.
  intros Hf. induction l as [|a l IH]; intros p; simpl.
  - apply grows_refl.
  - eapply grows_trans; [apply Hf | apply IH].
Qed.

Lemma grows_recordStep oc i step p : grows i p (recordStep self oc i step p).
Proof.
  unfold recordStep.
  eapply grows_trans; [| by apply grows_same_records].
  eapply grows_trans; [| apply grows_foldl; intros; apply grows_recordToolResult].
  eapply grows_trans; [| apply grows_foldl; intros; apply grows_recordToolCall].
  destruct (trim <$> step_text step) as [t|]; [| apply grows_refl].
  destruct (strTruthy t); [apply grows_recordText | apply grows_refl].
Qed.

(** The records of a whole [forEach]: appended in non-decreasing order of
    step index, all indices within the range of the steps walked. *)
Lemma recordSteps_sorted oc steps : ∀ i p,
  ∃ rs, p_records (recordSteps self oc i steps p) = p_records p ++ rs
        ∧ StronglySorted le (idx <$> rs)
        ∧ Forall (λ r, i ≤ idx r < i + length steps) rs.
Proof.
  induction steps as [|s steps IH]; intros i p; simpl.
  - exists []. rewrite app_nil_r. repeat split; constructor.
  - destruct (grows_recordStep oc i s p) as (r1 & E1 & F1).
    destruct (IH (S i) (recordStep self oc i s p)) as (r2 & E2 & S2 & F2).
    exists (r1 ++ r2). split; [by rewrite E2, E1, app_assoc |]. split.
    + rewrite fmap_app. apply StronglySorted_app_2; [| | done].
      * intros a b Ha Hb.
        apply list_elem_of_fmap in Ha as (ra & -> & Ha).
        apply list_elem_of_fmap in Hb as (rb & -> & Hb).
        rewrite Forall_forall in F1, F2.
        specialize (F1 _ Ha). specialize (F2 _ Hb). lia.
      * clear -F1. induction F1 as [|r l E F1 IHl]; simpl; constructor; [done|].
        rewrite Forall_fmap. eapply Forall_impl; [exact F1 |].
        simpl. intros; lia.
    + apply Forall_app. split.
      * eapply Forall_impl; [exact F1 |]. simpl. intros; lia.
      * eapply Forall_impl; [exact F2 |]. simpl. intros; lia.
Qed.

(** *** One recording pass *)

Definition countOf (oc : RecorderContext) : nat :=
  default 0 (sc_persistedStepCount oc).

(** [oc.conversationSteps] after [if (!oc.conversationSteps) ... = []]. *)
Definition normalized (oc : RecorderContext) : RecorderContext :=
  match oc_conversationSteps oc with
  | Some _ => oc
  | None => setConversationSteps (Some []) oc
  end.

Lemma persistTarget_normalized oc :
  persistTarget (normalized oc) = persistTarget oc.
Proof. unfold normalized. by destruct (oc_conversationSteps oc). Qed.

Lemma countOf_normalized oc : countOf (normalized oc) = countOf oc.
Proof. unfold normalized. by destruct (oc_conversationSteps oc). Qed.

Lemma concat_saved (b : list (list ConversationStepRecord)) rs
    (t : option (string * string)) :
  (t = None → rs = []) →
  concat (match rs, t with
          | _ :: _, Some _ => b ++ [rs]
          | _, _ => b
          end) = concat b ++ rs.
Proof.
  intros Ht. destruct rs as [|r rs].
  - by rewrite app_nil_r.
  - destruct t; [| by specialize (Ht eq_refl)].
    rewrite concat_app. simpl. by rewrite app_nil_r.
Qed.

(** Without a user and a conversation nothing is collected for storage. *)
Lemma no_target_recordText oc u i t p :
  persistTarget oc = None →
  p_records (recordText self oc u i t p) = p_records p.
Proof. intros E. unfold recordText. simpl. by rewrite E. Qed.

Lemma no_target_recordToolCall oc u i p c :
  persistTarget oc = None →
  p_records (recordToolCall self oc u i p c) = p_records p.
Proof.
  intros E. unfold recordToolCall.
  destruct (idOrFresh (tc_toolCallId c) p) as [sid p1] eqn:E1.
  rewrite E. simpl. by rewrite <- (idOrFresh_records (tc_toolCallId c) p), E1.
Qed.

Lemma no_target_recordToolResult oc u i p r :
  persistTarget oc = None →
  p_records (recordToolResult self oc u i p r) = p_records p.
Proof.
  intros E. unfold recordToolResult.
  destruct (idOrFresh (tr_toolCallId r) p) as [sid p1] eqn:E1.
  rewrite E. simpl. by rewrite <- (idOrFresh_records (tr_toolCallId r) p), E1.
Qed.

Lemma no_target_foldl {A} (f : Pass → A → Pass) (l : list A) :
  (∀ p a, p_records (f p a) = p_records p) →
  ∀ p, p_records (foldl f p l) = p_records p.
Proof.
  intros Hf. induction l as [|a l IH]; intros p; simpl; [done |].
  by rewrite IH, Hf.
Qed.

Lemma no_target_recordSteps oc steps : ∀ i p,
  persistTarget oc = None →
  p_records (recordSteps self oc i steps p) = p_records p.
Proof.
  induction steps as [|s steps IH]; intros i p E; simpl; [done |].
  rewrite IH by done. unfold recordStep. simpl.
  rewrite no_target_foldl by (intros; by apply no_target_recordToolResult).
  rewrite no_target_foldl by (intros; by apply no_target_recordToolCall).
  destruct (trim <$> step_text s) as [t|]; [| done].
  destruct (strTruthy t); [by apply no_target_recordText | done].
Qed.

(** A pass over a stored array appends a sorted run of records whose
    indices lie between the old and the new persisted count. *)
Lemma recordStored_emits stored oc w :
  ∃ rs,
    persisted (recordStored self stored oc w).2 = persisted w ++ rs
    ∧ StronglySorted le (idx <$> rs)
    ∧ Forall (λ r, countOf oc ≤ idx r
                   < countOf (recordStored self stored oc w).1) rs
    ∧ countOf oc ≤ countOf (recordStored self stored oc w).1.
Proof.
  unfold recordStored. fold (normalized oc). fold (countOf (normalized oc)).
  rewrite countOf_normalized.
  destruct (drop (countOf oc) stored) as [|s0 rest] eqn:Ed.
  - exists []. simpl. rewrite app_nil_r, countOf_normalized.
    repeat split; by constructor.
  - set (oc1 := setPersistedStepCount _ _).
    set (p0 := {| p_steps := _ |}).
    destruct (recordSteps_sorted oc1 (s0 :: rest) (countOf oc) p0)
      as (rs & E & Hs & Hf).
    exists rs. cbn [snd fst]. unfold persisted at 1. cbn [savedBatches].
    rewrite concat_saved.
    + rewrite E. simpl. split; [done |]. split; [done |].
      assert (Hc : countOf (setConversationSteps
                    (Some (p_steps (recordSteps self oc1 (S (countOf oc)) rest
                                     (recordStep self oc1 (countOf oc) s0 p0))))
                    oc1) = countOf oc + length (s0 :: rest)) by done.
      rewrite Hc. split; [done | simpl; lia].
    + intros Hn. apply (no_target_recordSteps _ (s0 :: rest) (countOf oc) p0).
      exact Hn.
Qed.

Lemma recordStepResults_emits steps oc w :
  ∃ rs,
    persisted (recordStepResults self steps oc w).2 = persisted w ++ rs
    ∧ StronglySorted le (idx <$> rs)
    ∧ Forall (λ r, countOf oc ≤ idx r
                   < countOf (recordStepResults self steps oc w).1) rs
    ∧ countOf oc ≤ countOf (recordStepResults self steps oc w).1.
Proof.
  assert (Hnone : ∃ rs,
    persisted w = persisted w ++ rs ∧ StronglySorted le (idx <$> rs)
    ∧ Forall (λ r, countOf oc ≤ idx r < countOf oc) rs
    ∧ countOf oc ≤ countOf oc).
  { exists []. rewrite app_nil_r. repeat split; by constructor. }
  unfold recordStepResults.
  destruct steps as [[|s l]|]; simpl.
  - destruct (sc_conversationSteps oc) as [[|s l]|]; simpl; try done.
    apply recordStored_emits.
  - apply recordStored_emits.
  - destruct (sc_conversationSteps oc) as [[|s l]|]; simpl; try done.
    apply recordStored_emits.
Qed.

Lemma recordPasses_emits passes : ∀ oc w,
  ∃ rs,
    persisted (recordPasses self passes oc w).2 = persisted w ++ rs
    ∧ StronglySorted le (idx <$> rs)
    ∧ Forall (λ r, countOf oc ≤ idx r) rs.
Proof.
  induction passes as [|steps passes IH]; intros oc w; simpl.
  - exists []. rewrite app_nil_r. repeat split; by constructor.
  - destruct (recordStepResults_emits steps oc w) as (r1 & E1 & S1 & F1 & Hc).
    destruct (recordStepResults self steps oc w) as [oc1 w1]. simpl in *.
    destruct (IH oc1 w1) as (r2 & E2 & S2 & F2).
    exists (r1 ++ r2). split; [by rewrite E2, E1, app_assoc |]. split.
    + rewrite fmap_app. apply StronglySorted_app_2; [| done | done].
      intros a b Ha Hb.
      apply list_elem_of_fmap in Ha as (ra & -> & Ha).
      apply list_elem_of_fmap in Hb as (rb & -> & Hb).
      rewrite Forall_forall in F1, F2.
      specialize (F1 _ Ha). specialize (F2 _ Hb). simpl in *. lia.
    + apply Forall_app. split.
      * eapply Forall_impl; [exact F1 |]. simpl. intros; lia.
      * eapply Forall_impl; [exact F2 |]. simpl. intros; lia.
Qed.

(** *** One index per step *)

(** The recorder reads the operation's identity from the context, and
    nothing else, while it walks the steps. *)
Definition sameOrigin (a b : RecorderContext) : Prop :=
  oc_operationId a = oc_operationId b
  ∧ oc_userId a = oc_userId b
  ∧ oc_conversationId a = oc_conversationId b
  ∧ oc_parentAgentId a = oc_parentAgentId b
  ∧ sc_agentMetadata a = sc_agentMetadata b.

Lemma recordStep_origin a b i step p :
  sameOrigin a b → recordStep self a i step p = recordStep self b i step p.
Proof.
  destruct a, b. unfold sameOrigin. simpl.
  intros (-> & -> & -> & -> & ->). reflexivity.
Qed.

Lemma recordSteps_origin a b steps : ∀ i p,
  sameOrigin a b → recordSteps self a i steps p = recordSteps self b i steps p.
Proof.
  induction steps as [|s steps IH]; intros i p Hab; simpl; [done |].
  by rewrite (recordStep_origin a b), IH.
Qed.

(** The array a pass works on: the steps passed in when there are any,
    the ones stored under ["conversationSteps"] otherwise. *)
Definition storedStepsOf (steps : option (list StepResult))
    (oc : RecorderContext) : list StepResult :=
  default [] (match steps with
              | Some (_ :: _) => steps
              | _ => sc_conversationSteps oc
              end).

(** The pass state a recording pass starts from. *)
Definition startPass (oc : RecorderContext) (w : World) : Pass :=
  {| p_steps := default [] (oc_conversationSteps oc);
     p_records := [];
     p_uuids := uuidsDrawn w;
     p_clock := S (clockReads w);
     p_timestamp := isoTime (clockReads w) |}.

(** The records collected while the [forEach] handles the step at
    [offset] of [newSteps]: what [stepRecords] holds after that step beyond
    what it held before it. *)
Definition recordsOfStep (oc : RecorderContext) (base : nat)
    (newSteps : list StepResult) (p0 : Pass) (offset : nat)
    : list ConversationStepRecord :=
  match newSteps !! offset with
  | Some step =>
      let before := recordSteps self oc base (take offset newSteps) p0 in
      drop (length (p_records before))
        (p_records (recordStep self oc (base + offset) step before))
  | None => []
  end.

Lemma recordSteps_snoc oc l s i p :
  recordSteps self oc i (l ++ [s]) p
  = recordStep self oc (i + length l) s (recordSteps self oc i l p).
Proof.
  revert i p. induction l as [|x l IH]; intros i p; simpl.
  - by rewrite Nat.add_0_r.
  - rewrite IH. by replace (S i + length l) with (i + S (length l)) by lia.
Qed.

Lemma recordsOfStep_index oc base newSteps p0 offset :
  Forall (λ r, idx r = base + offset)
    (recordsOfStep oc base newSteps p0 offset).
Proof.
  unfold recordsOfStep. destruct (newSteps !! offset) as [step|]; [| done].
  cbv zeta.
  destruct (grows_recordStep oc (base + offset) step
              (recordSteps self oc base (take offset newSteps) p0))
    as (rs & E & F).
  by rewrite E, drop_app_length.
Qed.

Lemma recordsOfStep_snoc oc base l s p0 offset :
  offset < length l →
  recordsOfStep oc base (l ++ [s]) p0 offset
  = recordsOfStep oc base l p0 offset.
Proof.
  intros Hlt. unfold recordsOfStep.
  rewrite lookup_app_l by done. rewrite take_app_le by lia. done.
Qed.

Lemma recordsOfStep_last oc base l s p0 :
  p_records (recordSteps self oc base (l ++ [s]) p0)
  = p_records (recordSteps self oc base l p0)
    ++ recordsOfStep oc base (l ++ [s]) p0 (length l).
Proof.
  unfold recordsOfStep. rewrite list_lookup_middle by done. cbv zeta.
  rewrite take_app_length, recordSteps_snoc.
  destruct (grows_recordStep oc (base + length l) s
              (recordSteps self oc base l p0)) as (rs & E & _).
  by rewrite E, drop_app_length.
Qed.

(** The records of a [forEach] are those of its steps, step after step. *)
Lemma recordSteps_groups oc base newSteps p0 :
  p_records (recordSteps self oc base newSteps p0)
  = p_records p0
    ++ concat (recordsOfStep oc base newSteps p0
                 <$> seq 0 (length newSteps)).
Proof.
  induction newSteps as [|s l IH] using rev_ind; simpl.
  - by rewrite app_nil_r.
  - rewrite recordsOfStep_last, IH, length_app. simpl.
    rewrite Nat.add_1_r, seq_S, fmap_app, concat_app. simpl.
    rewrite app_nil_r, <- app_assoc. do 2 f_equal.
    f_equal. apply list_fmap_ext. intros k offset Hk.
    apply lookup_seq in Hk as [-> Hlt]. simpl.
    by rewrite recordsOfStep_snoc.
Qed.

Lemma recordStepResults_stored steps oc w :
  recordStepResults self steps oc w
  = match storedStepsOf steps oc with
    | [] => (oc, w)
    | _ :: _ => recordStored self (storedStepsOf steps oc) oc w
    end.
Proof.
  unfold recordStepResults, storedStepsOf.
  destruct steps as [[|s l]|]; simpl; try done;
    by destruct (sc_conversationSteps oc) as [[|s0 l0]|].
Qed.

Lemma recordStored_groups stored oc w :
  let base := countOf oc in
  let newSteps := drop base stored in
  persisted (recordStored self stored oc w).2
  = persisted w
    ++ concat (recordsOfStep oc base newSteps (startPass oc w)
                 <$> seq 0 (length newSteps)).
Proof.
  cbv zeta. unfold recordStored. fold (normalized oc).
  fold (countOf (normalized oc)). rewrite countOf_normalized.
  destruct (drop (countOf oc) stored) as [|s0 rest] eqn:Ed.
  { simpl. by rewrite app_nil_r. }
  set (oc1 := setPersistedStepCount _ _).
  set (p0 := {| p_steps := _ |}).
  assert (Hp0 : p0 = startPass oc w).
  { unfold p0, startPass, oc1, normalized. simpl.
    by destruct (oc_conversationSteps oc) eqn:Ec; simpl; rewrite ?Ec. }
  assert (Ho : sameOrigin oc1 oc).
  { unfold oc1, normalized.
    by destruct (oc_conversationSteps oc). }
  cbn [snd]. unfold persisted at 1. cbn [savedBatches].
  rewrite concat_saved.
  - rewrite recordSteps_groups. rewrite Hp0.
    change (p_records (startPass oc w)) with (@nil ConversationStepRecord).
    rewrite app_nil_l. do 2 f_equal.
    apply list_fmap_ext. intros k offset _. unfold recordsOfStep.
    destruct ((s0 :: rest) !! offset) as [step|]; [| done]. cbv zeta.
    by rewrite (recordSteps_origin oc1 oc), (recordStep_origin oc1 oc).
  - intros Hn. apply (no_target_recordSteps _ (s0 :: rest) (countOf oc) p0).
    exact Hn.
Qed.

(** C4 (as amended): within one operation the step indices of the records
    handed to storage never decrease, and they increase strictly from one
    step to the next.
    (1) The records a recording pass hands to storage are, in this order,
    those of its new steps (the steps beyond the persisted count), and all
    records of the step at [offset] carry the index
    [previouslyPersistedCount + offset]: the records of one step share its
    index, and every record of a later step carries a strictly greater index
    than every record of an earlier step.
    (2) The indices of a pass lie from the persisted count it found up to,
    and not including, the one it leaves, which is never smaller.
    (3) Over any run of recording passes every record emitted later carries
    a step index greater than or equal to that of every record emitted
    before it. *)
Theorem stepIndex_follows_steps :
  (∀ steps oc w,
     let base := countOf oc in
     let newSteps := drop base (storedStepsOf steps oc) in
     let ofStep := recordsOfStep oc base newSteps (startPass oc w) in
     persisted (recordStepResults self steps oc w).2
     = persisted w ++ concat (ofStep <$> seq 0 (length newSteps))
     ∧ (∀ offset, Forall (λ r, idx r = base + offset) (ofStep offset))
     ∧ (∀ earlier later r r',
          earlier < later → r ∈ ofStep earlier → r' ∈ ofStep later →
          idx r < idx r'))
  ∧ (∀ steps oc w,
       let after := recordStepResults self steps oc w in
       Forall (λ r, countOf oc ≤ idx r < countOf after.1)
         (drop (length (persisted w)) (persisted after.2))
       ∧ countOf oc ≤ countOf after.1)
  ∧ (∀ passes oc w, StronglySorted le (idx <$> emitted self passes oc w)).
Proof.
  split; [| split].
  - intros steps oc w base newSteps ofStep.
    assert (Hidx : ∀ offset, Forall (λ r, idx r = base + offset)
                               (ofStep offset))
      by (intros; apply recordsOfStep_index).
    split; [| split; [exact Hidx |]].
    + rewrite recordStepResults_stored.
      subst ofStep newSteps base.
      destruct (storedStepsOf steps oc) as [|s0 stored] eqn:Es.
      * rewrite drop_nil. simpl. by rewrite app_nil_r.
      * apply recordStored_groups.
    + intros earlier later r r' Hlt Hr Hr'.
      pose proof (Hidx earlier) as He. pose proof (Hidx later) as Hl.
      rewrite Forall_forall in He, Hl.
      rewrite (He _ Hr), (Hl _ Hr'). lia.
  - intros steps oc w after. subst after.
    destruct (recordStepResults_emits steps oc w) as (rs & E & _ & F & Hc).
    split; [| done]. by rewrite E, drop_app_length.
  - intros passes oc w. unfold emitted.
    destruct (recordPasses_emits passes oc w) as (rs & E & Hs & _).
    by rewrite E, drop_app_length.
Qed.

(** *** Two passes against one *)

Lemma recordSteps_app oc l1 l2 : ∀ i p,
  recordSteps self oc i (l1 ++ l2) p
  = recordSteps self oc (i + length l1) l2 (recordSteps self oc i l1 p).
Proof.
  induction l1 as [|s l1 IH]; intros i p; simpl.
  - by rewrite Nat.add_0_r.
  - rewrite IH. f_equal. lia.
Qed.

(** Two pass states that agree on everything but the clock, the first one
    carrying the extra records [pre] in front. *)
Definition sim (pre : list ConversationStepRecord) (pA pB : Pass) : Prop :=
  p_steps pA = p_steps pB
  ∧ p_uuids pA = p_uuids pB
  ∧ wt <$> p_records pA = pre ++ (wt <$> p_records pB).

Ltac sim_crush :=
  repeat match goal with
         | |- context [strTruthy ?g] => destruct (strTruthy g)
         | |- context [persistTarget ?o] => destruct (persistTarget o)
         end;
  unfold sim; simpl; split_and!; try done;
  rewrite ?fmap_app; simpl;
  repeat match goal with E : _ <$> _ = _ |- _ => rewrite E end;
  by rewrite <- ?app_assoc.

Lemma sim_recordText pre oc u i t pA pB :
  sim pre pA pB →
  sim pre (recordText self oc u i t pA) (recordText self oc u i t pB).
Proof.
  destruct pA, pB. unfold sim. simpl. intros (-> & -> & E).
  unfold recordText, randomUUID, pushStep, pushRecord. simpl. sim_crush.
Qed.

Lemma sim_recordToolCall pre oc u i c pA pB :
  sim pre pA pB →
  sim pre (recordToolCall self oc u i pA c) (recordToolCall self oc u i pB c).
Proof.
  destruct pA, pB. unfold sim. simpl. intros (-> & -> & E).
  unfold recordToolCall, idOrFresh, randomUUID, pushStep, pushRecord.
  sim_crush.
Qed.

Lemma sim_recordToolResult pre oc u i r pA pB :
  sim pre pA pB →
  sim pre (recordToolResult self oc u i pA r)
          (recordToolResult self oc u i pB r).
Proof.
  destruct pA, pB. unfold sim. simpl. intros (-> & -> & E).
  unfold recordToolResult, idOrFresh, randomUUID, pushStep, pushRecord.
  sim_crush.
Qed.

Lemma sim_foldl {A} (f : Pass → A → Pass) pre (l : list A) :
  (∀ pA pB a, sim pre pA pB → sim pre (f pA a) (f pB a)) →
  ∀ pA pB, sim pre pA pB → sim pre (foldl f pA l) (foldl f pB l).
Proof.
  intros Hf. induction l as [|a l IH]; intros pA pB Hs; simpl; [done |].
  apply IH, Hf, Hs.
Qed.

Lemma sim_recordStep pre oc i step pA pB :
  sim pre pA pB →
  sim pre (recordStep self oc i step pA) (recordStep self oc i step pB).
Proof.
  intros Hs. unfold recordStep.
  assert (Hr : ∀ qA qB, sim pre qA qB →
                 sim pre (refreshTimestamp qA) (refreshTimestamp qB)).
  { intros qA qB (E1 & E2 & E3). by repeat split. }
  apply Hr.
  apply sim_foldl; [intros; by apply sim_recordToolResult |].
  apply sim_foldl; [intros; by apply sim_recordToolCall |].
  destruct (trim <$> step_text step) as [t|]; [| done].
  destruct (strTruthy t); [by apply sim_recordText | done].
Qed.

Lemma sim_recordSteps pre oc steps : ∀ i pA pB,
  sim pre pA pB →
  sim pre (recordSteps self oc i steps pA) (recordSteps self oc i steps pB).
Proof.
  induction steps as [|s steps IH]; intros i pA pB Hs; simpl; [done |].
  by apply IH, sim_recordStep.
Qed.

Lemma recordStored_nothing_new stored oc w :
  drop (countOf oc) stored = [] →
  recordStored self stored oc w = (normalized oc, w).
Proof.
  intros E. unfold recordStored. fold (normalized oc).
  fold (countOf (normalized oc)). by rewrite countOf_normalized, E.
Qed.

Lemma recordStored_new stored oc w s0 rest :
  drop (countOf oc) stored = s0 :: rest →
  recordStored self stored oc w =
    let oc1 := setPersistedStepCount (countOf oc + length (s0 :: rest))
                 (normalized oc) in
    let p := recordSteps self oc1 (countOf oc) (s0 :: rest)
               (startPass oc1 w) in
    (setConversationSteps (Some (p_steps p)) oc1,
     {| uuidsDrawn := p_uuids p;
        clockReads := p_clock p;
        savedBatches :=
          match p_records p, persistTarget oc with
          | _ :: _, Some _ => savedBatches w ++ [p_records p]
          | _, _ => savedBatches w
          end |}).
Proof.
  intros E. unfold recordStored. fold (normalized oc).
  fold (countOf (normalized oc)). rewrite countOf_normalized, E.
  cbv zeta. unfold startPass. do 3 f_equal.
  change (persistTarget (setConversationSteps _ (setPersistedStepCount _
            (normalized oc)))) with (persistTarget (normalized oc)).
  by rewrite persistTarget_normalized.
Qed.

Lemma normalized_idem oc : normalized (normalized oc) = normalized oc.
Proof. unfold normalized. by destruct (oc_conversationSteps oc) eqn:E; rewrite ?E. Qed.

Lemma recordStored_normalized stored oc w :
  recordStored self stored (normalized oc) w = recordStored self stored oc w.
Proof.
  unfold recordStored. fold (normalized oc). fold (normalized (normalized oc)).
  by rewrite normalized_idem.
Qed.

Lemma sameOrigin_normalized oc : sameOrigin (normalized oc) oc.
Proof. unfold normalized. by destruct (oc_conversationSteps oc). Qed.

(** Recording a first part [P] of the steps and then all of them leaves the
    context, the UUID generator and (timestamps apart) the stored records
    as one pass over all of them does. *)
Lemma recordStored_twice P Q oc w :
  let a := recordStored self P oc w in
  let b := recordStored self (P ++ Q) a.1 a.2 in
  let c := recordStored self (P ++ Q) oc w in
  b.1 = c.1
  ∧ uuidsDrawn b.2 = uuidsDrawn c.2
  ∧ wt <$> persisted b.2 = wt <$> persisted c.2.
Proof.
  cbv zeta.
  destruct (drop (countOf oc) P) as [|s0 rest] eqn:Ed.
  { rewrite (recordStored_nothing_new P) by done. simpl.
    by rewrite recordStored_normalized. }
  assert (Hlen : countOf oc + length (s0 :: rest) = length P).
  { rewrite <- Ed, length_drop.
    assert (countOf oc < length P); [| lia].
    destruct (decide (countOf oc < length P)) as [|Hge]; [done |].
    rewrite drop_ge in Ed by lia. done. }
  rewrite (recordStored_new P oc w s0 rest Ed). cbv zeta. cbn [fst snd].
  set (oc1 := setPersistedStepCount _ (normalized oc)).
  set (pA := recordSteps self oc1 (countOf oc) (s0 :: rest) (startPass oc1 w)).
  set (ocA := setConversationSteps (Some (p_steps pA)) oc1).
  set (wA := {| uuidsDrawn := p_uuids pA |}).
  assert (HcA : countOf ocA = length P) by exact Hlen.
  destruct Q as [|q0 qs].
  { rewrite app_nil_r.
    rewrite (recordStored_nothing_new P ocA wA)
      by (rewrite HcA; by apply drop_ge).
    rewrite (recordStored_new P oc w s0 rest Ed). done. }
  assert (EdB : drop (countOf ocA) (P ++ q0 :: qs) = q0 :: qs).
  { rewrite HcA. by rewrite drop_app_length. }
  assert (EdC : drop (countOf oc) (P ++ q0 :: qs) = s0 :: (rest ++ q0 :: qs)).
  { rewrite drop_app_le by lia. by rewrite Ed. }
  rewrite (recordStored_new _ ocA wA q0 qs EdB).
  rewrite (recordStored_new _ oc w s0 (rest ++ q0 :: qs) EdC).
  cbv zeta. cbn [fst snd].
  set (oc2 := setPersistedStepCount _ (normalized ocA)).
  set (oc1' := setPersistedStepCount _ (normalized oc)).
  set (pB := recordSteps self oc2 _ _ _).
  set (pC := recordSteps self oc1' _ _ _).
  assert (Hsim : sim (wt <$> p_records pA) pC pB).
  { subst pC pB.
    change (s0 :: rest ++ q0 :: qs) with ((s0 :: rest) ++ q0 :: qs).
    rewrite recordSteps_app, Hlen, HcA.
    rewrite (recordSteps_origin oc2 oc1') by done.
    apply sim_recordSteps.
    rewrite (recordSteps_origin oc1' oc1) by done.
    change (startPass oc1' w) with (startPass oc1 w). fold pA.
    unfold sim. simpl. by rewrite app_nil_r. }
  destruct Hsim as (Hsteps & Huuids & Hrecs).
  assert (HtA : persistTarget ocA = persistTarget oc).
  { change (persistTarget ocA) with (persistTarget (normalized oc)).
    apply persistTarget_normalized. }
  split; [| split]; simpl.
  - rewrite <- Hsteps. unfold oc2, oc1', ocA, oc1. simpl.
    unfold setConversationSteps, setPersistedStepCount. simpl.
    f_equal. f_equal. unfold countOf. simpl. rewrite length_app. simpl. lia.
  - done.
  - unfold persisted. simpl.
    rewrite !concat_saved.
    + rewrite !fmap_app, Hrecs. by rewrite app_assoc.
    + intros Hn. subst pC. rewrite no_target_recordSteps; [done |].
      change (persistTarget oc1') with (persistTarget (normalized oc)).
      by rewrite persistTarget_normalized.
    + intros Hn. subst pA. rewrite no_target_recordSteps; [done |].
      change (persistTarget oc1) with (persistTarget (normalized oc)).
      by rewrite persistTarget_normalized.
    + intros Hn. subst pB. rewrite no_target_recordSteps; [done |].
      change (persistTarget oc2) with (persistTarget (normalized ocA)).
      by rewrite persistTarget_normalized.
Qed.

(** C3: for a fixed list of steps, recording its first [k] steps and then
    all of them hands to storage exactly the records of one pass over all
    of them (wall-clock stamps apart) and leaves the operation context,
    with its [persistedCount], as that one pass does: no step is recorded
    twice. *)
Theorem two_passes_record_once steps k oc w :
  storedIsPrefix oc steps →
  let first := recordStepResults self (Some (take k steps)) oc w in
  let both := recordStepResults self (Some steps) first.1 first.2 in
  let once := recordStepResults self (Some steps) oc w in
  wt <$> persisted both.2 = wt <$> persisted once.2
  ∧ both.1 = once.1.
Proof.
  intros Hpre. cbv zeta.
  assert (Hcore : ∀ P Q, steps = P ++ Q → P ≠ [] →
    let a := recordStored self P oc w in
    wt <$> persisted (recordStepResults self (Some steps) a.1 a.2).2
      = wt <$> persisted (recordStepResults self (Some steps) oc w).2
    ∧ (recordStepResults self (Some steps) a.1 a.2).1
      = (recordStepResults self (Some steps) oc w).1).
  { intros P Q -> HP. cbv zeta.
    destruct (recordStored_twice P Q oc w) as (E1 & _ & E3).
    unfold recordStepResults.
    destruct (P ++ Q) as [|x l] eqn:EPQ.
    - by destruct P.
    - by split. }
  assert (Hfirst :
    recordStepResults self (Some (take k steps)) oc w = (oc, w)
    ∨ ∃ P Q, steps = P ++ Q ∧ P ≠ []
             ∧ recordStepResults self (Some (take k steps)) oc w
               = recordStored self P oc w).
  { unfold recordStepResults.
    destruct (take k steps) as [|t l] eqn:Et.
    - unfold storedIsPrefix in Hpre.
      destruct (sc_conversationSteps oc) as [[|s0 stored]|] eqn:Es;
        [by left | | by left].
      right. destruct Hpre as [Q ->]. by exists (s0 :: stored), Q.
    - right. exists (take k steps), (drop k steps).
      rewrite take_drop, Et. done. }
  destruct Hfirst as [-> | (P & Q & HPQ & HP & ->)]; [done |].
  by apply (Hcore P Q).
Qed.

End Props.
End StepRecorderProps.

(** *** Concrete runs of the step recorder *)
Module StepRecorderExamples.
Import Js StepRecorder StepRecorderProps.

Definition demoPlatform : Platform :=
  {| uuid := λ n, "uuid-" +:+ pretty n;
     isoTime := λ n, "T" +:+ pretty n;
     convertUsage := λ _,
       {| promptTokens := 0; completionTokens := 0; totalTokens := 0 |};
     stringifyValue := λ _, "{}" |}.

Definition demoAgent : Agent :=
  {| agent_id := "supervisor"; agent_name := "Supervisor" |}.

Definition demoContext : RecorderContext :=
  {| oc_operationId := "op-1";
     oc_userId := Some "u1";
     oc_conversationId := Some "c1";
     oc_parentAgentId := None;
     oc_conversationSteps := None;
     sc_conversationSteps := None;
     sc_persistedStepCount := None;
     sc_agentMetadata := None |}.

Definition demoWorld : World :=
  {| uuidsDrawn := 0; clockReads := 0; savedBatches := [] |}.

(** One model step that produced text and called a tool. *)
Definition textAndCall : StepResult :=
  {| step_content := Some [];
     step_text := Some "Let me look that up";
     step_toolCalls :=
       Some [ {| tc_toolCallId := "call-1"; tc_toolName := "search";
                 tc_input := JObj [("query", JStr "docs")] |} ];
     step_toolResults := None;
     step_usage := None;
     step_responseMessages := None |}.

Definition answer : StepResult :=
  {| step_content := Some [];
     step_text := Some "Here is the answer";
     step_toolCalls := None;
     step_toolResults := None;
     step_usage := None;
     step_responseMessages := None |}.

(** C4, counterexample: one step with text and a tool call yields two
    records, the second emitted after the first, both with step index 0:
    the later record's index is not strictly greater. *)
Lemma stepIndex_not_strictly_increasing :
  rec_stepIndex <$>
    emitted (H := demoPlatform) demoAgent [Some [textAndCall]]
      demoContext demoWorld = [0; 0]
  ∧ ¬ StronglySorted lt
        (rec_stepIndex <$>
           emitted (H := demoPlatform) demoAgent [Some [textAndCall]]
             demoContext demoWorld).
Proof.
  assert (E : rec_stepIndex <$>
    emitted (H := demoPlatform) demoAgent [Some [textAndCall]]
      demoContext demoWorld = [0; 0]) by (vm_compute; reflexivity).
  split; [exact E |]. rewrite E. intros Hs.
  apply StronglySorted_cons in Hs as [Hf _].
  apply Forall_cons in Hf as [Hlt _]. lia.
Qed.

(** C4, witness: two steps recorded in one pass; the two records of the
    first step carry index 0, the record of the second step index 1, and
    each record of the first step has a smaller index than the one of the
    second. *)
Lemma stepIndex_follows_steps_witness :
  0 < 1
  ∧ Forall
      (λ r, Forall (λ r', rec_stepIndex r < rec_stepIndex r')
              (recordsOfStep (H := demoPlatform) demoAgent demoContext 0
                 [textAndCall; answer]
                 (startPass (H := demoPlatform) demoContext demoWorld) 1))
      (recordsOfStep (H := demoPlatform) demoAgent demoContext 0
         [textAndCall; answer]
         (startPass (H := demoPlatform) demoContext demoWorld) 0).
Proof.
  split; [lia |].
  apply Forall_forall. intros r Hr. apply Forall_forall. intros r' Hr'.
  exact (proj2 (proj2 (proj1 (stepIndex_follows_steps (H := demoPlatform)
                                demoAgent)
                         (Some [textAndCall; answer]) demoContext demoWorld))
           0 1 r r' (Nat.lt_0_succ 0) Hr Hr').
Defined.

(** C3, witness: the step handler recorded after the first of two steps,
    the final flush after both. *)
Lemma two_passes_record_once_witness :
  storedIsPrefix demoContext [textAndCall; answer]
  ∧ (let first :=
       recordStepResults (H := demoPlatform) demoAgent
         (Some (take 1 [textAndCall; answer])) demoContext demoWorld in
     let both :=
       recordStepResults (H := demoPlatform) demoAgent
         (Some [textAndCall; answer]) first.1 first.2 in
     let once :=
       recordStepResults (H := demoPlatform) demoAgent
         (Some [textAndCall; answer]) demoContext demoWorld in
     withoutTimestamp <$> persisted both.2
       = withoutTimestamp <$> persisted once.2
     ∧ both.1 = once.1).
Proof.
  split; [exact I |].
  apply (two_passes_record_once (H := demoPlatform) demoAgent
           [textAndCall; answer] 1 demoContext demoWorld).
  exact I.
Defined.

End StepRecorderExamples.

(** ** Lifecycle hooks *)
Module HooksProps.
Import Effects Hooks.

Section Props.
Context {S E Args R : Type}.
Implicit Types agentHooks callHooks : AgentHooks S E Args R.
Implicit Types c a : Hook S E Args R.

Lemma callThenAgent_run c a args s :
  callThenAgent (Some c) (Some a) args s =
    match c args s with
    | Returned s1 _ =>
        match a args s1 with
        | Returned s2 _ => Returned s2 None
        | Threw s2 e => Threw s2 e
        end
    | Threw s1 e => Threw s1 e
    end.
Proof.
  unfold callThenAgent, bind, callHook, ret.
  destruct (c args s) as [s1 v|s1 e]; [| done].
  by destruct (a args s1).
Qed.

(** C8 (as amended): where both an agent-level and a call-level hook are
    supplied under one name, the merged hook runs the call-level hook
    first and, once that has completed without throwing, the agent-level
    hook on the state it left; a throw of the call-level hook ends the
    merged hook.  For [onPrepareMessages] and [onPrepareModelMessages] the
    merged hook is the call-level hook itself. *)
Theorem merged_hook_call_level_first n agentHooks callHooks c a :
  hookNamed n callHooks = Some c →
  hookNamed n agentHooks = Some a →
  let merged :=
    getMergedHooks agentHooks (Some {| opt_hooks := Some callHooks |}) in
  if isPrepare n then hookNamed n merged = Some c
  else ∃ m, hookNamed n merged = Some m
            ∧ ∀ args s,
                m args s =
                  match c args s with
                  | Returned s1 _ =>
                      match a args s1 with
                      | Returned s2 _ => Returned s2 None
                      | Threw s2 e => Threw s2 e
                      end
                  | Threw s1 e => Threw s1 e
                  end.
Proof.
  intros Hc Ha. cbv zeta.
  destruct n; simpl in *; rewrite ?Hc, ?Ha; try done;
    (eexists; split; [reflexivity |]; intros args s;
     apply callThenAgent_run).
Qed.

(** Without call-level hooks the agent's own hooks are used as they are. *)
Lemma merged_hooks_without_options agentHooks :
  getMergedHooks agentHooks None = agentHooks
  ∧ getMergedHooks agentHooks (Some {| opt_hooks := None |}) = agentHooks.
Proof. done. Qed.

End Props.

(** *** A call-level hook that denies the tool *)

Definition logging (tag : string) : Hook (list string) string unit unit :=
  λ _ log, Returned (log ++ [tag]) None.

Definition denying (tag : string) : Hook (list string) string unit unit :=
  λ _ log, Threw (log ++ [tag]) "ToolDeniedError".

Definition noHooks : AgentHooks (list string) string unit unit :=
  {| onStart := None; onEnd := None; onError := None; onHandoff := None;
     onHandoffComplete := None; onToolStart := None; onToolEnd := None;
     onStepFinish := None; onPrepareMessages := None;
     onPrepareModelMessages := None |}.

Definition agentLevel : AgentHooks (list string) string unit unit :=
  {| onStart := Some (logging "agent onStart");
     onEnd := None; onError := None; onHandoff := None;
     onHandoffComplete := None;
     onToolStart := Some (logging "agent onToolStart");
     onToolEnd := None; onStepFinish := None; onPrepareMessages := None;
     onPrepareModelMessages := None |}.

Definition callLevel : AgentHooks (list string) string unit unit :=
  {| onStart := Some (logging "call onStart");
     onEnd := None; onError := None; onHandoff := None;
     onHandoffComplete := None;
     onToolStart := Some (denying "call onToolStart");
     onToolEnd := None; onStepFinish := None; onPrepareMessages := None;
     onPrepareModelMessages := None |}.

(** C8, counterexample: both levels supply [onToolStart]; the call-level
    one throws, and the merged hook ends there: the log holds the
    call-level entry only, the agent-level hook was not invoked. *)
Lemma merged_hook_agent_level_not_invoked :
  callHook
    (onToolStart
       (getMergedHooks agentLevel (Some {| opt_hooks := Some callLevel |})))
    tt []
  = Threw ["call onToolStart"] "ToolDeniedError".
Proof. reflexivity. Qed.

(** C8, witness: both levels supply [onStart]. *)
Lemma merged_hook_call_level_first_witness :
  hookNamed OnStart callLevel = Some (logging "call onStart")
  ∧ hookNamed OnStart agentLevel = Some (logging "agent onStart")
  ∧ ∃ m, hookNamed OnStart
           (getMergedHooks agentLevel
              (Some {| opt_hooks := Some callLevel |})) = Some m
         ∧ ∀ args s,
             m args s =
               match logging "call onStart" args s with
               | Returned s1 _ =>
                   match logging "agent onStart" args s1 with
                   | Returned s2 _ => Returned s2 None
                   | Threw s2 e => Threw s2 e
                   end
               | Threw s1 e => Threw s1 e
               end.
Proof.
  split; [reflexivity |]. split; [reflexivity |].
  exact (merged_hook_call_level_first OnStart agentLevel callLevel
           (logging "call onStart") (logging "agent onStart")
           eq_refl eq_refl).
Defined.

End HooksProps.

(** ** Operation context factory: the context map *)
Module ContextMapProps.
Import Js OperationContextFactory.

Lemma mapGet_mapSet k k' v m :
  mapGet k' (mapSet k v m) = if decide (k' = k) then Some v else mapGet k' m.
Proof.
  induction m as [|[k0 v0] m IH]; simpl.
  - by repeat case_decide.
  - destruct (decide (k = k0)) as [->|Hne]; simpl.
    + by repeat case_decide.
    + rewrite IH. repeat case_decide; by subst.
Qed.

Lemma mapHas_true k m : mapHas k m = true ↔ is_Some (mapGet k m).
Proof. unfold mapHas. by rewrite bool_decide_eq_true. Qed.

Lemma mapHas_false k m : mapHas k m = false ↔ mapGet k m = None.
Proof.
  unfold mapHas. rewrite bool_decide_eq_false. by rewrite eq_None_not_Some.
Qed.

(** The fill-in loop never overwrites: a key of [dst] keeps its value, any
    other key gets the value [src] has for it. *)
Lemma mapGet_backfill src : ∀ dst k,
  mapGet k (backfill src dst) = firstSome (mapGet k dst) (mapGet k src).
Proof.
  unfold backfill.
  induction src as [|[k0 v0] src IH]; intros dst k; simpl.
  - by destruct (mapGet k dst).
  - rewrite IH. destruct (mapHas k0 dst) eqn:Hh.
    + apply mapHas_true in Hh as [v Hv].
      destruct (decide (k = k0)) as [->|]; [by rewrite Hv | done].
    + apply mapHas_false in Hh. rewrite mapGet_mapSet.
      destruct (decide (k = k0)) as [->|]; [by rewrite Hh | done].
Qed.

Lemma entriesAt_setMap st dst m l :
  dst < length (maps st) →
  entriesAt l (setMap dst m st) = if decide (l = dst) then m else entriesAt l st.
Proof.
  intros Hv. unfold entriesAt, setMap. simpl.
  destruct (decide (l = dst)) as [->|Hne].
  - by rewrite list_lookup_insert_eq.
  - by rewrite list_lookup_insert_ne.
Qed.

Lemma ctxGet_backfillFrom st src dst l k :
  dst < length (maps st) →
  ctxGet (backfillFrom src dst st) l k =
    if decide (l = dst)
    then firstSome (ctxGet st dst k) (ctxGet st src k)
    else ctxGet st l k.
Proof.
  intros Hv. unfold ctxGet, backfillFrom.
  rewrite entriesAt_setMap by done.
  case_decide; [apply mapGet_backfill | done].
Qed.

Lemma backfillFrom_length st src dst :
  length (maps (backfillFrom src dst st)) = length (maps st).
Proof. unfold backfillFrom, setMap. simpl. by rewrite length_insert. Qed.

Definition optGet (st : Store) (l : option loc) (k : Key) : option JsValue :=
  l ≫= λ l, ctxGet st l k.

Lemma ctxGet_optBackfill st src dst l k :
  dst < length (maps st) →
  ctxGet (optBackfill src dst st) l k =
    if decide (l = dst)
    then firstSome (ctxGet st dst k) (optGet st src k)
    else ctxGet st l k.
Proof.
  intros Hv. destruct src as [src|]; simpl.
  - by apply ctxGet_backfillFrom.
  - case_decide; [| done]. subst. by destruct (ctxGet st dst k).
Qed.

Lemma optBackfill_length st src dst :
  length (maps (optBackfill src dst st)) = length (maps st).
Proof. destruct src; simpl; [apply backfillFrom_length | done]. Qed.

(** References held by the caller point to maps that exist. *)
Definition validRef (st : Store) (l : option loc) : Prop :=
  match l with Some l => l < length (maps st) | None => True end.

Definition validInput (st : Store) (c : option ContextInput) : Prop :=
  match c with
  | Some (ContextAsMap m) => m < length (maps st)
  | _ => True
  end.

Lemma toContextMap_spec c st :
  validInput st c →
  let r := toContextMap c st in
  length (maps st) ≤ length (maps r.2)
  ∧ validRef r.2 r.1
  ∧ (∀ l k, l < length (maps st) → ctxGet r.2 l k = ctxGet st l k)
  ∧ (∀ k, optGet r.2 r.1 k = suppliedGet st c k).
Proof.
  intros Hv. destruct c as [[m|fields]|]; simpl in *.
  - done.
  - rewrite length_app. simpl. split; [lia |]. split; [lia |]. split.
    + intros l k Hl. unfold ctxGet, entriesAt. simpl.
      by rewrite lookup_app_l.
    + intros k. unfold ctxGet, entriesAt. simpl.
      by rewrite list_lookup_middle.
  - done.
Qed.

Section Factory.
Variable operationUuid : nat → string.
Variable activeTriggerContext : option loc.
Variable self : Agent.

(** C5: with a parent operation context the parent's map instance is the
    operation's map, and every key it held keeps its value; a key it did
    not hold takes the value of the caller-supplied context, else of the
    agent's default context (else of the active trigger context). *)
Theorem parent_context_is_authoritative input options parent st :
  opt_parentOperationContext options = Some parent →
  context parent < length (maps st) →
  validInput st (opt_context options) →
  validRef st (agent_context self) →
  validRef st activeTriggerContext →
  let r := createOperationContext operationUuid activeTriggerContext self
             input (Some options) st in
  context r.1 = context parent
  ∧ (∀ k v, ctxGet st (context parent) k = Some v →
            ctxGet r.2 (context r.1) k = Some v)
  ∧ (∀ k, ctxGet r.2 (context r.1) k =
            firstSome (ctxGet st (context parent) k)
              (firstSome (suppliedGet st (opt_context options) k)
                 (firstSome (optGet st (agent_context self) k)
                    (optGet st activeTriggerContext k)))).
Proof.
  intros Hp Hvp Hvi Hva Hvt. cbv zeta.
  assert (Hmain :
    context (createOperationContext operationUuid activeTriggerContext self
               input (Some options) st).1 = context parent
    ∧ ∀ k, ctxGet (createOperationContext operationUuid activeTriggerContext
                     self input (Some options) st).2 (context parent) k =
            firstSome (ctxGet st (context parent) k)
              (firstSome (suppliedGet st (opt_context options) k)
                 (firstSome (optGet st (agent_context self) k)
                    (optGet st activeTriggerContext k)))).
  { unfold createOperationContext. simpl. rewrite Hp. simpl.
    pose proof (toContextMap_spec (opt_context options) (countOperation st))
      as Hspec.
    destruct (toContextMap (opt_context options) (countOperation st))
      as [rc st1] eqn:Etc.
    destruct (Hspec Hvi) as (Hlen & Hvr & Hold & Hnew). simpl in *.
    clear Hspec.
    set (lp := context parent) in *.
    set (st2 := optBackfill rc lp st1).
    set (st3 := optBackfill (agent_context self) lp st2).
    set (st4 := optBackfill activeTriggerContext lp st3).
    destruct (conversationSteps parent) as [steps|]; simpl.
    all: split; [done |]; intros k.
    all: match goal with
         | |- ctxGet ?s ?l ?kk = _ =>
             change (ctxGet s l kk) with (ctxGet st4 lp k)
         end.
    all: unfold st4; rewrite ctxGet_optBackfill
           by (unfold st3, st2; rewrite !optBackfill_length; lia).
    all: rewrite decide_True by done.
    all: assert (E3 : ctxGet st3 lp k =
                   firstSome (ctxGet st2 lp k)
                     (optGet st2 (agent_context self) k))
         by (unfold st3; rewrite ctxGet_optBackfill
               by (unfold st2; rewrite optBackfill_length; lia);
             by rewrite decide_True by done).
    all: assert (E2 : ctxGet st2 lp k =
                   firstSome (ctxGet st1 lp k) (optGet st1 rc k))
         by (unfold st2; rewrite ctxGet_optBackfill by lia;
             by rewrite decide_True by done).
    all: rewrite E3, E2; clear E3 E2.
    all: rewrite Hnew, (Hold lp k) by done.
    all: change (ctxGet (countOperation st) lp k) with (ctxGet st lp k).
    all: change (suppliedGet (countOperation st) (opt_context options) k)
           with (suppliedGet st (opt_context options) k).
    all: set (P := ctxGet st lp k).
    all: set (R := suppliedGet st (opt_context options) k).
    all: assert (HA : optGet st2 (agent_context self) k =
                   match agent_context self with
                   | Some la => if decide (la = lp) then firstSome P R
                                else optGet st (agent_context self) k
                   | None => None
                   end)
         by (destruct (agent_context self) as [la|]; simpl in *; [| done];
             unfold st2; rewrite ctxGet_optBackfill by lia;
             case_decide; [by rewrite Hnew, Hold by done |];
             by rewrite Hold by done).
    all: assert (HT : optGet st3 activeTriggerContext k =
                   match activeTriggerContext with
                   | Some lt =>
                       if decide (lt = lp)
                       then firstSome (firstSome P R)
                              (optGet st2 (agent_context self) k)
                       else optGet st activeTriggerContext k
                   | None => None
                   end)
         by (destruct activeTriggerContext as [lt|]; simpl in *; [| done];
             unfold st3; rewrite ctxGet_optBackfill
               by (unfold st2; rewrite optBackfill_length; lia);
             case_decide; [subst lt; unfold st2;
               rewrite ctxGet_optBackfill by lia;
               rewrite decide_True by done;
               by rewrite Hnew, Hold by done |];
             unfold st2; rewrite ctxGet_optBackfill by lia;
             rewrite decide_False by done; by rewrite Hold by done).
    all: rewrite HT, HA; clear HT HA.
    all: assert (HPa : ∀ la, agent_context self = Some la → la = lp →
                   optGet st (agent_context self) k = P)
         by (intros la -> ->; done).
    all: assert (HPt : ∀ lt, activeTriggerContext = Some lt → lt = lp →
                   optGet st activeTriggerContext k = P)
         by (intros lt -> ->; done).
    all: destruct (agent_context self) as [la|];
         [destruct (decide (la = lp)) as [Ea|Ea];
          [rewrite (HPa la eq_refl Ea) |] |].
    all: destruct activeTriggerContext as [lt|];
         [destruct (decide (lt = lp)) as [Et|Et];
          [rewrite (HPt lt eq_refl Et) |] |].
    all: clear; clearbody P R; unfold optGet; simpl.
    all: repeat match goal with
                | |- context [ctxGet ?s ?l ?k] =>
                    generalize (ctxGet s l k); intros ?
                end.
    all: repeat match goal with o : option JsValue |- _ => destruct o end.
    all: reflexivity. }
  destruct Hmain as [Hc Hk]. split; [done |]. rewrite Hc. split; [| done].
  intros k v Hv. by rewrite Hk, Hv.
Qed.

End Factory.
End ContextMapProps.

(** *** The delegation scenario: parent holds userId = u1, child passes u2 *)
Module ContextMapExamples.
Import Js OperationContextFactory ContextMapProps.

Definition supervisorAgent : Agent :=
  {| agent_id := "sub"; agent_name := "SubAgent"; agent_context := None |}.

(** The store after operation A: its context map at address 0 binds
    ["userId"] to ["u1"], its abort controller sits at address 0. *)
Definition storeAfterA : Store :=
  {| maps := [[(KStr "userId", JStr "u1")]];
     controllers := [{| aborted := false; reason := None; listeners := [] |}];
     stepArrays := [[]];
     operationsCreated := 1 |}.

Definition operationA : OperationContext :=
  {| operationId := "op-0";
     context := 0;
     systemContext :=
       {| sys_agentMetadata :=
            {| StepRecorder.meta_agentId := "sup";
               StepRecorder.meta_agentName := "Supervisor" |};
          sys_bufferCreated := true;
          sys_queueDebounceMs := 200 |};
     isActive := true;
     conversationSteps := Some 0;
     abortController := 0;
     userId := None;
     conversationId := None;
     parentAgentId := None;
     input := JStr "hello";
     output := None |}.

(** The delegated call B brings its own context object. *)
Definition optionsB : BaseGenerationOptions :=
  {| opt_context :=
       Some (ContextAsRecord [(KStr "userId", JStr "u2");
                              (KStr "tenant", JStr "t9")]);
     opt_parentOperationContext := Some operationA;
     opt_abortSignal := None;
     opt_userId := None;
     opt_conversationId := None;
     opt_parentAgentId := Some "sup" |}.

Definition operationB : OperationContext * Store :=
  createOperationContext (λ n, "op-" +:+ pretty n) None supervisorAgent
    (JStr "delegated") (Some optionsB) storeAfterA.

(** B sees the parent's ["userId"], and its own ["tenant"] is filled in. *)
Lemma delegated_userId_is_parents :
  ctxGet operationB.2 (context operationB.1) (KStr "userId")
    = Some (JStr "u1")
  ∧ ctxGet operationB.2 (context operationB.1) (KStr "tenant")
    = Some (JStr "t9")
  ∧ context operationB.1 = context operationA.
Proof. vm_compute. done. Qed.

(** C5, witness: the theorem at the delegation scenario. *)
Lemma parent_context_is_authoritative_witness :
  opt_parentOperationContext optionsB = Some operationA
  ∧ context operationA < length (maps storeAfterA)
  ∧ validInput storeAfterA (opt_context optionsB)
  ∧ validRef storeAfterA (agent_context supervisorAgent)
  ∧ validRef storeAfterA None
  ∧ (context operationB.1 = context operationA
     ∧ (∀ k v, ctxGet storeAfterA (context operationA) k = Some v →
               ctxGet operationB.2 (context operationB.1) k = Some v)
     ∧ (∀ k, ctxGet operationB.2 (context operationB.1) k =
               firstSome (ctxGet storeAfterA (context operationA) k)
                 (firstSome (suppliedGet storeAfterA (opt_context optionsB) k)
                    (firstSome
                       (optGet storeAfterA (agent_context supervisorAgent) k)
                       (optGet storeAfterA None k))))).
Proof.
  refine (conj eq_refl (conj _ (conj I (conj I (conj I _))))).
  - simpl. lia.
  - apply (parent_context_is_authoritative (λ n, "op-" +:+ pretty n) None
             supervisorAgent (JStr "delegated") optionsB operationA
             storeAfterA eq_refl); simpl; [lia | exact I | exact I | exact I].
Defined.

End ContextMapExamples.

(** ** Operation context factory: cancellation wiring *)
Module AbortProps.
Import Js OperationContextFactory.

(** The listener loop of [abort], by name. *)
Fixpoint dispatch (depth : nat) (r : JsValue) (ls : list Listener)
    (cs : list AbortController) : option (list AbortController) :=
  match ls with
  | [] => Some cs
  | Bridge target :: ls =>
      match cs !! target with
      | Some t =>
          if aborted t then dispatch depth r ls cs
          else
            match abort depth target r cs with
            | Some cs => dispatch depth r ls cs
            | None => None
            end
      | None => dispatch depth r ls cs
      end
  end.

Definition fired (r : JsValue) (ctl : AbortController) : AbortController :=
  {| aborted := true; reason := Some r; listeners := listeners ctl |}.

Lemma abort_unfold depth c r cs :
  abort (S depth) c r cs =
    match cs !! c with
    | None => Some cs
    | Some ctl =>
        if aborted ctl then Some cs
        else dispatch depth r (listeners ctl) (<[c := fired r ctl]> cs)
    end.
Proof.
  simpl. destruct (cs !! c) as [ctl|]; [| done].
  destruct (aborted ctl); [done |]. unfold fired.
  generalize (<[c := {| aborted := true; reason := Some r;
                        listeners := listeners ctl |}]> cs).
  induction (listeners ctl) as [|[t] ls IH]; intros cs0; simpl; [done |].
  destruct (cs0 !! t) as [tc|]; [| apply IH].
  destruct (aborted tc); [apply IH |].
  destruct (abort depth t r cs0); [apply IH | done].
Qed.

Lemma dispatch_app depth r l1 l2 cs :
  dispatch depth r (l1 ++ l2) cs =
    match dispatch depth r l1 cs with
    | Some cs' => dispatch depth r l2 cs'
    | None => None
    end.
Proof.
  revert cs. induction l1 as [|[t] l1 IH]; intros cs; simpl; [done |].
  destruct (cs !! t) as [tc|]; [| apply IH].
  destruct (aborted tc); [apply IH |].
  destruct (abort depth t r cs); [apply IH | done].
Qed.

(** *** Counting the controllers that have not fired *)

Lemma pending_app cs1 cs2 : pending (cs1 ++ cs2) = pending cs1 + pending cs2.
Proof. unfold pending. by rewrite filter_app, length_app. Qed.

Lemma pending_cons c cs :
  pending (c :: cs) = (if aborted c then 0 else 1) + pending cs.
Proof.
  unfold pending. rewrite filter_cons.
  destruct (aborted c); by case_decide.
Qed.

Lemma pending_fire cs (c : loc) ctl r :
  cs !! c = Some ctl → aborted ctl = false →
  S (pending (<[c := fired r ctl]> cs)) = pending cs.
Proof.
  intros Hc Ha.
  rewrite <- (take_drop_middle cs c ctl Hc) at 2.
  rewrite insert_take_drop by (by eapply lookup_lt_Some).
  rewrite !pending_app, !pending_cons, Ha. simpl. lia.
Qed.

(** *** What firing a controller can change *)

(** From [cs] to [cs']: the same controllers with the same listeners; what
    had fired stays as it was. *)
Definition evolves (cs cs' : list AbortController) : Prop :=
  length cs' = length cs
  ∧ pending cs' ≤ pending cs
  ∧ (∀ i ctl, cs !! i = Some ctl → aborted ctl = true → cs' !! i = Some ctl)
  ∧ (∀ i ctl', cs' !! i = Some ctl' →
       ∃ ctl, cs !! i = Some ctl ∧ listeners ctl' = listeners ctl).

Lemma evolves_refl cs : evolves cs cs.
Proof. repeat split; eauto. Qed.

Lemma evolves_trans cs1 cs2 cs3 :
  evolves cs1 cs2 → evolves cs2 cs3 → evolves cs1 cs3.
Proof.
  intros (L1 & P1 & A1 & S1) (L2 & P2 & A2 & S2).
  split; [congruence |]. split; [lia |]. split.
  - intros i ctl Hi Ha. apply A2; [by apply A1 | done].
  - intros i ctl3 H3. destruct (S2 _ _ H3) as (ctl2 & H2 & E2).
    destruct (S1 _ _ H2) as (ctl1 & H1 & E1).
    exists ctl1. split; [done | congruence].
Qed.

Lemma evolves_fire cs (c : loc) ctl r :
  cs !! c = Some ctl → aborted ctl = false →
  evolves cs (<[c := fired r ctl]> cs).
Proof.
  intros Hc Ha. split; [apply length_insert |]. split.
  { pose proof (pending_fire cs c ctl r Hc Ha). lia. }
  split.
  - intros i ctl0 Hi Hfired.
    destruct (decide (i = c)) as [->|Hne]; [congruence |].
    by rewrite list_lookup_insert_ne.
  - intros i ctl' Hi.
    destruct (decide (i = c)) as [->|Hne].
    + rewrite list_lookup_insert_eq in Hi by (by eapply lookup_lt_Some).
      injection Hi as <-. by exists ctl.
    + rewrite list_lookup_insert_ne in Hi by done. by exists ctl'.
Qed.

(** No controller that can still fire holds a bridge to [n]. *)
Definition noBridgeTo (n : loc) (cs : list AbortController) : Prop :=
  ∀ i ctl, cs !! i = Some ctl → aborted ctl = false →
           Bridge n ∉ listeners ctl.

Lemma noBridgeTo_evolves n cs cs' :
  evolves cs cs' → noBridgeTo n cs → noBridgeTo n cs'.
Proof.
  intros (_ & _ & Hab & Hls) Hno i ctl' Hi Ha.
  destruct (Hls _ _ Hi) as (ctl & Hc & ->).
  apply (Hno i ctl Hc).
  destruct (aborted ctl) eqn:E; [| done].
  specialize (Hab _ _ Hc E). congruence.
Qed.

(** What [abort] promises at a given depth. *)
Definition abortSpec (depth : nat) : Prop :=
  ∀ c r cs, pending cs < depth →
    ∃ cs', abort depth c r cs = Some cs'
           ∧ evolves cs cs'
           ∧ (∀ n, noBridgeTo n cs → c ≠ n → cs' !! n = cs !! n)
           ∧ (∀ ctl, cs !! c = Some ctl →
                ∃ ctl', cs' !! c = Some ctl' ∧ aborted ctl' = true
                        ∧ (aborted ctl = false → reason ctl' = Some r)).

Lemma dispatch_spec depth r :
  abortSpec depth →
  ∀ ls cs, pending cs < depth →
    ∃ cs', dispatch depth r ls cs = Some cs'
           ∧ evolves cs cs'
           ∧ (∀ n, noBridgeTo n cs → Bridge n ∉ ls → cs' !! n = cs !! n).
Proof.
  intros Hspec. induction ls as [|[t] ls IH]; intros cs Hp; simpl.
  - exists cs. split; [done |]. split; [apply evolves_refl | done].
  - assert (Hskip : ∃ cs', dispatch depth r ls cs = Some cs'
             ∧ evolves cs cs'
             ∧ (∀ n, noBridgeTo n cs → Bridge n ∉ Bridge t :: ls →
                     cs' !! n = cs !! n)).
    { destruct (IH cs Hp) as (cs' & E & Hev & Hfr). exists cs'.
      split; [done |]. split; [done |]. intros n Hno Hn. apply Hfr; [done |].
      intros Hin. apply Hn. by right. }
    destruct (cs !! t) as [tc|] eqn:Et; [| done].
    destruct (aborted tc) eqn:Ea; [done |].
    destruct (Hspec t r cs Hp) as (cs1 & E1 & Hev1 & Hfr1 & _).
    rewrite E1.
    assert (Hp1 : pending cs1 < depth) by (destruct Hev1 as (_ & ? & _); lia).
    destruct (IH cs1 Hp1) as (cs2 & E2 & Hev2 & Hfr2).
    exists cs2. split; [done |]. split; [by eapply evolves_trans |].
    intros n Hno Hn.
    rewrite Hfr2.
    + apply Hfr1; [done |]. intros ->. apply Hn. by left.
    + by eapply noBridgeTo_evolves.
    + intros Hin. apply Hn. by right.
Qed.

(** [abort] returns once the depth exceeds the number of controllers that
    have not fired: each nested call fires one more of them. *)
Lemma abort_spec depth : abortSpec depth.
Proof.
  induction depth as [|depth IH]; intros c r cs Hp; [lia |].
  rewrite abort_unfold.
  destruct (cs !! c) as [ctl|] eqn:Ec.
  2:{ exists cs. split; [done |]. split; [apply evolves_refl |].
      split; [done | intros ? [=]]. }
  destruct (aborted ctl) eqn:Ea.
  { exists cs. split; [done |]. split; [apply evolves_refl |].
    split; [done |]. intros ctl0 [= <-]. exists ctl. by rewrite Ea. }
  pose proof (pending_fire cs c ctl r Ec Ea) as Hpf.
  pose proof (evolves_fire cs c ctl r Ec Ea) as Hev0.
  set (cs1 := <[c := fired r ctl]> cs) in *.
  assert (Hp1 : pending cs1 < depth) by lia.
  destruct (dispatch_spec depth r IH (listeners ctl) cs1 Hp1)
    as (cs2 & E2 & Hev2 & Hfr2).
  exists cs2. split; [done |]. split; [by eapply evolves_trans |]. split.
  - intros n Hno Hn. rewrite Hfr2.
    + unfold cs1. by rewrite list_lookup_insert_ne.
    + by eapply noBridgeTo_evolves.
    + by apply (Hno c ctl).
  - intros ctl0 [= <-].
    assert (H1 : cs1 !! c = Some (fired r ctl)).
    { unfold cs1. apply list_lookup_insert_eq. by eapply lookup_lt_Some. }
    destruct Hev2 as (_ & _ & Hab & _).
    exists (fired r ctl). split; [by apply Hab |]. done.
Qed.

(** *** The factory's wiring *)

Definition newController : AbortController :=
  {| aborted := false; reason := None; listeners := [] |}.

Definition withListener (l : Listener) (c : AbortController)
    : AbortController :=
  {| aborted := aborted c; reason := reason c;
     listeners := listeners c ++ [l] |}.

(** Every bridge registered so far leads to a controller that exists. *)
Definition bridgesValid (cs : list AbortController) : Prop :=
  ∀ i ctl t, cs !! i = Some ctl → Bridge t ∈ listeners ctl → t < length cs.

(** The external signal handed in, if any, is one that exists. *)
Definition signalValid (cs : list AbortController)
    (options : option BaseGenerationOptions) : Prop :=
  ∀ e, options ≫= opt_abortSignal = Some e → e < length cs.

Lemma controllers_optBackfill src dst st :
  controllers (optBackfill src dst st) = controllers st.
Proof. by destruct src. Qed.

Lemma controllers_toContextMap c st :
  controllers (toContextMap c st).2 = controllers st.
Proof. by destruct c as [[m|f]|]. Qed.

Section Factory.
Variable operationUuid : nat → string.
Variable activeTriggerContext : option loc.
Variable self : Agent.

Abbreviation create := (createOperationContext operationUuid
                          activeTriggerContext self).

Lemma create_with_parent input options parent st :
  options ≫= opt_parentOperationContext = Some parent →
  abortController (create input options st).1 = abortController parent
  ∧ controllers (create input options st).2 = controllers st.
Proof.
  intros Hp. unfold createOperationContext. rewrite Hp.
  pose proof (controllers_toContextMap (options ≫= opt_context)
                (countOperation st)) as Hc.
  destruct (toContextMap (options ≫= opt_context) (countOperation st))
    as [rc st1]. simpl in Hc.
  destruct (Some parent ≫= conversationSteps) as [steps|]; simpl;
    by rewrite !controllers_optBackfill.
Qed.

Lemma create_without_parent input options st :
  options ≫= opt_parentOperationContext = None →
  abortController (create input options st).1 = length (controllers st)
  ∧ controllers (create input options st).2 =
      match options ≫= opt_abortSignal with
      | Some e =>
          match (controllers st ++ [newController]) !! e with
          | Some c =>
              <[e := withListener (Bridge (length (controllers st))) c]>
                (controllers st ++ [newController])
          | None => controllers st ++ [newController]
          end
      | None => controllers st ++ [newController]
      end.
Proof.
  intros Hp. unfold createOperationContext. rewrite Hp.
  pose proof (controllers_toContextMap (options ≫= opt_context)
                (countOperation st)) as Hc.
  destruct (toContextMap (options ≫= opt_context) (countOperation st))
    as [rc st1]. simpl in Hc.
  assert (Hctx : ∃ ctx st2,
    match rc with
    | Some context0 =>
        (context0, optBackfill (agent_context self) context0 st1)
    | None =>
        match agent_context self with
        | Some context0 => (context0, st1)
        | None => allocMap [] st1
        end
    end = (ctx, st2) ∧ controllers st2 = controllers st).
  { destruct rc as [c0|]; [| destruct (agent_context self)];
      eexists _, _; (split; [reflexivity |]); simpl;
      by rewrite ?controllers_optBackfill. }
  destruct Hctx as (ctx & st2 & -> & Hc2). simpl.
  rewrite !controllers_optBackfill, Hc2.
  destruct (options ≫= opt_abortSignal) as [e|]; simpl.
  - split; [done |]. fold newController.
    by destruct ((controllers st ++ [newController]) !! e).
  - done.
Qed.

(** Firing a freshly made controller touches no other controller. *)
Lemma abort_fresh_only depth why cs n :
  0 < depth → cs !! n = Some newController →
  ∃ cs', abort depth n why cs = Some cs' ∧ ∀ i, i ≠ n → cs' !! i = cs !! i.
Proof.
  intros Hd Hn. destruct depth as [|d]; [lia |].
  rewrite abort_unfold, Hn. simpl. eexists. split; [done |].
  intros i Hi. by rewrite list_lookup_insert_ne.
Qed.

(** Firing the external signal fires the controller bridged to it. *)
Lemma abort_bridged depth why cs e ext :
  bridgesValid cs → cs !! e = Some ext → aborted ext = false →
  let n := length cs in
  let cs' := <[e := withListener (Bridge n) ext]> (cs ++ [newController]) in
  pending cs' < depth →
  ∃ cs'', abort depth e why cs' = Some cs''
          ∧ ∃ ctl, cs'' !! n = Some ctl ∧ aborted ctl = true
                   ∧ reason ctl = Some why.
Proof.
  intros Hbv He Ha n cs' Hp.
  assert (Hlt : e < length cs) by (by eapply lookup_lt_Some).
  assert (He' : cs' !! e = Some (withListener (Bridge n) ext)).
  { unfold cs'. apply list_lookup_insert_eq. rewrite length_app. simpl. lia. }
  destruct depth as [|d]; [lia |].
  rewrite abort_unfold, He'. simpl. rewrite Ha.
  pose proof (pending_fire cs' e _ why He' Ha) as Hpf.
  set (cs1 := <[e := fired why (withListener (Bridge n) ext)]> cs') in *.
  assert (Hp1 : pending cs1 < d) by lia.
  assert (Hn1 : cs1 !! n = Some newController).
  { unfold cs1, cs'. rewrite !list_lookup_insert_ne by (unfold n; lia).
    by rewrite list_lookup_middle. }
  assert (Hno : noBridgeTo n cs1).
  { intros i ctl Hi Hai Hin.
    destruct (decide (i = e)) as [->|Hie].
    { unfold cs1 in Hi.
      rewrite list_lookup_insert_eq in Hi
        by (unfold cs'; rewrite length_insert, length_app; simpl; lia).
      injection Hi as <-. done. }
    unfold cs1, cs' in Hi. rewrite !list_lookup_insert_ne in Hi by done.
    destruct (decide (i < length cs)) as [Hil|Hil].
    - rewrite lookup_app_l in Hi by done.
      specialize (Hbv i ctl n Hi Hin). unfold n in Hbv. lia.
    - rewrite lookup_app_r in Hi by lia.
      destruct (i - length cs) as [|j]; simpl in Hi; [| done].
      injection Hi as <-. simpl in Hin. by apply not_elem_of_nil in Hin. }
  rewrite dispatch_app.
  destruct (dispatch_spec d why (abort_spec d) (listeners ext) cs1 Hp1)
    as (cs2 & E2 & Hev2 & Hfr2).
  rewrite E2.
  assert (Hn2 : cs2 !! n = Some newController).
  { rewrite Hfr2; [done | done |].
    intros Hin. specialize (Hbv e ext n He Hin). unfold n in Hbv. lia. }
  simpl. rewrite Hn2. simpl.
  assert (Hp2 : pending cs2 < d) by (destruct Hev2 as (_ & ? & _); lia).
  destruct (abort_spec d n why cs2 Hp2) as (cs3 & E3 & _ & _ & Hpost).
  rewrite E3. exists cs3. split; [done |].
  destruct (Hpost _ Hn2) as (ctl & Hc & Hf & Hr).
  exists ctl. split; [done |]. split; [done |]. by apply Hr.
Qed.

(** C7: the factory reuses the parent's abort controller whenever there
    is a parent operation context, so that one controller serves the whole
    delegation chain and no listener is added; otherwise it makes a new
    controller.  An external signal is bridged only in the latter case:
    when it fires, the new controller is aborted with the same reason.
    Aborting the new controller touches no other controller, the external
    signal's included. *)
Theorem abort_controller_wiring input options st :
  bridgesValid (controllers st) →
  signalValid (controllers st) options →
  let r := create input options st in
  let cs := controllers st in
  let n := length cs in
  match options ≫= opt_parentOperationContext with
  | Some parent =>
      abortController r.1 = abortController parent
      ∧ controllers r.2 = cs
  | None =>
      abortController r.1 = n
      ∧ controllers r.2 !! n = Some newController
      ∧ (∀ why depth, 0 < depth →
           ∃ cs', abort depth n why (controllers r.2) = Some cs'
                  ∧ ∀ i, i ≠ n → cs' !! i = controllers r.2 !! i)
      ∧ match options ≫= opt_abortSignal with
        | None => controllers r.2 = cs ++ [newController]
        | Some e =>
            ∀ ext, cs !! e = Some ext →
              controllers r.2 =
                <[e := withListener (Bridge n) ext]> (cs ++ [newController])
              ∧ (aborted ext = false →
                 ∀ why depth, pending (controllers r.2) < depth →
                   ∃ cs', abort depth e why (controllers r.2) = Some cs'
                          ∧ ∃ ctl, cs' !! n = Some ctl
                                   ∧ aborted ctl = true
                                   ∧ reason ctl = Some why)
        end
  end.
Proof.
  intros Hbv Hsv. cbv zeta.
  destruct (options ≫= opt_parentOperationContext) as [parent|] eqn:Hp.
  { by apply create_with_parent. }
  destruct (create_without_parent input options st Hp) as [Hac Hcs].
  split; [done |].
  assert (Hn : controllers (create input options st).2
                 !! length (controllers st) = Some newController).
  { rewrite Hcs. destruct (options ≫= opt_abortSignal) as [e|] eqn:He.
    - specialize (Hsv e He).
      rewrite lookup_app_l by done.
      destruct (controllers st !! e) as [ext|] eqn:Hext.
      + rewrite list_lookup_insert_ne by lia. by rewrite list_lookup_middle.
      + by rewrite list_lookup_middle.
    - by rewrite list_lookup_middle. }
  split; [done |]. split.
  { intros why depth Hd. by apply abort_fresh_only. }
  destruct (options ≫= opt_abortSignal) as [e|] eqn:He; [| done].
  intros ext Hext. specialize (Hsv e He).
  assert (Hcs' : controllers (create input options st).2 =
            <[e := withListener (Bridge (length (controllers st))) ext]>
              (controllers st ++ [newController])).
  { rewrite Hcs. by rewrite lookup_app_l, Hext. }
  split; [done |]. intros Ha why depth Hd. rewrite Hcs' in *.
  by apply abort_bridged.
Qed.

End Factory.

(** *** A call with a timeout signal *)

(** One controller exists: the caller's, whose signal is passed in. *)
Definition callerStore : Store :=
  {| maps := []; controllers := [newController]; stepArrays := [];
     operationsCreated := 0 |}.

Definition timeoutOptions : BaseGenerationOptions :=
  {| opt_context := None;
     opt_parentOperationContext := None;
     opt_abortSignal := Some 0;
     opt_userId := None;
     opt_conversationId := None;
     opt_parentAgentId := None |}.

Definition plainAgent : Agent :=
  {| agent_id := "a"; agent_name := "A"; agent_context := None |}.

Definition afterCreate : OperationContext * Store :=
  createOperationContext (λ n, "op-" +:+ pretty n) None plainAgent
    (JStr "hi") (Some timeoutOptions) callerStore.

(** The caller's signal fires with ["timeout"]: the operation's controller
    (address 1) is aborted with that reason; aborting the operation's
    controller instead leaves the caller's signal alone. *)
Lemma timeout_reaches_operation :
  (abort 3 0 (JStr "timeout") (controllers afterCreate.2) ≫= (.!! 1))
    = Some {| aborted := true; reason := Some (JStr "timeout");
              listeners := [] |}
  ∧ (abort 3 1 (JStr "stop") (controllers afterCreate.2) ≫= (.!! 0))
    = Some (withListener (Bridge 1) newController).
Proof. vm_compute. done. Qed.

Lemma bridgesValid_callerStore : bridgesValid (controllers callerStore).
Proof.
  intros i ctl t Hi Hin. destruct i as [|i]; simpl in Hi; [| done].
  injection Hi as <-. simpl in Hin. by apply not_elem_of_nil in Hin.
Defined.

Lemma signalValid_callerStore :
  signalValid (controllers callerStore) (Some timeoutOptions).
Proof. intros e [= <-]. simpl. lia. Defined.

(** C7, witness: the theorem at the call with a timeout signal. *)
Lemma abort_controller_wiring_witness :
  bridgesValid (controllers callerStore)
  ∧ signalValid (controllers callerStore) (Some timeoutOptions)
  ∧ (abortController afterCreate.1 = 1
     ∧ controllers afterCreate.2 !! 1 = Some newController
     ∧ (∀ why depth, 0 < depth →
          ∃ cs', abort depth 1 why (controllers afterCreate.2) = Some cs'
                 ∧ ∀ i, i ≠ 1 → cs' !! i = controllers afterCreate.2 !! i)
     ∧ (∀ ext, controllers callerStore !! 0 = Some ext →
          controllers afterCreate.2 =
            <[0 := withListener (Bridge 1) ext]>
              (controllers callerStore ++ [newController])
          ∧ (aborted ext = false →
             ∀ why depth, pending (controllers afterCreate.2) < depth →
               ∃ cs', abort depth 0 why (controllers afterCreate.2) = Some cs'
                      ∧ ∃ ctl, cs' !! 1 = Some ctl
                               ∧ aborted ctl = true
                               ∧ reason ctl = Some why))).
Proof.
  split; [exact bridgesValid_callerStore |].
  split; [exact signalValid_callerStore |].
  exact (abort_controller_wiring (λ n, "op-" +:+ pretty n) None plainAgent
           (JStr "hi") (Some timeoutOptions) callerStore
           bridgesValid_callerStore signalValid_callerStore).
Defined.

End AbortProps.

(** ** Error payloads: sanitising values *)
Module ErrorUtilsProps.
Import Js ErrorUtils.

(** *** Substrings *)

Lemma startsWith_app n : ∀ a b,
  startsWith n a = true → startsWith n (a +:+ b) = true.
Proof.
  induction n as [|c n IH]; intros a b Hp; [reflexivity |].
  destruct a as [|c' a]; [done |].
  change (String c' a +:+ b) with (String c' (a +:+ b)).
  cbn [startsWith] in *. apply andb_true_iff in Hp as [Hc Hp].
  by rewrite Hc, (IH a b Hp).
Qed.

Lemma includes_app_l n : ∀ a b,
  includes n a = true → includes n (a +:+ b) = true.
Proof.
  induction a as [|c a IH]; intros b Hi.
  - cbn [includes] in Hi. rewrite orb_false_r in Hi.
    destruct n; [by destruct b | done].
  - change (String c a +:+ b) with (String c (a +:+ b)).
    cbn [includes] in *. apply orb_true_iff in Hi as [Hp|Hi].
    + pose proof (startsWith_app n (String c a) b Hp) as Hp'.
      change (String c a +:+ b) with (String c (a +:+ b)) in Hp'.
      by rewrite Hp'.
    + rewrite (IH b Hi). apply orb_true_r.
Qed.

Lemma includes_app_r n : ∀ a b,
  includes n b = true → includes n (a +:+ b) = true.
Proof.
  induction a as [|c a IH]; intros b Hi; [done |].
  change (String c a +:+ b) with (String c (a +:+ b)).
  cbn [includes]. rewrite (IH b Hi). apply orb_true_r.
Qed.

Lemma includes_concat n sep (l : list string) s :
  s ∈ l → includes n s = true → includes n (String.concat sep l) = true.
Proof.
  intros Hin Hs. induction Hin as [s l|s s' l Hin IH].
  - destruct l as [|s2 l]; simpl; [done |]. by apply includes_app_l.
  - destruct l as [|s2 l]; [by apply elem_of_nil in Hin |].
    change (String.concat sep (s' :: s2 :: l))
      with (s' +:+ sep +:+ String.concat sep (s2 :: l)).
    apply includes_app_r, includes_app_r, IH, Hs.
Qed.

Lemma includes_quoted_marker :
  includes circularMarker (quote circularMarker) = true.
Proof. reflexivity. Qed.

(** *** The serialiser returns *)

Lemma bounded_length (seen : list addr) n :
  NoDup seen → (∀ x, x ∈ seen → x < n) → length seen ≤ n.
Proof.
  intros Hnd Hb.
  assert (Hsub : seen ⊆+ seq 0 n).
  { apply NoDup_submseteq; [done |]. intros x Hx. apply elem_of_seq.
    specialize (Hb x Hx). lia. }
  apply submseteq_length in Hsub. by rewrite length_seq in Hsub.
Qed.

Lemma stringifyAt_ref fuel h seen a :
  a ∉ seen →
  stringifyAt (S fuel) h seen (VRef a) =
    let inner := stringifyAt fuel h (a :: seen) in
    let member (kv : string * Value) : option string :=
      (λ s, quote kv.1 +:+ ":" +:+ s) <$> inner kv.2 in
    let object (fields : list (string * Value)) : option string :=
      (λ ms, "{" +:+ String.concat "," ms +:+ "}")
        <$> mapM member (List.filter (λ kv, keepsProperty kv.2) fields) in
    match h !! a with
    | None => Some "null"
    | Some (OPlain fields) => object fields
    | Some (OArray items) =>
        (λ ss, "[" +:+ String.concat "," ss +:+ "]") <$> mapM inner items
    | Some (OError e) => object (err_props e)
    | Some (ODate iso) =>
        Some (match iso with Some i => quote i | None => "null" end)
    | Some OMapOrSet => Some "{}"
    end.
Proof. intros Hn. cbn [stringifyAt]. by rewrite bool_decide_eq_false_2. Qed.

(** Enough fuel: more than the objects of the heap that are not yet in the
    chain.  The chain never repeats an object, so the nesting ends. *)
Lemma stringifyAt_total fuel h : ∀ seen v,
  NoDup seen → (∀ x, x ∈ seen → x < length h) →
  length h < fuel + length seen →
  is_Some (stringifyAt fuel h seen v).
Proof.
  induction fuel as [|fuel IH]; intros seen v Hnd Hb Hf.
  - pose proof (bounded_length seen (length h) Hnd Hb). simpl in Hf. lia.
  - destruct v as [| | | | | |a]; try (by eexists).
    destruct (decide (a ∈ seen)) as [Hin|Hin].
    { cbn [stringifyAt]. rewrite bool_decide_eq_true_2 by done. by eexists. }
    rewrite stringifyAt_ref by done. cbv zeta.
    destruct (h !! a) as [o|] eqn:Ha; [| by eexists].
    assert (Hinner : ∀ w, is_Some (stringifyAt fuel h (a :: seen) w)).
    { intros w. apply IH.
      - by constructor.
      - intros x [->|Hx]%elem_of_cons; [by eapply lookup_lt_Some | by apply Hb].
      - simpl. lia. }
    assert (Hobj : ∀ fields, is_Some
      ((λ ms, "{" +:+ String.concat "," ms +:+ "}") <$>
         mapM (λ kv : string * Value,
                 (λ s, quote kv.1 +:+ ":" +:+ s)
                   <$> stringifyAt fuel h (a :: seen) kv.2)
           (List.filter (λ kv, keepsProperty kv.2) fields))).
    { intros fields. apply fmap_is_Some, mapM_is_Some, Forall_forall.
      intros kv _. apply fmap_is_Some, Hinner. }
    destruct o as [fields|items|e|iso|]; try (by eexists); try apply Hobj.
    apply fmap_is_Some, mapM_is_Some, Forall_forall. intros w _. apply Hinner.
Qed.

(** *** References back into the chain get the marker *)

(** From [b] the serialiser, already inside the objects [seen], comes upon
    a reference to one of the objects it is inside of. *)
Inductive hits (h : Heap) : list addr → addr → Prop :=
  | hits_here seen b : b ∈ seen → hits h seen b
  | hits_step seen b c :
      b ∉ seen → pointsTo h b c → hits h (b :: seen) c → hits h seen b.

Lemma rtc_hits h b t :
  rtc (pointsTo h) b t → ∀ seen, t ∈ seen → hits h seen b.
Proof.
  induction 1 as [b|b c t Hbc Hct IH]; intros seen Ht.
  - by apply hits_here.
  - destruct (decide (b ∈ seen)) as [Hin|Hin]; [by apply hits_here |].
    apply (hits_step h seen b c); [done | done |].
    apply IH. by right.
Qed.

Lemma selfReferencing_hits h a : selfReferencing h a → hits h [] a.
Proof.
  unfold selfReferencing. intros Htc.
  assert (Hex : ∃ c, pointsTo h a c ∧ rtc (pointsTo h) c a).
  { inversion Htc as [? ? Hr|? c ? Hr Ht]; subst.
    - exists a. split; [done | apply rtc_refl].
    - exists c. split; [done | by apply tc_rtc]. }
  destruct Hex as (c & Hac & Hca).
  apply (hits_step h [] a c); [apply not_elem_of_nil | done |].
  apply (rtc_hits h c a Hca). by left.
Qed.

Lemma member_marked (inner : Value → option string)
    (fields : list (string * Value)) c ms :
  (∀ s, inner (VRef c) = Some s → includes circularMarker s = true) →
  VRef c ∈ snd <$> fields →
  mapM (λ kv : string * Value, (λ s, quote kv.1 +:+ ":" +:+ s) <$> inner kv.2)
    (List.filter (λ kv, keepsProperty kv.2) fields) = Some ms →
  includes circularMarker
    ("{" +:+ String.concat "," ms +:+ "}") = true.
Proof.
  intros Hc Hin Hm.
  apply list_elem_of_fmap in Hin as ([k v] & Hv & Hin). simpl in Hv. subst v.
  assert (Hf : (k, VRef c) ∈ List.filter (λ kv, keepsProperty kv.2) fields).
  { apply list_elem_of_In, filter_In. split; [by apply list_elem_of_In | done]. }
  apply mapM_Some in Hm.
  apply list_elem_of_lookup in Hf as (i & Hi).
  destruct (Forall2_lookup_l _ _ _ _ _ Hm Hi) as (m & Hmi & Hfm).
  simpl in Hfm. apply fmap_Some in Hfm as (sc & Hsc & ->).
  apply includes_app_r, includes_app_l.
  apply (includes_concat _ _ _ (quote k +:+ ":" +:+ sc)).
  - apply list_elem_of_lookup. by exists i.
  - apply includes_app_r, includes_app_r. by apply Hc.
Qed.

Lemma stringifyAt_hits h seen b :
  hits h seen b →
  ∀ fuel s, stringifyAt fuel h seen (VRef b) = Some s →
            includes circularMarker s = true.
Proof.
  induction 1 as [seen b Hin|seen b c Hnin (o & Hb & Hc) Hhits IH];
    intros fuel s Hs.
  - destruct fuel; cbn [stringifyAt] in Hs;
      rewrite bool_decide_eq_true_2 in Hs by done;
      injection Hs as <-; apply includes_quoted_marker.
  - destruct fuel as [|fuel].
    { cbn [stringifyAt] in Hs. by rewrite bool_decide_eq_false_2 in Hs. }
    rewrite stringifyAt_ref in Hs by done. cbv zeta in Hs. rewrite Hb in Hs.
    destruct o as [fields|items|e|iso|]; simpl in Hc.
    + apply fmap_Some in Hs as (ms & Hm & ->).
      by apply (member_marked _ fields c ms (IH fuel)).
    + apply fmap_Some in Hs as (ss & Hm & ->).
      apply mapM_Some in Hm.
      apply list_elem_of_lookup in Hc as (i & Hi).
      destruct (Forall2_lookup_l _ _ _ _ _ Hm Hi) as (sc & Hsi & Hsc).
      apply includes_app_r, includes_app_l.
      apply (includes_concat _ _ _ sc); [| by apply (IH fuel)].
      apply list_elem_of_lookup. by exists i.
    + apply fmap_Some in Hs as (ms & Hm & ->).
      by apply (member_marked _ (err_props e) c ms (IH fuel)).
    + by apply elem_of_nil in Hc.
    + by apply elem_of_nil in Hc.
Qed.

(** Modelled [safeStringify] never throws, and marks a self-reference. *)
Lemma safeStringify_ref h a :
  ∃ s, safeStringify h (VRef a) = Ok (JStr s)
       ∧ (selfReferencing h a → includes circularMarker s = true).
Proof.
  unfold safeStringify.
  destruct (stringifyAt_total (S (length h)) h [] (VRef a)) as [s Hs].
  - constructor.
  - intros x Hx. by apply elem_of_nil in Hx.
  - simpl. lia.
  - rewrite Hs. exists s. split; [done |]. intros Hself.
    eapply stringifyAt_hits; [by apply selfReferencing_hits | exact Hs].
Qed.

(** C9 (as amended): for every plain object (not an array, an [Error], a
    [Date], a [Map] or a [Set]) that contains a self-reference,
    [sanitizeErrorValue] returns, and returns a string that contains the
    marker [[Circular]]. *)
Theorem plain_self_reference_is_marked depth h a fields :
  h !! a = Some (OPlain fields) →
  selfReferencing h a →
  0 < depth →
  markedString (sanitizeErrorValue depth h (VRef a)).
Proof.
  intros Ha Hself Hd. destruct depth as [|depth]; [lia |].
  cbn [sanitizeErrorValue]. rewrite Ha. unfold stringifyOrString.
  destruct (safeStringify_ref h a) as (s & -> & Hm).
  exists s. split; [done | by apply Hm].
Qed.

(** A cyclic array exhausts the call stack, whatever room there is. *)
Lemma cyclic_array_overflows depth :
  sanitizeErrorValue depth [OArray [VRef 0]] (VRef 0) = Thrown "RangeError".
Proof.
  induction depth as [|depth IH]; [done |].
  cbn [sanitizeErrorValue]. simpl. by rewrite IH.
Qed.

(** *** An error that refers to itself *)

Definition selfError : JsError :=
  {| err_name := "Error"; err_message := "boom";
     err_stack := Some "Error: boom";
     err_props := [("self", VRef 0)] |}.

(** C9, counterexample: [const e = new Error("boom"); e.self = e].  The
    value contains a self-reference, and sanitising it gives the object
    [{ name, message, stack }], not a string. *)
Lemma error_self_reference_not_marked :
  selfReferencing [OError selfError] 0
  ∧ sanitizeErrorValue 8 [OError selfError] (VRef 0)
    = Ok (JObj [("name", JStr "Error"); ("message", JStr "boom");
                ("stack", JStr "Error: boom")])
  ∧ ¬ markedString (sanitizeErrorValue 8 [OError selfError] (VRef 0)).
Proof.
  split; [| split].
  - apply tc_once. exists (OError selfError). split; [done |].
    simpl. by left.
  - reflexivity.
  - intros (s & Hs & _). discriminate Hs.
Qed.

(** C9, witness: [const circular = {}; circular.self = circular]. *)
Lemma plain_self_reference_is_marked_witness :
  [OPlain [("self", VRef 0)]] !! 0 = Some (OPlain [("self", VRef 0)])
  ∧ selfReferencing [OPlain [("self", VRef 0)]] 0
  ∧ 0 < 8
  ∧ markedString (sanitizeErrorValue 8 [OPlain [("self", VRef 0)]] (VRef 0)).
Proof.
  assert (Hs : selfReferencing [OPlain [("self", VRef 0)]] 0).
  { apply tc_once. exists (OPlain [("self", VRef 0)]). split; [done |].
    simpl. by left. }
  refine (conj eq_refl (conj Hs (conj _ _))); [lia |].
  apply (plain_self_reference_is_marked 8 [OPlain [("self", VRef 0)]] 0
           [("self", VRef 0)] eq_refl Hs). lia.
Defined.

End ErrorUtilsProps.

(** ** Tool execution wrapper *)
Module ToolExecutionProps.
Import Js Effects ErrorUtils Hooks ToolExecution ErrorUtilsProps.

(** *** The error payload *)

Lemma assoc_payload_objSet (k key : string) v obj :
  assoc k (objSet key v obj) = if String.eqb k key then Some v else assoc k obj.
Proof.
  induction obj as [|[k0 v0] obj IH]; simpl.
  - by destruct (String.eqb k key).
  - destruct (String.eqb_spec key k0) as [->|Hne]; simpl.
    + by destruct (String.eqb_spec k k0).
    + rewrite IH. destruct (String.eqb_spec k key) as [->|Hne2]; [| done].
      by destruct (String.eqb_spec key k0).
Qed.

Lemma stringifyOrString_ok h v : ∃ out, stringifyOrString h v = Ok out.
Proof. unfold stringifyOrString. destruct (safeStringify h v); by eexists. Qed.

Lemma mapResult_ok {A B} (f : A → Result B) l :
  Forall (λ x, ∃ y, f x = Ok y) l → ∃ ys, mapResult f l = Ok ys.
Proof.
  induction 1 as [|x l [y Hy] _ [ys Hys]]; simpl; [by eexists |].
  rewrite Hy. simpl. rewrite Hys. simpl. by eexists.
Qed.

(** With the stack room the value asks for, sanitising returns. *)
Lemma sanitizeErrorValue_fits depth h : ∀ v,
  fits depth h v → ∃ out, sanitizeErrorValue depth h v = Ok out.
Proof.
  induction depth as [|depth IH]; intros v Hf; [done |].
  destruct v as [| | | | | |a]; try (by eexists).
  cbn [sanitizeErrorValue]. cbn [fits] in Hf.
  destruct (h !! a) as [[fields|items|e|[iso|]|]|]; try (by destruct Hf);
    try (eexists; reflexivity); try apply stringifyOrString_ok.
  - destruct (mapResult_ok (sanitizeErrorValue depth h) items) as [ys Hys].
    { eapply Forall_impl; [exact Hf |]. intros x Hx. by apply IH. }
    rewrite Hys. by eexists.
  - destruct (safeStringify_ref h a) as (s & Hs & _). by eexists.
Qed.

(** The fields every error payload carries.  [toolCallId] and [toolName]
    are the call's own unless the error has an own property of that name,
    which the copy loop then writes over them. *)
Definition payloadComplete (payload : list (string * JsValue))
    (error : JsError) (toolCallId toolName : string) : Prop :=
  assoc "error" payload = Some (JBool true)
  ∧ assoc "name" payload = Some (JStr (err_name error))
  ∧ assoc "message" payload = Some (JStr (err_message error))
  ∧ assoc "stack" payload
    = Some (match err_stack error with
            | Some s => JStr s
            | None => JUndefined
            end)
  ∧ is_Some (assoc "toolCallId" payload)
  ∧ is_Some (assoc "toolName" payload)
  ∧ ("toolCallId" ∉ (fst <$> err_props error) →
     assoc "toolCallId" payload = Some (JStr toolCallId))
  ∧ ("toolName" ∉ (fst <$> err_props error) →
     assoc "toolName" payload = Some (JStr toolName)).

Lemma copyOwnProperties_ok depth h props : ∀ acc,
  Forall (λ kv, fits depth h kv.2) props →
  ∃ p, copyOwnProperties depth h props acc = Ok p
       ∧ (∀ k, isReserved k = true → assoc k p = assoc k acc)
       ∧ (∀ k, is_Some (assoc k acc) → is_Some (assoc k p))
       ∧ (∀ k, k ∉ (fst <$> props) → assoc k p = assoc k acc).
Proof.
  induction props as [|[key value] props IH]; intros acc Hf; simpl.
  - exists acc. by repeat split.
  - apply Forall_cons in Hf as [Hv Hf]. simpl in Hv.
    assert (Hskip : ∃ p, copyOwnProperties depth h props acc = Ok p
       ∧ (∀ k, isReserved k = true → assoc k p = assoc k acc)
       ∧ (∀ k, is_Some (assoc k acc) → is_Some (assoc k p))
       ∧ (∀ k, k ∉ key :: (fst <$> props) → assoc k p = assoc k acc)).
    { destruct (IH acc Hf) as (p & E & H1 & H2 & H3). exists p.
      split; [done |]. split; [done |]. split; [done |].
      intros k Hk. apply H3. intros Hin. apply Hk. by right. }
    destruct (isReserved key || negb (keepsProperty value)) eqn:Eskip;
      [done |].
    apply orb_false_iff in Eskip as [Hres _].
    destruct (sanitizeErrorValue_fits depth h value Hv) as [out Hout].
    rewrite Hout. simpl.
    destruct (IH (objSet key out acc) Hf) as (p & E & H1 & H2 & H3).
    exists p. split; [done |]. split; [| split].
    + intros k Hk. rewrite (H1 k Hk), assoc_payload_objSet.
      destruct (String.eqb_spec k key) as [->|]; [congruence | done].
    + intros k Hk. apply H2. rewrite assoc_payload_objSet.
      by destruct (String.eqb k key).
    + intros k Hk. rewrite H3, assoc_payload_objSet.
      * destruct (String.eqb_spec k key) as [->|]; [| done].
        exfalso. apply Hk. by left.
      * intros Hin. apply Hk. by right.
Qed.

Lemma assoc_elem_of {A} k (l : list (string * A)) v :
  assoc k l = Some v → (k, v) ∈ l.
Proof.
  induction l as [|[k0 v0] l IH]; simpl; [done |].
  destruct (String.eqb_spec k k0) as [->|Hne].
  - intros [= ->]. by left.
  - intros Hl. right. by apply IH.
Qed.

(** When the error's own properties can be sanitised within the stack
    room, the payload is built and carries the six fields. *)
Lemma buildToolErrorResult_ok depth h error toolCallId toolName :
  Forall (λ kv, fits depth h kv.2) (err_props error) →
  ∃ payload,
    buildToolErrorResult depth h error toolCallId toolName = Ok payload
    ∧ payloadComplete payload error toolCallId toolName.
Proof.
  intros Hf. unfold buildToolErrorResult. cbv zeta.
  set (base := [("error", JBool true); _; _; _; _; _]).
  assert (Hcause : ∃ r, match default VUndefined
                                (assoc "cause" (err_props error)) with
     | VUndefined => Ok base
     | VRef a =>
         match h !! a with
         | Some (OError c) => Ok (objSet "cause" (errorSummary c) base)
         | _ =>
             resultBind (sanitizeErrorValue depth h
                           (default VUndefined
                              (assoc "cause" (err_props error))))
               (λ c, Ok (objSet "cause" c base))
         end
     | _ =>
         resultBind (sanitizeErrorValue depth h
                       (default VUndefined (assoc "cause" (err_props error))))
           (λ c, Ok (objSet "cause" c base))
     end = Ok r
     ∧ ∀ k, k ≠ "cause" → assoc k r = assoc k base).
  { destruct (assoc "cause" (err_props error)) as [cause|] eqn:Ec; simpl.
    2:{ by exists base. }
    assert (Hc : fits depth h cause).
    { apply assoc_elem_of in Ec. rewrite Forall_forall in Hf.
      by apply (Hf _ Ec). }
    destruct (sanitizeErrorValue_fits depth h cause Hc) as [out Hout].
    assert (Hset : ∀ v k, k ≠ "cause" →
              assoc k (objSet "cause" v base) = assoc k base).
    { intros v k Hk. rewrite assoc_payload_objSet.
      by destruct (String.eqb_spec k "cause"). }
    destruct cause as [| | | | | |a]; rewrite ?Hout; simpl;
      try (eexists; split; [reflexivity | by apply Hset]).
    - by exists base.
    - destruct (h !! a) as [[| |c| |]|]; rewrite ?Hout; simpl;
        eexists; (split; [reflexivity | by apply Hset]). }
  destruct Hcause as (r & Hr & Hsame).
  match goal with |- context [resultBind ?m _] => change m with
    (match default VUndefined (assoc "cause" (err_props error)) with
     | VUndefined => Ok base
     | VRef a =>
         match h !! a with
         | Some (OError c) => Ok (objSet "cause" (errorSummary c) base)
         | _ =>
             resultBind (sanitizeErrorValue depth h
                           (default VUndefined
                              (assoc "cause" (err_props error))))
               (λ c, Ok (objSet "cause" c base))
         end
     | _ =>
         resultBind (sanitizeErrorValue depth h
                       (default VUndefined (assoc "cause" (err_props error))))
           (λ c, Ok (objSet "cause" c base))
     end) end.
  rewrite Hr. simpl.
  destruct (copyOwnProperties_ok depth h (err_props error) r Hf)
    as (p & Hp & Hres & Hsome & Hnot).
  exists p. split; [done |]. unfold payloadComplete.
  rewrite !Hres by done. rewrite !Hsame by done.
  split; [done |]. split; [done |]. split; [done |]. split; [done |].
  split; [apply Hsome; rewrite Hsame by done; by eexists |].
  split; [apply Hsome; rewrite Hsame by done; by eexists |].
  split; intros Hn; by rewrite (Hnot _ Hn), Hsame.
Qed.

(** *** The wrapped tool function *)

Section Wrapper.
Context {U : Type}.
Variable uuid : nat → string.
Variable stackDepth : nat.
Variable stringOfThrown : Value → Eff U string.
Variable isToolDeniedError : Heap → Value → bool.

Implicit Types w : World U.
Implicit Types hooks : ToolHooks U.
Implicit Types tool : Tool U.

Abbreviation wrapped :=
  (createToolExecutionFactory uuid stackDepth stringOfThrown
     isToolDeniedError).
Abbreviation errorOf := (toError stringOfThrown).

Definition optionsFor tool (callId : string) : ToolExecuteOptions :=
  {| teo_name := tool_name tool; teo_callId := callId |}.

Definition voltAgentErrorFor tool (args : Value) (callId : string)
    (error : JsError) : VoltAgentError :=
  {| vae_error := error;
     vae_stage := "tool_execution";
     vae_toolCallId := callId;
     vae_toolName := tool_name tool;
     vae_toolArguments := args |}.

Lemma wrapped_unfold hooks tool args toolCallId w :
  wrapped hooks tool args toolCallId w =
    match resolveCallId uuid toolCallId w with
    | Returned w0 callId =>
        match tryBlock hooks tool args (optionsFor tool callId) w0 with
        | Returned w1 v => Returned w1 v
        | Threw w1 e =>
            catchBlock stackDepth stringOfThrown isToolDeniedError hooks tool
              args (optionsFor tool callId) callId e w1
        end
    | Threw w0 e => Threw w0 e
    end.
Proof.
  unfold createToolExecutionFactory, bind, tryCatch.
  by destruct (resolveCallId uuid toolCallId w).
Qed.


(** An [Error] that was thrown is taken as it is, and nothing runs. *)
Lemma toError_of_error e w error :
  asError (heap w) e = Some error → errorOf e w = Returned w error.
Proof. intros E. unfold toError, bind, get. by rewrite E. Qed.

(** Any other thrown value is converted with [String(e)]. *)
Lemma toError_of_other e w :
  asError (heap w) e = None →
  errorOf e w = match stringOfThrown e w with
                | Returned w' message => Returned w' (newError message)
                | Threw w' x => Threw w' x
                end.
Proof. intros E. unfold toError, bind, get. by rewrite E. Qed.

(** When the thrown value is not an [Error] and [String(e)] throws, the
    [catch] block is left by that exception: the wrapped function throws. *)
Lemma unconvertible_value_propagates hooks tool args toolCallId
    w w0 callId w1 e w1' x :
  resolveCallId uuid toolCallId w = Returned w0 callId →
  tryBlock hooks tool args (optionsFor tool callId) w0 = Threw w1 e →
  asError (heap w1) e = None →
  stringOfThrown e w1 = Threw w1' x →
  wrapped hooks tool args toolCallId w = Threw w1' x.
Proof.
  intros Hid Htry He Hs.
  rewrite wrapped_unfold, Hid, Htry. unfold catchBlock, bind at 1.
  by rewrite (toError_of_other _ _ He), Hs.
Qed.

(** C2 (as amended): whenever the [try] block of the wrapped function
    throws (the pre-execution hook, [execute], the output validation), the
    thrown value is an [Error] or one that [String(e)] converts without
    throwing, the error's own properties can be sanitised within the call
    stack (no cyclic array, no invalid [Date]) and the [onToolEnd] hook
    called with the error completes without throwing, the wrapped function
    does not throw: it returns the payload built from the error and the call
    identifiers, with [error: true], [name], [message], [stack],
    [toolCallId] and [toolName].  The error is the thrown value itself when
    that is an [Error], and [new Error(String(e))] otherwise. *)
Theorem tool_failure_returns_payload hooks tool args toolCallId
    w w0 callId w1 e w1' error w2 r :
  resolveCallId uuid toolCallId w = Returned w0 callId →
  tryBlock hooks tool args (optionsFor tool callId) w0 = Threw w1 e →
  errorOf e w1 = Returned w1' error →
  Forall (λ kv, fits stackDepth (heap w1') kv.2) (err_props error) →
  callHook (onToolEnd hooks)
    (ToolEndArgs tool None
       (Some (voltAgentErrorFor tool args callId error))
       (optionsFor tool callId)) w1' = Returned w2 r →
  ∃ payload,
    wrapped hooks tool args toolCallId w =
      Returned (if isToolDeniedError (heap w2) e then abortWith e w2 else w2)
        (ErrorResult payload)
    ∧ buildToolErrorResult stackDepth (heap w1') error callId (tool_name tool)
      = Ok payload
    ∧ payloadComplete payload error callId (tool_name tool)
    ∧ (∀ thrown, asError (heap w1) e = Some thrown →
                 w1' = w1 ∧ error = thrown)
    ∧ (asError (heap w1) e = None →
       ∃ message, stringOfThrown e w1 = Returned w1' message
                  ∧ error = newError message).
Proof.
  intros Hid Htry Herr Hfits Hend.
  destruct (buildToolErrorResult_ok stackDepth (heap w1') error
              callId (tool_name tool) Hfits) as (payload & Hp & Hc).
  exists payload. split; [| split; [done | split; [done | split]]].
  - rewrite wrapped_unfold, Hid, Htry. unfold catchBlock, bind at 1.
    rewrite Herr. unfold bind at 1, get. rewrite Hp.
    unfold bind at 1.
    fold (voltAgentErrorFor tool args callId error).
    rewrite Hend. unfold bind, get.
    by destruct (isToolDeniedError (heap w2) e).
  - intros thrown He. rewrite (toError_of_error _ _ _ He) in Herr.
    by injection Herr as <- <-.
  - intros He. rewrite (toError_of_other _ _ He) in Herr.
    destruct (stringOfThrown e w1) as [w' message|w' x]; [| done].
    injection Herr as <- <-. by exists message.
Qed.


End Wrapper.

(** *** Concrete tool calls *)

Definition startWorld : World unit :=
  {| heap := []; abortedWith := None; uuidsDrawn := 0; user := tt |}.

(** [String(e)] in the calls below: primitives and functions as
    JavaScript prints them (numbers are integers here); every object is
    taken to be one without a usable [toString], for which the conversion
    throws a [TypeError]. *)
Definition conversionError : JsError :=
  {| err_name := "TypeError";
     err_message := "Cannot convert object to primitive value";
     err_stack := Some "TypeError: Cannot convert object to primitive value";
     err_props := [] |}.

Definition demoString (e : Value) : Eff unit string :=
  match e with
  | VUndefined => ret "undefined"
  | VNull => ret "null"
  | VBool b => ret (if b then "true" else "false")
  | VNum z => ret (pretty z)
  | VStr s => ret s
  | VFunction source => ret source
  | VRef _ => throwError conversionError
  end.

Definition demoWrapped :=
  createToolExecutionFactory (U := unit) (λ n, "call-" +:+ pretty n) 64
    demoString (λ _ _, false).

Definition noToolHooks : ToolHooks unit :=
  {| onStart := None; onEnd := None; onError := None; onHandoff := None;
     onHandoffComplete := None; onToolStart := None; onToolEnd := None;
     onStepFinish := None; onPrepareMessages := None;
     onPrepareModelMessages := None |}.

(** An [onToolEnd] hook that throws. *)
Definition throwingToolEnd : ToolHooks unit :=
  {| onStart := None; onEnd := None; onError := None; onHandoff := None;
     onHandoffComplete := None; onToolStart := None;
     onToolEnd := Some (λ _, throw (VStr "audit log unavailable"));
     onStepFinish := None; onPrepareMessages := None;
     onPrepareModelMessages := None |}.

(** [execute: async () => { throw new Error("Tool failure") }] *)
Definition failingTool : Tool unit :=
  {| tool_name := "failing-tool";
     tool_execute := Some (λ _ _, throwError (newError "Tool failure"));
     tool_outputSchema := None |}.


(** C2, counterexample: [execute] throws and the [onToolEnd] hook, called
    in the [catch] block, throws as well: the wrapped function throws. *)
Lemma failing_tool_with_throwing_hook_throws :
  demoWrapped throwingToolEnd failingTool VNull (Some "call-1") startWorld
  = Threw {| heap := [OError (newError "Tool failure")];
             abortedWith := None; uuidsDrawn := 0; user := tt |}
      (VStr "audit log unavailable").
Proof. reflexivity. Qed.


(** The failing tool of the test suite, without hooks. *)
Lemma failing_tool_payload :
  demoWrapped noToolHooks failingTool VNull (Some "call-1") startWorld
  = Returned {| heap := [OError (newError "Tool failure")];
                abortedWith := None; uuidsDrawn := 0; user := tt |}
      (ErrorResult
         [("error", JBool true); ("name", JStr "Error");
          ("message", JStr "Tool failure");
          ("stack", JStr "Error: Tool failure");
          ("toolCallId", JStr "call-1"); ("toolName", JStr "failing-tool")]).
Proof. reflexivity. Qed.

(** [execute: async () => { throw "quota exceeded" }]: a thrown value
    that is not an [Error] becomes the message of a new one. *)
Definition stringThrowingTool : Tool unit :=
  {| tool_name := "quota";
     tool_execute := Some (λ _ _, throw (VStr "quota exceeded"));
     tool_outputSchema := None |}.

Lemma thrown_string_payload :
  demoWrapped noToolHooks stringThrowingTool VNull (Some "call-2") startWorld
  = Returned startWorld
      (ErrorResult
         [("error", JBool true); ("name", JStr "Error");
          ("message", JStr "quota exceeded");
          ("stack", JStr "Error: quota exceeded");
          ("toolCallId", JStr "call-2"); ("toolName", JStr "quota")]).
Proof. reflexivity. Qed.

(** [execute: async () => { throw Object.create(null) }]: the thrown
    object has no [toString], [String(e)] throws in the [catch] block, and
    the wrapped function throws that [TypeError]. *)
Definition bareObjectTool : Tool unit :=
  {| tool_name := "bare";
     tool_execute :=
       Some (λ _ _ w, Threw {| heap := heap w ++ [OPlain []];
                               abortedWith := abortedWith w;
                               uuidsDrawn := uuidsDrawn w;
                               user := user w |}
                        (VRef (length (heap w))));
     tool_outputSchema := None |}.

Lemma thrown_bare_object_throws :
  demoWrapped noToolHooks bareObjectTool VNull (Some "call-3") startWorld
  = Threw {| heap := [OPlain []; OError conversionError];
             abortedWith := None; uuidsDrawn := 0; user := tt |}
      (VRef 1).
Proof. reflexivity. Qed.

(** C2, witness: the failing tool, without hooks. *)
Lemma tool_failure_returns_payload_witness :
  ∃ payload,
    demoWrapped noToolHooks failingTool VNull (Some "call-1") startWorld =
      Returned {| heap := [OError (newError "Tool failure")];
                  abortedWith := None; uuidsDrawn := 0; user := tt |}
        (ErrorResult payload)
    ∧ buildToolErrorResult 64 [OError (newError "Tool failure")]
        (newError "Tool failure") "call-1" "failing-tool" = Ok payload
    ∧ payloadComplete payload (newError "Tool failure") "call-1"
        "failing-tool".
Proof.
  destruct (tool_failure_returns_payload (U := unit)
              (λ n, "call-" +:+ pretty n) 64 demoString (λ _ _, false)
              noToolHooks failingTool VNull (Some "call-1") startWorld
              startWorld "call-1"
              {| heap := [OError (newError "Tool failure")];
                 abortedWith := None; uuidsDrawn := 0; user := tt |}
              (VRef 0)
              {| heap := [OError (newError "Tool failure")];
                 abortedWith := None; uuidsDrawn := 0; user := tt |}
              (newError "Tool failure")
              {| heap := [OError (newError "Tool failure")];
                 abortedWith := None; uuidsDrawn := 0; user := tt |}
              None eq_refl eq_refl eq_refl (Forall_nil_2 _) eq_refl)
    as (payload & Hcall & Hbuilt & Hfields & _).
  exists payload. split; [exact Hcall | split; [exact Hbuilt | exact Hfields]].
Defined.


End ToolExecutionProps.

(** ** The streams of [streamText] *)
Module StreamingProps.
Import Js Streaming.

(** While the signal is never seen aborted, the abort-handling stage
    passes the base stream on as it is. *)
Lemma wrapWithAbortHandling_never_aborted aborted base baseEnding :
  (∀ n, aborted n = false) →
  ∀ look, wrapWithAbortHandling aborted look base baseEnding
          = {| chunks := base; ending := baseEnding |}.
Proof.
  intros Hn. induction base as [|v base IH]; intros look; simpl.
  - rewrite Hn. destruct baseEnding; [done |]. by rewrite Hn.
  - by rewrite Hn, IH.
Qed.

(** What the stage delivers is always a first part of the base stream. *)
Lemma wrapWithAbortHandling_prefix aborted base baseEnding : ∀ look,
  chunks (wrapWithAbortHandling aborted look base baseEnding)
    `prefix_of` base.
Proof.
  induction base as [|v base IH]; intros look; simpl.
  - destruct (aborted look); [by apply prefix_nil |].
    destruct baseEnding; [by apply prefix_nil |].
    destruct (aborted (S look)); by apply prefix_nil.
  - destruct (aborted look); simpl; [apply prefix_nil |].
    by apply prefix_cons.
Qed.

(** C6 (as amended): with zero output guardrails no guardrail pipeline is
    constructed and no pipeline stage is put on any stream: the text
    stream is the service's raw text stream; the UI stream is the raw UI
    stream, merged with the sub-agents' when the agent has sub-agents; the
    full stream is the raw full stream behind the abort-handling stage
    (and merged with the sub-agents' when there are any), a stage that
    passes the raw stream on as it is while the signal is not aborted.
    A pipeline is constructed exactly when there is an output guardrail. *)
Theorem no_guardrails_no_pipeline {G : Type} (outputGuardrails : list G)
    (hasSubAgents : bool) :
  (outputGuardrails = [] →
     guardrailPipeline outputGuardrails hasSubAgents = None
     ∧ textStream (exposedStreams outputGuardrails hasSubAgents)
       = SdkTextStream
     ∧ toUIMessageStream (exposedStreams outputGuardrails hasSubAgents)
       = (if hasSubAgents then MergedUIStream SdkUIMessageStream
          else SdkUIMessageStream)
     ∧ fullStream (exposedStreams outputGuardrails hasSubAgents)
       = (if hasSubAgents then MergedFullStream (AbortHandled SdkFullStream)
          else AbortHandled SdkFullStream))
  ∧ (is_Some (guardrailPipeline outputGuardrails hasSubAgents)
     ↔ outputGuardrails ≠ [])
  ∧ (∀ aborted base baseEnding,
       (∀ n, aborted n = false) →
       wrapWithAbortHandling aborted 0 base baseEnding
       = {| chunks := base; ending := baseEnding |}).
Proof.
  split; [| split].
  - intros ->. unfold exposedStreams. simpl. by destruct hasSubAgents.
  - unfold guardrailPipeline. destruct outputGuardrails as [|g l]; simpl.
    + split; [by intros [? ?] | done].
    + split; [done | by eexists].
  - intros aborted base baseEnding Hn.
    by apply wrapWithAbortHandling_never_aborted.
Qed.

(** C6, counterexample: no output guardrails, no sub-agents.  The full
    stream handed to the caller is not the raw full stream but the
    abort-handling stage in front of it; once the signal is aborted it
    delivers nothing of the two chunks the raw stream holds, and a raw
    stream that fails then is closed without the failure. *)
Lemma full_stream_is_not_raw :
  guardrailPipeline (G := unit) [] false = None
  ∧ fullStream (exposedStreams (G := unit) [] false) ≠ SdkFullStream
  ∧ wrapWithAbortHandling (λ _, true) 0 [JStr "Hel"; JStr "lo"] Done
    ≠ {| chunks := [JStr "Hel"; JStr "lo"]; ending := Done |}
  ∧ wrapWithAbortHandling (λ n, 0 <? n) 0 [] (Failed (JStr "AbortError"))
    = {| chunks := []; ending := Done |}.
Proof. repeat split; discriminate. Qed.

(** C6, witness: no output guardrails. *)
Lemma no_guardrails_no_pipeline_witness :
  guardrailPipeline (G := unit) [] true = None
  ∧ textStream (exposedStreams (G := unit) [] true) = SdkTextStream
  ∧ toUIMessageStream (exposedStreams (G := unit) [] true)
    = MergedUIStream SdkUIMessageStream
  ∧ fullStream (exposedStreams (G := unit) [] true)
    = MergedFullStream (AbortHandled SdkFullStream).
Proof.
  exact (proj1 (no_guardrails_no_pipeline (G := unit) [] true) eq_refl).
Defined.

End StreamingProps.

(** ** Sub-agent bail *)
Module BailProps.
Import Js Effects Hooks StepRecorder Bail.

Section Operation.
Context {U : Type} `{Platform}.
Variable self : Agent.
Variable numberToString : Z → string.

(** The search goes past the elements it passes over. *)
Lemma findBailed_passed (pre rest : list JsValue) :
  forallb passedOver pre = true → findBailed (pre ++ rest) = findBailed rest.
Proof.
  induction pre as [|x pre IH]; [done|]. simpl.
  intros [Hx Hpre]%andb_prop. unfold passedOver in Hx.
  destruct (getProp x "bailed") as [[| |[|]| | | |]|]; try done;
    by apply IH.
Qed.

Lemma findBailed_quiet (toolResult : list JsValue) :
  forallb passedOver toolResult = true →
  findBailed toolResult = ErrorUtils.Ok None.
Proof.
  intros Hq. rewrite <- (app_nil_r toolResult).
  by rewrite findBailed_passed.
Qed.

(** The scan of a step's content goes past the parts in which the search
    finds nothing, and leaves the operation as it is. *)
Lemma scanContent_quiet (before rest : list ContentPart)
    (s : OperationState U) :
  forallb quietPart before = true →
  scanContent numberToString (before ++ rest) s
  = scanContent numberToString rest s.
Proof.
  induction before as [|p before IH]; [done|].
  intros [Hp Hq]%andb_prop. specialize (IH Hq).
  destruct p as [| | |toolName toolCallId out| |]; simpl; try exact IH.
  destruct out as [| | | | |toolResult|]; simpl; try exact IH.
  simpl in Hp. by rewrite (findBailed_quiet _ Hp).
Qed.

(** It stops at the first tagged element, having recorded it and aborted,
    when the response of the element converts to a string. *)
Lemma scanContent_found (toolName toolCallId : string)
    (pre post : list JsValue) (fields : list (string * JsValue))
    (after : list ContentPart) (response : string) (s : OperationState U) :
  forallb passedOver pre = true →
  assoc "bailed" fields = Some (JBool true) →
  stringOrThrow numberToString (orElse (fieldOf fields "response") (JStr ""))
  = ErrorUtils.Ok response →
  scanContent numberToString
    (PartToolResult toolName toolCallId (JArr (pre ++ JObj fields :: post))
       :: after) s
  = Returned
      (recordBail
         {| bailed_agentName :=
              orElse (fieldOf fields "agentName") (JStr "unknown");
            bailed_response := response |} s)
      true.
Proof.
  intros Hpre Hb Hr. simpl. rewrite (findBailed_passed _ _ Hpre). simpl.
  rewrite Hb. unfold bailedResultOf. simpl. fold (fieldOf fields "response").
  by rewrite Hr.
Qed.

(** It throws a [TypeError] when the search reaches an element that is
    [null] or [undefined] first; the operation is left as it is. *)
Lemma scanContent_nullish (toolName toolCallId : string)
    (pre post : list JsValue) (x : JsValue) (after : list ContentPart)
    (s : OperationState U) :
  forallb passedOver pre = true →
  nullish x = true →
  scanContent numberToString
    (PartToolResult toolName toolCallId (JArr (pre ++ x :: post)) :: after) s
  = Threw s (OtherError (JStr "TypeError")).
Proof.
  intros Hpre Hx. simpl. rewrite (findBailed_passed _ _ Hpre).
  by destruct x.
Qed.

(** What the handler does once the scan has found nothing. *)
Lemma finish_unfold (hooks : BailHooks U) (event : StepResult)
    (st : OperationState U) :
  ((match step_responseMessages event with
    | Some (m :: ms) => modify (addModelMessages (m :: ms))
    | _ => ret tt
    end) ;;
   callHook (onStepFinish hooks) (StepFinishArgs event) ;;
   ret tt)%eff st
  = match callHook (onStepFinish hooks) (StepFinishArgs event)
            (match step_responseMessages event with
             | Some (m :: ms) => addModelMessages (m :: ms) st
             | _ => st
             end) with
    | Returned s' _ => Returned s' tt
    | Threw s' e => Threw s' e
    end.
Proof.
  unfold bind at 1.
  destruct (step_responseMessages event) as [[|m ms]|];
    unfold modify, ret; unfold bind;
    by destruct (callHook (onStepFinish hooks) (StepFinishArgs event) _).
Qed.

Lemma executeOutputGuardrails_nil (text finishReason : string)
    (s : OperationState U) :
  executeOutputGuardrails [] text finishReason s = Returned s text.
Proof. reflexivity. Qed.

(** C1 (amended): the bail protocol.
    (1) When a tool-result part of a step carries an array with an element
    tagged [bailed: true], every element the search meets before it (in
    that array and in the arrays of the tool-result parts before it) is
    neither [null] nor [undefined] nor tagged, and [String(response || "")]
    returns, the step handler stores the step, records
    [{ agentName || "unknown", String(response || "") }] under
    ["bailedResult"], aborts the shared controller with the bail-tagged
    reason unless it was aborted before (then the reason stays), and returns
    without touching the buffer or the [onStepFinish] hook.  A response that
    is a non-empty string is recorded as it is, a missing one as [""], a
    missing agent name as ["unknown"].
    (2) When the [try] block of [generateText] ends with a bail error and a
    bailed result is recorded, [generateText] returns the bailed response as
    the output guardrails leave it (the response itself when there is
    none), with the finish reason ["bail"], which is not the error value,
    provided the guardrails and the [onEnd] hook return.
    (3) The finish callback of [streamText], run with a bailed result
    recorded, sets the operation's output the same way and the finish
    reason of the trace to ["stop"].
    (4) The [text] promise of a streaming call resolves to the bailed
    response when that is not empty and no guardrail pipeline holds a
    sanitized text. *)
Theorem bail_protocol :
  (∀ (hooks : BailHooks U) (event : StepResult) before toolName toolCallId
     pre fields post after response (s : OperationState U),
     step_content event
     = Some (before
             ++ PartToolResult toolName toolCallId
                  (JArr (pre ++ JObj fields :: post)) :: after) →
     forallb quietPart before = true →
     forallb passedOver pre = true →
     assoc "bailed" fields = Some (JBool true) →
     stringOrThrow numberToString
       (orElse (fieldOf fields "response") (JStr ""))
     = ErrorUtils.Ok response →
     let agentName := orElse (fieldOf fields "agentName") (JStr "unknown") in
     let recorded :=
       {| bailed_agentName := agentName; bailed_response := response |} in
     let s' := recordBail recorded (pushStoredStep event s) in
     createStepHandler numberToString hooks event s = Returned s' tt
     ∧ bailedResult s' = Some recorded
     ∧ (abortReason s = None →
        abortReason s' = Some (createBailError agentName response)
        ∧ isBailError (createBailError agentName response) = true)
     ∧ (∀ reason, abortReason s = Some reason →
                  abortReason s' = Some reason)
     ∧ bufferedMessages s' = bufferedMessages s
     ∧ (∀ reply, assoc "response" fields = Some (JStr reply) →
                 reply ≠ "" → response = reply)
     ∧ (assoc "response" fields = None → response = "")
     ∧ (assoc "agentName" fields = None → agentName = JStr "unknown"))
  ∧ (∀ prelude invoke flush guardrails (hooks : BailHooks U)
       s0 s1 e b s2 finalText s3 r,
       generateTextTry self numberToString prelude invoke flush guardrails
         hooks s0
       = Threw s1 e →
       isBailError e = true →
       bailedResult s1 = Some b →
       executeOutputGuardrails guardrails (bailed_response b) "bail" s1
       = Returned s2 finalText →
       callHook (onEnd hooks)
         (EndArgs (Some {| end_text := finalText;
                           end_finishReason := "bail" |}) None) s2
       = Returned s3 r →
       generateText self numberToString prelude invoke flush guardrails
         hooks s0
       = Returned (recordSteps self None s3)
           {| gen_text := finalText; gen_finishReason := "bail" |}
       ∧ isErrorFinishReason "bail" = false
       ∧ (guardrails = [] → finalText = bailed_response b))
  ∧ (∀ flush guardrails sanitized (hooks : BailHooks U) userOnFinish
       finalResult s0 s1 b s2 finalText s3 r,
       flush s0 = Returned s1 tt →
       bailedResult s1 = Some b →
       executeOutputGuardrails guardrails (bailed_response b) "bail" s1
       = Returned s2 finalText →
       let finished :=
         setOutput finalText (Some "stop")
           (recordSteps self (res_steps finalResult) s2) in
       callHook (onEnd hooks)
         (EndArgs (Some {| end_text := finalText;
                           end_finishReason :=
                             res_finishReason finalResult |}) None)
         finished
       = Returned s3 r →
       streamTextOnFinish self flush guardrails sanitized hooks
         userOnFinish finalResult s0
       = match userOnFinish with
         | Some f =>
             f (match guardrails with
                | _ :: _ =>
                    {| res_text := finalText;
                       res_steps := res_steps finalResult;
                       res_finishReason := res_finishReason finalResult |}
                | [] => finalResult
                end) s3
         | None => Returned s3 tt
         end
       ∧ output finished = Some finalText
       ∧ traceFinishReason finished = Some "stop"
       ∧ isErrorFinishReason "stop" = false
       ∧ (guardrails = [] → finalText = bailed_response b))
  ∧ (∀ sanitized (s : OperationState U) aiSdkText b,
       bailedResult s = Some b →
       strTruthy (bailed_response b) = true →
       sanitized = None ∨ sanitized = Some None →
       streamTextPromise sanitized s aiSdkText = bailed_response b).
Proof.
  split; [|split; [|split]].
  - intros hooks event before toolName toolCallId pre fields post after
      response s Hc Hq Hpre Hb Hr agentName recorded s'.
    split; [|split; [|split; [|split; [|split; [|split; [|split]]]]]].
    + unfold createStepHandler. rewrite Hc. unfold bind at 1, modify at 1.
      unfold bind. rewrite (scanContent_quiet _ _ _ Hq).
      by rewrite (scanContent_found _ _ _ _ _ _ response _ Hpre Hb Hr).
    + reflexivity.
    + intros Hn. subst s'. simpl. by rewrite Hn.
    + intros reason Hn. subst s'. simpl. by rewrite Hn.
    + reflexivity.
    + intros reply Ht Hne. unfold fieldOf in Hr. rewrite Ht in Hr.
      unfold orElse, stringOrThrow in Hr. simpl in Hr.
      destruct (String.eqb reply "") eqn:E;
        [by apply String.eqb_eq in E|].
      simpl in Hr. by injection Hr as <-.
    + intros Hn. unfold fieldOf in Hr. rewrite Hn in Hr.
      by injection Hr as <-.
    + intros Hn. subst agentName. unfold fieldOf. by rewrite Hn.
  - intros prelude invoke flush guardrails hooks s0 s1 e b s2 finalText s3 r
      Htry He Hb Hg Hh.
    split; [|split].
    + unfold generateText, tryCatch. rewrite Htry.
      unfold generateTextCatch, bind at 1, get. rewrite He, Hb.
      unfold bind at 1. rewrite Hg. unfold bind at 1. rewrite Hh.
      reflexivity.
    + reflexivity.
    + intros ->. rewrite executeOutputGuardrails_nil in Hg.
      by injection Hg as _ <-.
  - intros flush guardrails sanitized hooks userOnFinish finalResult
      s0 s1 b s2 finalText s3 r Hf Hb Hg finished Hh.
    split; [|split; [|split; [|split]]]; try reflexivity.
    + unfold streamTextOnFinish. unfold bind at 1. rewrite Hf.
      unfold bind at 1, get. rewrite Hb.
      assert (Hfinal :
        match guardrails with
        | _ :: _ =>
            executeOutputGuardrails guardrails (bailed_response b) "bail"
        | [] => ret (bailed_response b)
        end s1 = Returned s2 finalText).
      { destruct guardrails; [exact Hg | exact Hg]. }
      unfold bind at 1. rewrite Hfinal.
      unfold bind at 1, modify at 1. unfold bind at 1, modify at 1.
      unfold bind at 1. fold finished. rewrite Hh.
      destruct userOnFinish; reflexivity.
    + intros ->. rewrite executeOutputGuardrails_nil in Hg.
      by injection Hg as _ <-.
  - intros sanitized s aiSdkText b Hb Ht [-> | ->];
      unfold streamTextPromise, bailedOrSdkText; by rewrite Hb, Ht.
Qed.

End Operation.

End BailProps.

Module BailExamples.
Import Js Effects Hooks StepRecorder Bail BailProps.

Definition clockPlatform : Platform :=
  {| uuid := λ n, "uuid-" +:+ pretty n;
     isoTime := λ n, "T" +:+ pretty n;
     convertUsage := λ _,
       {| promptTokens := 0; completionTokens := 0; totalTokens := 0 |};
     stringifyValue := λ _, "{}" |}.

Definition supervisor : Agent :=
  {| agent_id := "supervisor"; agent_name := "Supervisor" |}.

(** What the delegation tool returns for a sub-agent that bailed. *)
Definition bailedElement : JsValue :=
  JObj [("agentName", JStr "Researcher");
        ("response", JStr "done by sub");
        ("bailed", JBool true)].

Definition bailedStep : StepResult :=
  {| step_content :=
       Some [PartToolResult "delegate_task" "call-1" (JArr [bailedElement])];
     step_text := None;
     step_toolCalls := None;
     step_toolResults := None;
     step_usage := None;
     step_responseMessages := Some [JStr "tool message"] |}.

Definition startState : OperationState unit :=
  {| recorder :=
       {| oc_operationId := "op-1";
          oc_userId := Some "u1";
          oc_conversationId := Some "c1";
          oc_parentAgentId := None;
          oc_conversationSteps := None;
          sc_conversationSteps := None;
          sc_persistedStepCount := None;
          sc_agentMetadata := None |};
     world := {| uuidsDrawn := 0; clockReads := 0; savedBatches := [] |};
     bailedResult := None;
     abortReason := None;
     bufferedMessages := [];
     output := None;
     traceFinishReason := None;
     cancellationError := None;
     user := tt |}.

(** The operation after the step handler has seen [bailedStep]. *)
Definition afterBail : OperationState unit :=
  recordBail {| bailed_agentName := JStr "Researcher";
                bailed_response := "done by sub" |}
    (pushStoredStep bailedStep startState).

(** A model call of one step: the service hands the step to the step
    handler and, finding its signal aborted, throws the abort reason. *)
Definition oneStepCall (onStepFinish : StepResult → Eff unit unit)
    : Eff unit SdkResult :=
  (onStepFinish bailedStep ;;
   let* s := get in
   match abortReason s with
   | Some reason => throw reason
   | None =>
       ret {| res_text := "supervisor text";
              res_steps := Some [bailedStep];
              res_finishReason := "stop" |}
   end)%eff.

Definition noHooks : BailHooks unit :=
  {| onStart := None; onEnd := None; onError := None; onHandoff := None;
     onHandoffComplete := None; onToolStart := None; onToolEnd := None;
     onStepFinish := None; onPrepareMessages := None;
     onPrepareModelMessages := None |}.

(** An output guardrail that replaces whatever it is given. *)
Definition redact : OutputGuardrail unit := λ _ _, ret "[redacted]".

(** C1, counterexample: with an output guardrail configured, the
    supervisor call whose sub-agent bailed with ["done by sub"] returns the
    guardrail's text, not the bailed response, although the bailed result
    is recorded and the finish reason is ["bail"]. *)
Lemma bailed_output_goes_through_guardrails :
  generateText (H := clockPlatform) supervisor decimal (ret tt) oneStepCall
    (ret tt) [redact] noHooks startState
  = Returned (recordSteps (H := clockPlatform) supervisor None afterBail)
      {| gen_text := "[redacted]"; gen_finishReason := "bail" |}
  ∧ bailedResult afterBail
    = Some {| bailed_agentName := JStr "Researcher";
              bailed_response := "done by sub" |}
  ∧ "[redacted]" ≠ "done by sub".
Proof.
  split; [vm_compute; reflexivity|].
  split; [vm_compute; reflexivity|].
  discriminate.
Qed.

(** A [null] in front of the tagged element: the search throws a
    [TypeError] on it, the handler is left by that exception with the step
    stored, and neither a bailed result nor an abort is recorded. *)
Definition nullFirstStep : StepResult :=
  {| step_content :=
       Some [PartToolResult "delegate_task" "call-1"
               (JArr [JNull; bailedElement])];
     step_text := None;
     step_toolCalls := None;
     step_toolResults := None;
     step_usage := None;
     step_responseMessages := Some [JStr "tool message"] |}.

Lemma null_in_front_stops_the_search :
  createStepHandler decimal noHooks nullFirstStep startState
  = Threw (pushStoredStep nullFirstStep startState)
      (OtherError (JStr "TypeError"))
  ∧ bailedResult (pushStoredStep nullFirstStep startState) = None
  ∧ abortReason (pushStoredStep nullFirstStep startState) = None.
Proof. repeat split. Qed.

(** C1, witness: the step handler records the bailed element of
    [bailedStep] and aborts, and the call, without output guardrails,
    returns the bailed response with the finish reason ["bail"]. *)
Lemma bail_protocol_witness :
  (createStepHandler decimal noHooks bailedStep startState
   = Returned afterBail tt
   ∧ bailedResult afterBail
     = Some {| bailed_agentName := JStr "Researcher";
               bailed_response := "done by sub" |}
   ∧ abortReason afterBail
     = Some (createBailError (JStr "Researcher") "done by sub"))
  ∧ generateText (H := clockPlatform) supervisor decimal (ret tt) oneStepCall
      (ret tt) [] noHooks startState
    = Returned (recordSteps (H := clockPlatform) supervisor None afterBail)
        {| gen_text := "done by sub"; gen_finishReason := "bail" |}
  ∧ isErrorFinishReason "bail" = false.
Proof.
  refine (let W1 :=
            proj1 (bail_protocol (H := clockPlatform) supervisor decimal)
              noHooks bailedStep [] "delegate_task" "call-1" []
              [("agentName", JStr "Researcher");
               ("response", JStr "done by sub");
               ("bailed", JBool true)] [] [] "done by sub" startState
              eq_refl eq_refl eq_refl eq_refl eq_refl in
          let W2 :=
            proj1 (proj2 (bail_protocol (H := clockPlatform) supervisor
                            decimal))
              (ret tt) oneStepCall (ret tt) [] noHooks startState afterBail
              (BailError (JStr "Researcher") "done by sub")
              {| bailed_agentName := JStr "Researcher";
                 bailed_response := "done by sub" |}
              afterBail "done by sub" afterBail None _ _ _ _ _ in
          conj (conj (proj1 W1)
                  (conj (proj1 (proj2 W1))
                     (proj1 (proj1 (proj2 (proj2 W1)) eq_refl))))
            (conj (proj1 W2) (proj1 (proj2 W2))));
    vm_compute; reflexivity.
Defined.

End BailExamples.

(** ** Guardrail identifiers of the state report *)
Module FullStateProps.
Import Js FullState.

(** A character a slug may hold: [[a-z0-9]] or the dash. *)
Definition slugOrDash (a : ascii) : bool := isSlugChar a || isDash a.

(** No character outside [[a-z0-9-]] and no dash right after a dash;
    [afterDash] tells that the character before was a dash. *)
Fixpoint tidy (afterDash : bool) (l : list ascii) : bool :=
  match l with
  | [] => true
  | a :: l' =>
      if isSlugChar a then tidy false l'
      else isDash a && negb afterDash && tidy true l'
  end.

(** The shape of a slug: not empty, tidy, no dash at either end. *)
Definition slugShaped (s : string) : Prop :=
  let l := list_ascii_of_string s in
  l ≠ []
  ∧ tidy false l = true
  ∧ head l ≠ Some "-"%char
  ∧ last l ≠ Some "-"%char.

Lemma isDash_spec a : isDash a = true ↔ a = "-"%char.
Proof. unfold isDash. apply Ascii.eqb_eq. Qed.

Lemma isSlugChar_not_dash a : isSlugChar a = true → isDash a = false.
Proof.
  intros Ha. destruct (isDash a) eqn:E; [|done].
  apply isDash_spec in E. subst a. discriminate Ha.
Qed.

Lemma isSlugChar_not_upper a : isSlugChar a = true → isUpper a = false.
Proof.
  unfold isSlugChar, isUpper. cbv zeta.
  generalize (nat_of_ascii a). intros n Hn.
  apply andb_false_iff.
  apply orb_true_iff in Hn as [Hn|Hn]; apply andb_true_iff in Hn as [H1 H2];
    apply Nat.leb_le in H1, H2;
    destruct (65 <=? n) eqn:E1; destruct (n <=? 90) eqn:E2; auto;
    apply Nat.leb_le in E1, E2; lia.
Qed.

Lemma isSlugChar_not_space a : isSlugChar a = true → isSpace a = false.
Proof.
  unfold isSlugChar, isSpace. cbv zeta.
  generalize (nat_of_ascii a). intros n Hn.
  apply orb_false_iff.
  apply orb_true_iff in Hn as [Hn|Hn]; apply andb_true_iff in Hn as [H1 H2];
    apply Nat.leb_le in H1, H2; (split;
      [apply andb_false_iff;
       destruct (9 <=? n) eqn:E1; destruct (n <=? 13) eqn:E2; auto;
       apply Nat.leb_le in E1, E2; lia
      |apply Nat.eqb_neq; lia]).
Qed.

Lemma tidy_weaken b l : tidy b l = true → tidy false l = true.
Proof.
  destruct l as [|a l]; [done|]. simpl.
  destruct (isSlugChar a); [done|]. destruct b; [|done].
  rewrite andb_false_r. discriminate.
Qed.

Lemma tidy_Forall b l : tidy b l = true → Forall (λ a, slugOrDash a = true) l.
Proof.
  revert b. induction l as [|a l IH]; intros b; [constructor|]. simpl.
  destruct (isSlugChar a) eqn:E.
  - intros H. constructor; [unfold slugOrDash; by rewrite E|].
    by apply (IH false).
  - intros H. apply andb_true_iff in H as [H1 H2].
    apply andb_true_iff in H1 as [H1 _].
    constructor; [unfold slugOrDash; by rewrite E, H1|]. by apply (IH true).
Qed.

Lemma replaceRuns_tidy l : ∀ b, tidy b (replaceRuns b l) = true.
Proof.
  induction l as [|a l IH]; intros b; [done|]. simpl.
  destruct (isSlugChar a) eqn:E.
  - simpl. rewrite E. apply IH.
  - destruct b; [apply IH|]. simpl. apply IH.
Qed.

Lemma replaceRuns_fixed l : ∀ b, tidy b l = true → replaceRuns b l = l.
Proof.
  induction l as [|a l IH]; intros b; [done|]. simpl.
  destruct (isSlugChar a) eqn:E.
  - intros H. f_equal. by apply IH.
  - intros H. apply andb_true_iff in H as [H1 H2].
    apply andb_true_iff in H1 as [Hd Hb].
    destruct b; [done|]. apply isDash_spec in Hd. subst a.
    f_equal. by apply IH.
Qed.

Lemma tidy_app_l r q : ∀ b, tidy b (r ++ q) = true → tidy b r = true.
Proof.
  induction r as [|a r IH]; intros b; [done|]. simpl.
  destruct (isSlugChar a); [apply IH|].
  intros H. apply andb_true_iff in H as [H1 H2]. rewrite H1. simpl.
  by apply IH.
Qed.

Lemma tidy_app_r p r : ∀ b, tidy b (p ++ r) = true → tidy false r = true.
Proof.
  induction p as [|a p IH]; intros b; [apply tidy_weaken|]. simpl.
  destruct (isSlugChar a); [apply IH|].
  intros H. apply andb_true_iff in H as [_ H2]. by apply (IH true).
Qed.

Lemma dropWhile_suffix f l : ∃ p, l = p ++ dropWhile f l.
Proof.
  induction l as [|a l [p IH]]; [by exists []|]. simpl.
  destruct (f a); [|by exists []]. exists (a :: p). simpl. by f_equal.
Qed.

Lemma dropWhile_head f l a : head (dropWhile f l) = Some a → f a = false.
Proof.
  induction l as [|x l IH]; [done|]. simpl.
  destruct (f x) eqn:E; [exact IH|]. by intros [= <-].
Qed.

Lemma dropWhile_fixed f l :
  (∀ a, head l = Some a → f a = false) → dropWhile f l = l.
Proof. destruct l as [|a l]; [done|]. simpl. intros H. by rewrite H. Qed.

Lemma dropWhile_none f l :
  Forall (λ a, f a = false) l → dropWhile f l = l.
Proof.
  intros H. apply dropWhile_fixed. intros a Ha.
  destruct l as [|x l]; [done|]. injection Ha as ->.
  by apply Forall_cons_1 in H as [H _].
Qed.

Lemma head_rev (l : list ascii) : head (rev l) = last l.
Proof. rewrite rev_alt. exact (head_reverse l). Qed.

Lemma last_rev (l : list ascii) : last (rev l) = head l.
Proof. by rewrite <- head_rev, rev_involutive. Qed.

Lemma stripDashes_infix l : ∃ p q, l = p ++ stripDashes l ++ q.
Proof.
  unfold stripDashes.
  destruct (dropWhile_suffix isDash l) as [p Hp].
  destruct (dropWhile_suffix isDash (rev (dropWhile isDash l))) as [q Hq].
  exists p, (rev q). rewrite <- rev_app_distr, <- Hq, rev_involutive.
  exact Hp.
Qed.

Lemma stripDashes_last l : last (stripDashes l) ≠ Some "-"%char.
Proof.
  unfold stripDashes. rewrite last_rev. intros H.
  by apply dropWhile_head in H.
Qed.

Lemma stripDashes_head l : head (stripDashes l) ≠ Some "-"%char.
Proof.
  unfold stripDashes.
  destruct (dropWhile_suffix isDash (rev (dropWhile isDash l))) as [q Hq].
  set (m := dropWhile isDash l) in *.
  set (n := dropWhile isDash (rev m)) in *.
  assert (Hm : m = rev n ++ rev q).
  { by rewrite <- rev_app_distr, <- Hq, rev_involutive. }
  intros H.
  assert (Hh : head m = Some "-"%char).
  { rewrite Hm. destruct (rev n); [done|]. exact H. }
  by apply dropWhile_head in Hh.
Qed.

Lemma stripDashes_fixed l :
  head l ≠ Some "-"%char → last l ≠ Some "-"%char → stripDashes l = l.
Proof.
  intros Hh Hl. unfold stripDashes.
  rewrite (dropWhile_fixed isDash l).
  - rewrite (dropWhile_fixed isDash (rev l)); [apply rev_involutive|].
    intros a Ha. rewrite head_rev in Ha.
    destruct (isDash a) eqn:E; [|done].
    apply isDash_spec in E. by subst a.
  - intros a Ha. destruct (isDash a) eqn:E; [|done].
    apply isDash_spec in E. by subst a.
Qed.

Lemma toLower_fixed l :
  Forall (λ a, slugOrDash a = true) l → map toLowerAscii l = l.
Proof.
  induction 1 as [|a l Ha _ IH]; [done|]. simpl. f_equal; [|exact IH].
  unfold toLowerAscii. apply orb_true_iff in Ha as [Ha|Ha].
  - by rewrite (isSlugChar_not_upper a Ha).
  - apply isDash_spec in Ha. by subst a.
Qed.

Lemma chars_rev_app s : ∀ t,
  list_ascii_of_string (String.rev_app s t)
  = rev (list_ascii_of_string s) ++ list_ascii_of_string t.
Proof.
  induction s as [|a s IH]; intros t; [done|]. simpl.
  rewrite IH. simpl. by rewrite <- app_assoc.
Qed.

Lemma chars_rev s :
  list_ascii_of_string (String.rev s) = rev (list_ascii_of_string s).
Proof. unfold String.rev. rewrite chars_rev_app. simpl. apply app_nil_r. Qed.

Lemma chars_trimStart s :
  list_ascii_of_string (trimStart s)
  = dropWhile isSpace (list_ascii_of_string s).
Proof.
  induction s as [|a s IH]; [done|]. simpl. by destruct (isSpace a).
Qed.

Lemma chars_trim s :
  list_ascii_of_string (trim s)
  = rev (dropWhile isSpace (rev (dropWhile isSpace
           (list_ascii_of_string s)))).
Proof.
  unfold trim. by rewrite chars_rev, chars_trimStart, chars_rev,
    chars_trimStart.
Qed.

Lemma trim_fixed s :
  Forall (λ a, slugOrDash a = true) (list_ascii_of_string s) →
  list_ascii_of_string (trim s) = list_ascii_of_string s.
Proof.
  intros H. rewrite chars_trim.
  assert (Hs : ∀ l, Forall (λ a, slugOrDash a = true) l →
                    Forall (λ a, isSpace a = false) l).
  { intros l Hl. eapply Forall_impl; [exact Hl|]. intros a Ha.
    apply orb_true_iff in Ha as [Ha|Ha]; [by apply isSlugChar_not_space|].
    apply isDash_spec in Ha. by subst a. }
  rewrite (dropWhile_none isSpace _ (Hs _ H)).
  rewrite (dropWhile_none isSpace (rev _)); [apply rev_involutive|].
  apply Hs. by apply List.Forall_rev.
Qed.

Lemma slugify_shaped (value : string) :
  slugShaped (slugifyGuardrailIdentifier value).
Proof.
  unfold slugifyGuardrailIdentifier. cbv zeta.
  set (x := replaceRuns false
              (map toLowerAscii (list_ascii_of_string (trim value)))).
  destruct (strTruthy (string_of_list_ascii (stripDashes x))) eqn:E.
  - unfold slugShaped. cbv zeta.
    rewrite list_ascii_of_string_of_list_ascii.
    split; [|split; [|split]].
    + intros Hnil. rewrite Hnil in E. discriminate E.
    + destruct (stripDashes_infix x) as (p & q & Hx).
      pose proof (replaceRuns_tidy
        (map toLowerAscii (list_ascii_of_string (trim value))) false)
        as Ht.
      fold x in Ht. rewrite Hx in Ht.
      apply tidy_app_r in Ht. by apply tidy_app_l in Ht.
    + apply stripDashes_head.
    + apply stripDashes_last.
  - unfold slugShaped. cbv zeta. simpl.
    split; [done|]. split; [reflexivity|]. split; discriminate.
Qed.

Lemma slugify_fixed (value : string) :
  slugShaped value → slugifyGuardrailIdentifier value = value.
Proof.
  intros (Hne & Ht & Hh & Hl). unfold slugifyGuardrailIdentifier. cbv zeta.
  pose proof (tidy_Forall _ _ Ht) as Hall.
  rewrite (trim_fixed value Hall), (toLower_fixed _ Hall),
    (replaceRuns_fixed _ _ Ht), (stripDashes_fixed _ Hh Hl),
    string_of_list_ascii_of_string.
  destruct value; [done|reflexivity].
Qed.

(** X1: whatever the identifier, its slug is not empty, holds only
    characters of [[a-z0-9-]], has no two dashes in a row and no dash at
    either end; and slugifying a slug gives it back. *)
Theorem slug_is_well_formed (value : string) :
  slugShaped (slugifyGuardrailIdentifier value)
  ∧ Forall (λ a, slugOrDash a = true)
      (list_ascii_of_string (slugifyGuardrailIdentifier value))
  ∧ slugifyGuardrailIdentifier (slugifyGuardrailIdentifier value)
    = slugifyGuardrailIdentifier value.
Proof.
  pose proof (slugify_shaped value) as Hshape.
  split; [exact Hshape|]. split; [|by apply slugify_fixed].
  destruct Hshape as (_ & Ht & _). by apply tidy_Forall in Ht.
Qed.

(** X2: an identifier that already has the shape of a slug (lower-case
    letters, digits and single dashes between them) is its own slug. *)
Theorem slug_of_slug_shaped (value : string) :
  slugShaped value → slugifyGuardrailIdentifier value = value.
Proof. apply slugify_fixed. Qed.

Lemma slug_of_slug_shaped_witness :
  slugifyGuardrailIdentifier "pii-filter-2" = "pii-filter-2".
Proof.
  apply (slug_of_slug_shaped "pii-filter-2").
  unfold slugShaped. simpl.
  split; [discriminate|]. split; [reflexivity|]. split; discriminate.
Defined.

(** *** Node names of the guardrail entries *)

Lemma chars_app s t :
  list_ascii_of_string (s +:+ t)
  = list_ascii_of_string s ++ list_ascii_of_string t.
Proof. induction s as [|a s IH]; [done|]. simpl. by f_equal. Qed.

Lemma pretty_N_char_slug x : isSlugChar (pretty_N_char x) = true.
Proof. unfold pretty_N_char. by repeat case_match. Qed.

Lemma pretty_N_go_slug x : ∀ s,
  Forall (λ a, isSlugChar a = true) (list_ascii_of_string s) →
  Forall (λ a, isSlugChar a = true) (list_ascii_of_string (pretty_N_go x s)).
Proof.
  induction (N.lt_wf_0 x) as [x _ IH]. intros s Hs.
  assert (x = 0 ∨ 0 < x)%N as [->|Hx] by lia.
  - by rewrite pretty_N_go_0.
  - rewrite pretty_N_go_step by done. apply IH.
    + by apply N.div_lt.
    + simpl. constructor; [apply pretty_N_char_slug|done].
Qed.

Lemma pretty_N_go_nonempty x : ∀ s, s ≠ "" → pretty_N_go x s ≠ "".
Proof.
  induction (N.lt_wf_0 x) as [x _ IH]. intros s Hs.
  assert (x = 0 ∨ 0 < x)%N as [->|Hx] by lia.
  - by rewrite pretty_N_go_0.
  - rewrite pretty_N_go_step by done. apply IH; [by apply N.div_lt|done].
Qed.

Lemma pretty_nat_slug (n : nat) :
  Forall (λ a, isSlugChar a = true) (list_ascii_of_string (pretty n))
  ∧ list_ascii_of_string (pretty n) ≠ [].
Proof.
  unfold pretty, pretty_nat, pretty, pretty_N.
  destruct (decide (N.of_nat n = 0%N)) as [_|Hn].
  - split; [by repeat constructor|done].
  - split; [by apply pretty_N_go_slug|].
    rewrite pretty_N_go_step by lia.
    intros Hnil.
    apply (pretty_N_go_nonempty (N.of_nat n `div` 10)
             (String (pretty_N_char (N.of_nat n `mod` 10)) "")); [done|].
    by destruct (pretty_N_go _ _).
Qed.

Lemma tidy_slug_chars l : ∀ b,
  Forall (λ a, isSlugChar a = true) l → tidy b l = true.
Proof.
  induction l as [|a l IH]; intros b Hl; [done|].
  apply Forall_cons_1 in Hl as [Ha Hl]. simpl. rewrite Ha. by apply IH.
Qed.

Lemma tidy_app_slug_chars l d : ∀ b,
  tidy b l = true → Forall (λ a, isSlugChar a = true) d →
  tidy b (l ++ d) = true.
Proof.
  induction l as [|a l IH]; intros b Hl Hd; [by apply tidy_slug_chars|].
  simpl in *. destruct (isSlugChar a); [by apply IH|].
  apply andb_true_iff in Hl as [H1 H2]. rewrite H1. simpl. by apply IH.
Qed.

(** The identifier made up for a guardrail that has neither [id] nor
    [name] is its own slug. *)
Lemma generated_identifier_shaped (direction : Direction) (n : nat) :
  slugShaped (directionName direction +:+ "-" +:+ pretty n).
Proof.
  destruct (pretty_nat_slug n) as [Hd Hne].
  unfold slugShaped. cbv zeta. rewrite !chars_app.
  split; [|split; [|split]].
  - by destruct direction.
  - rewrite app_assoc. apply tidy_app_slug_chars; [|exact Hd].
    by destruct direction.
  - by destruct direction.
  - rewrite app_assoc, last_app.
    destruct (last (list_ascii_of_string (pretty n))) as [c|] eqn:E.
    + intros [= ->]. apply last_Some_elem_of in E.
      apply (proj1 (Forall_forall _ _) Hd) in E. discriminate E.
    + apply last_None in E. by destruct Hne.
Qed.

(** X3: the node name of a guardrail entry is always made of the
    direction and the slug of the identifier; the index is never used in
    its place.  Guardrails that have neither [id] nor [name] get the names
    [direction-direction-1], [direction-direction-2], ..., pairwise
    distinct. *)
Theorem guardrail_node_names (guardrailList : list Guardrail)
    (direction : Direction) :
  (∀ index guardrail,
     st_nodeName (guardrailState direction index guardrail)
     = directionName direction +:+ "-" +:+
         slugifyGuardrailIdentifier
           (match g_id guardrail, g_name guardrail with
            | Some i, _ => i
            | None, Some n => n
            | None, None =>
                directionName direction +:+ "-" +:+ pretty (index + 1)
            end))
  ∧ (Forall (λ g, g_id g = None ∧ g_name g = None) guardrailList →
     (∀ index, index < length guardrailList →
        st_nodeName <$> mapGuardrails guardrailList direction !! index
        = Some (directionName direction +:+ "-" +:+
                directionName direction +:+ "-" +:+ pretty (index + 1)))
     ∧ NoDup (st_nodeName <$> mapGuardrails guardrailList direction)).
Proof.
  assert (Hname : ∀ index guardrail,
     st_nodeName (guardrailState direction index guardrail)
     = directionName direction +:+ "-" +:+
         slugifyGuardrailIdentifier
           (match g_id guardrail, g_name guardrail with
            | Some i, _ => i
            | None, Some n => n
            | None, None =>
                directionName direction +:+ "-" +:+ pretty (index + 1)
            end)).
  { intros index guardrail. unfold guardrailState. cbv zeta. simpl.
    set (slug := slugifyGuardrailIdentifier _).
    destruct (slugify_shaped
      (match g_id guardrail, g_name guardrail with
       | Some i, _ => i
       | None, Some n => n
       | None, None =>
           directionName direction +:+ "-" +:+ pretty (index + 1)
       end)) as [Hne _].
    fold slug in Hne. destruct slug; [done|reflexivity]. }
  split; [exact Hname|]. intros Hall.
  assert (Hat : ∀ index, index < length guardrailList →
     st_nodeName <$> mapGuardrails guardrailList direction !! index
     = Some (directionName direction +:+ "-" +:+
             directionName direction +:+ "-" +:+ pretty (index + 1))).
  { intros index Hlt. unfold mapGuardrails. rewrite list_lookup_imap.
    destruct (lookup_lt_is_Some_2 guardrailList index Hlt) as [g Hg].
    rewrite Hg.
    change (Some (st_nodeName (guardrailState direction index g))
            = Some (directionName direction +:+ "-" +:+
                    directionName direction +:+ "-" +:+ pretty (index + 1))).
    f_equal. rewrite Hname.
    destruct (proj1 (Forall_forall _ _) Hall g
                (list_elem_of_lookup_2 _ _ _ Hg)) as [-> ->].
    by rewrite slugify_fixed by apply generated_identifier_shaped. }
  split; [exact Hat|].
  apply NoDup_alt. intros i j x Hi Hj.
  rewrite list_lookup_fmap in Hi, Hj.
  assert (Hli : i < length guardrailList).
  { apply fmap_Some in Hi as (y & Hy & _).
    apply lookup_lt_Some in Hy. unfold mapGuardrails in Hy.
    by rewrite length_imap in Hy. }
  assert (Hlj : j < length guardrailList).
  { apply fmap_Some in Hj as (y & Hy & _).
    apply lookup_lt_Some in Hy. unfold mapGuardrails in Hy.
    by rewrite length_imap in Hy. }
  rewrite (Hat i Hli) in Hi. rewrite (Hat j Hlj) in Hj.
  rewrite <- Hj in Hi. injection Hi as Hi.
  repeat (apply (inj (String.app _)) in Hi).
  apply (inj pretty) in Hi. lia.
Qed.

Lemma guardrail_node_names_witness :
  NoDup (st_nodeName <$>
           mapGuardrails
             [ {| g_id := None; g_name := None; g_description := None;
                  g_severity := None; g_tags := None;
                  g_metadata := None |};
               {| g_id := None; g_name := None; g_description := Some "pii";
                  g_severity := None; g_tags := None;
                  g_metadata := None |} ] output).
Proof.
  apply (guardrail_node_names _ output).
  repeat constructor.
Defined.

(** X4: the metadata copied into the report never holds a function and is
    never an empty record; every other entry of the original is kept, in
    order. *)
Theorem cloneRecord_drops_functions (value : Candidate)
    (result : list (string * Field)) :
  cloneRecord value = Some result →
  result ≠ []
  ∧ Forall (λ e, isFunction e.2 = false) result
  ∧ ∃ entries, value = CObject entries
      ∧ result = List.filter (λ e, negb (isFunction e.2)) entries
      ∧ ∀ k v, (k, FValue v) ∈ entries ↔ (k, FValue v) ∈ result.
Proof.
  destruct value as [| | | |entries]; try discriminate. simpl.
  destruct (0 <? length _) eqn:E; [|discriminate]. intros [= <-].
  split; [|split].
  - intros Hnil. rewrite Hnil in E. discriminate E.
  - apply Forall_forall. intros e He. apply list_elem_of_In in He.
    apply filter_In in He as [_ He]. by apply negb_true_iff in He.
  - exists entries. split; [done|]. split; [done|]. intros k v.
    rewrite !list_elem_of_In, filter_In. simpl. tauto.
Qed.

Lemma cloneRecord_drops_functions_witness :
  [("team", FValue (JStr "trust"))] ≠ []
  ∧ Forall (λ e, isFunction e.2 = false) [("team", FValue (JStr "trust"))].
Proof.
  destruct (cloneRecord_drops_functions
              (CObject [("check", FFunction);
                        ("team", FValue (JStr "trust"))])
              [("team", FValue (JStr "trust"))] eq_refl) as (H1 & H2 & _).
  exact (conj H1 H2).
Defined.

End FullStateProps.

(** ** Delegation depth *)
Module DelegationProps.
Import Js Delegation.
#[local] Set Warnings "-clear-no-such-hyp".

Lemma size_difference_step (X V : gset string) (c : string) :
  c ∈ X → c ∉ V → size (X ∖ V) = S (size (X ∖ ({[c]} ∪ V))).
Proof.
  intros Hc Hv.
  assert (Hsplit : X ∖ V = {[c]} ∪ X ∖ ({[c]} ∪ V)).
  { apply set_eq. intros x. destruct (decide (x = c)); set_solver. }
  rewrite Hsplit at 1. rewrite size_union by set_solver.
  by rewrite size_singleton.
Qed.

Lemma difference_nothing (X : gset string) : X ∖ ∅ = X.
Proof. set_solver. Qed.

Section Registry.
Variable getParentAgentIds : string → list string.
(** The agents that have a parent registered. *)
Variable children : gset string.
Hypothesis children_complete :
  ∀ id, getParentAgentIds id ≠ [] → id ∈ children.

Lemma walk_ends fuel : ∀ visited current depth,
  size (children ∖ visited) < fuel →
  ∃ d, walk getParentAgentIds fuel visited current depth = Some d
       ∧ depth ≤ d ≤ depth + size (children ∖ visited).
Proof.
  induction fuel as [|fuel IH]; intros visited current depth Hfuel; [lia|].
  simpl. destruct (strTruthy current); [|exists depth; split; [done|lia]].
  destruct (decide (current ∈ visited)) as [Hin|Hnot];
    [exists depth; split; [done|lia]|].
  destruct (getParentAgentIds current) as [|parent others] eqn:Hp;
    [exists depth; split; [done|lia]|].
  assert (Hc : current ∈ children).
  { apply children_complete. by rewrite Hp. }
  pose proof (size_difference_step children visited current Hc Hnot)
    as Hsize.
  destruct (IH ({[current]} ∪ visited) parent (S depth)) as (d & Hd & Hb);
    [lia|].
  exists d. split; [exact Hd|lia].
Qed.

(** X5: in a registry where finitely many agents have a parent, the walk
    up the chain of first parents ends, also when the chain runs into a
    cycle; the depth is 0 without a parent and otherwise at least 1 and at
    most one more than the number of agents that have a parent. *)
Theorem delegation_depth_is_bounded (parentAgentId : option string) :
  ∃ depth,
    calculateDelegationDepth getParentAgentIds (S (size children))
      parentAgentId = Some depth
    ∧ (optTruthy parentAgentId = false → depth = 0)
    ∧ (optTruthy parentAgentId = true → 1 ≤ depth ≤ 1 + size children).
Proof.
  unfold calculateDelegationDepth.
  destruct (optTruthy parentAgentId) eqn:E.
  - destruct (walk_ends (S (size children)) ∅ (default "" parentAgentId) 1)
      as (d & Hd & Hb).
    { rewrite difference_nothing. lia. }
    rewrite difference_nothing in Hb.
    exists d. split; [exact Hd|]. split; [discriminate|]. intros _. lia.
  - exists 0. split; [done|]. split; [done|discriminate].
Qed.

(** More turns than needed change nothing. *)
Lemma walk_more_fuel fuel : ∀ fuel' visited current depth d,
  walk getParentAgentIds fuel visited current depth = Some d →
  fuel ≤ fuel' →
  walk getParentAgentIds fuel' visited current depth = Some d.
Proof.
  induction fuel as [|fuel IH]; intros fuel' visited current depth d;
    [discriminate|].
  intros Hw Hle. destruct fuel' as [|fuel']; [lia|]. simpl in *.
  destruct (strTruthy current); [|exact Hw].
  destruct (decide (current ∈ visited)); [exact Hw|].
  destruct (getParentAgentIds current) as [|parent others]; [exact Hw|].
  apply (IH fuel'); [exact Hw|lia].
Qed.

End Registry.

(** A registry in which two agents are each other's parent. *)
Definition mutualParents (id : string) : list string :=
  if String.eqb id "planner" then ["writer"]
  else if String.eqb id "writer" then ["planner"]
  else [].

Lemma delegation_depth_is_bounded_witness :
  ∃ depth,
    calculateDelegationDepth mutualParents
      (S (size ({["planner"; "writer"]} : gset string))) (Some "planner")
    = Some depth
    ∧ (optTruthy (Some "planner") = false → depth = 0)
    ∧ (optTruthy (Some "planner") = true →
       1 ≤ depth ≤ 1 + size ({["planner"; "writer"]} : gset string)).
Proof.
  apply (delegation_depth_is_bounded mutualParents
           {["planner"; "writer"]}).
  intros id. unfold mutualParents.
  destruct (String.eqb id "planner") eqn:E1.
  { apply String.eqb_eq in E1. subst id. intros _. set_solver. }
  destruct (String.eqb id "writer") eqn:E2.
  { apply String.eqb_eq in E2. subst id. intros _. set_solver. }
  done.
Defined.

End DelegationProps.

(** ** The query for semantic search *)
Module UserQueryProps.
Import Js UserQuery.
Import ErrorUtils (Result, Ok, Thrown, resultBind).
Import FullState (dropWhile).
Import FullStateProps (dropWhile_suffix, dropWhile_head, dropWhile_fixed,
  head_rev, last_rev, chars_trim, chars_app).

(** A string that neither starts nor ends with white space and is not
    empty. *)
Definition trimmed (s : string) : Prop :=
  let l := list_ascii_of_string s in
  l ≠ []
  ∧ (∀ a, head l = Some a → isSpace a = false)
  ∧ (∀ a, last l = Some a → isSpace a = false).

Lemma trim_head s a :
  head (list_ascii_of_string (trim s)) = Some a → isSpace a = false.
Proof.
  rewrite chars_trim.
  destruct (dropWhile_suffix isSpace
              (rev (dropWhile isSpace (list_ascii_of_string s))))
    as [q Hq].
  set (m := dropWhile isSpace (list_ascii_of_string s)) in *.
  set (n := dropWhile isSpace (rev m)) in *.
  assert (Hm : m = rev n ++ rev q).
  { by rewrite <- rev_app_distr, <- Hq, rev_involutive. }
  intros H.
  assert (Hh : head m = Some a).
  { rewrite Hm. destruct (rev n); [done|]. exact H. }
  by apply dropWhile_head in Hh.
Qed.

Lemma trim_last s a :
  last (list_ascii_of_string (trim s)) = Some a → isSpace a = false.
Proof. rewrite chars_trim, last_rev. apply dropWhile_head. Qed.

Lemma trim_trimmed s : strTruthy (trim s) = true → trimmed (trim s).
Proof.
  intros Hne. split; [|split].
  - destruct (trim s); [discriminate Hne|done].
  - apply trim_head.
  - apply trim_last.
Qed.

Lemma trimmed_fixed s : trimmed s → trim s = s.
Proof.
  intros (_ & Hh & Hl).
  assert (Hc : list_ascii_of_string (trim s) = list_ascii_of_string s).
  { rewrite chars_trim.
    rewrite (dropWhile_fixed isSpace _ Hh).
    rewrite (dropWhile_fixed isSpace (rev _)); [apply rev_involutive|].
    intros a Ha. rewrite head_rev in Ha. by apply Hl. }
  rewrite <- (string_of_list_ascii_of_string (trim s)), Hc.
  apply string_of_list_ascii_of_string.
Qed.

Lemma concat_cons sep s t ts :
  String.concat sep (s :: t :: ts)
  = s +:+ sep +:+ String.concat sep (t :: ts).
Proof. reflexivity. Qed.

Lemma concat_trimmed ts :
  ts ≠ [] → Forall trimmed ts → trimmed (String.concat " " ts).
Proof.
  induction ts as [|s ts IH]; [done|]. intros _ Hall.
  apply Forall_cons_1 in Hall as [Hs Hts].
  destruct ts as [|t ts]; [exact Hs|].
  rewrite concat_cons.
  destruct (IH ltac:(done) Hts) as (Hne & Hh & Hl).
  destruct Hs as (Hsne & Hsh & Hsl).
  unfold trimmed. cbv zeta. rewrite !chars_app.
  split; [|split].
  - destruct (list_ascii_of_string s); [done|discriminate].
  - intros a. destruct (list_ascii_of_string s) as [|c cs]; [done|].
    simpl. intros [= <-]. by apply Hsh.
  - intros a. rewrite app_assoc, last_app.
    destruct (last (list_ascii_of_string (String.concat " " (t :: ts))))
      as [c|] eqn:E.
    + intros [= <-]. by apply Hl.
    + apply last_None in E. by destruct Hne.
Qed.

Lemma textParts_trimmed parts : ∀ ts,
  textParts parts = Ok ts → Forall trimmed ts.
Proof.
  induction parts as [|part rest IH]; intros ts.
  { intros [= <-]. constructor. }
  simpl. destruct (textOf part) as [t|name]; [|discriminate]. simpl.
  destruct (textParts rest) as [ts'|name]; [|discriminate]. simpl.
  intros [= <-]. specialize (IH ts' eq_refl).
  destruct t as [s|]; [|exact IH].
  destruct (strTruthy (trim s)) eqn:E; [|exact IH].
  constructor; [by apply trim_trimmed|exact IH].
Qed.

Lemma joined_trimmed ts q :
  Forall trimmed ts → joined ts = Some q → trimmed q.
Proof.
  destruct ts as [|t ts]; [discriminate|]. intros Hall [= <-].
  by apply (concat_trimmed (t :: ts)).
Qed.

Lemma queryOf_trimmed msg q : queryOf msg = Ok (Some q) → trimmed q.
Proof.
  destruct msg as [| | | | | |fields]; try discriminate. simpl.
  assert (Hparts : ∀ parts,
    resultBind (textParts parts) (λ ts, Ok (joined ts)) = Ok (Some q) →
    trimmed q).
  { intros parts. destruct (textParts parts) as [ts|name] eqn:E;
      [|discriminate].
    simpl. intros [= Hj]. apply (joined_trimmed ts); [|exact Hj].
    by apply (textParts_trimmed parts). }
  assert (Hcontent :
    match assoc "content" fields with
    | Some (JStr content) =>
        Ok (if 0 <? String.length (trim content)
            then Some (trim content) else None)
    | Some (JArr parts) =>
        resultBind (textParts parts) (λ ts, Ok (joined ts))
    | _ => Ok None
    end = Ok (Some q) → trimmed q).
  { destruct (assoc "content" fields) as [[| | | |content|parts|]|];
      try discriminate.
    - destruct (0 <? String.length (trim content)) eqn:E; [|discriminate].
      intros [= <-]. apply trim_trimmed.
      destruct (trim content); [discriminate E|done].
    - apply Hparts. }
  destruct (assoc "parts" fields) as [[| | | | |parts|]|];
    try exact Hcontent.
  apply Hparts.
Qed.

(** X6: the query taken from a list of messages is never empty and
    neither starts nor ends with white space, so that trimming it again
    changes nothing. *)
Theorem query_from_messages_is_trimmed (messages : list JsValue)
    (query : string) :
  extractUserQuery (JArr messages) = Ok (Some query) →
  query ≠ "" ∧ trim query = query.
Proof.
  intros H.
  assert (Ht : trimmed query).
  { destruct messages as [|m ms]; [discriminate|].
    unfold extractUserQuery in H.
    destruct (userMessages (m :: ms)) as [users|name]; [|discriminate].
    simpl in H. destruct (last users) as [lastUserMessage|]; [|discriminate].
    by apply (queryOf_trimmed lastUserMessage). }
  split; [|by apply trimmed_fixed].
  destruct Ht as [Hne _]. by intros ->.
Qed.

Lemma query_from_messages_is_trimmed_witness :
  "what is VoltAgent?" ≠ "" ∧ trim "what is VoltAgent?"
                                 = "what is VoltAgent?".
Proof.
  apply (query_from_messages_is_trimmed
           [JObj [("role", JStr "system"); ("content", JStr "be brief")];
            JObj [("role", JStr "user");
                  ("parts", JArr [JObj [("type", JStr "text");
                                        ("text", JStr "  what is  ")];
                                  JObj [("type", JStr "file")];
                                  JObj [("type", JStr "text");
                                        ("text", JStr "   ")];
                                  JObj [("type", JStr "text");
                                        ("text", JStr " VoltAgent? ")]])]]).
  vm_compute. reflexivity.
Defined.

Lemma userMessages_app before after : ∀ kept keptAfter,
  userMessages before = Ok kept →
  userMessages after = Ok keptAfter →
  userMessages (before ++ after) = Ok (kept ++ keptAfter).
Proof.
  induction before as [|msg rest IH]; intros kept keptAfter.
  { by intros [= <-]. }
  simpl. destruct (isUserMessage msg) as [keep|name]; [|discriminate]. simpl.
  destruct (userMessages rest) as [kept'|name]; [|discriminate]. simpl.
  intros [= <-] Ha. rewrite (IH kept' keptAfter eq_refl Ha). simpl.
  by destruct keep.
Qed.

Lemma userMessages_none after :
  Forall (λ msg, isUserMessage msg = Ok false) after →
  userMessages after = Ok [].
Proof.
  induction 1 as [|msg rest Hm _ IH]; [done|]. simpl.
  by rewrite Hm, IH.
Qed.

Lemma userMessages_ok before :
  Forall (λ msg, ∃ keep, isUserMessage msg = Ok keep) before →
  ∃ kept, userMessages before = Ok kept.
Proof.
  induction 1 as [|msg rest [keep Hm] _ [kept IH]]; [by exists []|].
  simpl. rewrite Hm, IH. simpl. eauto.
Qed.

(** X7: only the last message with the role [user] counts: whatever
    comes before it, and whatever messages of other roles come after it,
    the query is the one of that message alone (no message being [null] or
    [undefined]). *)
Theorem last_user_message_decides (before after : list JsValue)
    (message : JsValue) :
  isUserMessage message = Ok true →
  Forall (λ msg, ∃ keep, isUserMessage msg = Ok keep) before →
  Forall (λ msg, isUserMessage msg = Ok false) after →
  extractUserQuery (JArr (before ++ message :: after)) = queryOf message
  ∧ extractUserQuery (JArr [message]) = queryOf message.
Proof.
  intros Hm Hb Ha.
  destruct (userMessages_ok before Hb) as [kept Hk].
  assert (Hrest : userMessages (message :: after) = Ok [message]).
  { simpl. rewrite Hm, (userMessages_none after Ha). reflexivity. }
  pose proof (userMessages_app before (message :: after) kept [message]
                Hk Hrest) as Hall.
  split.
  - unfold extractUserQuery.
    destruct (before ++ message :: after) as [|x xs] eqn:E.
    { by destruct before. }
    rewrite Hall. simpl. by rewrite last_snoc.
  - unfold extractUserQuery. simpl. rewrite Hm. reflexivity.
Qed.

Lemma last_user_message_decides_witness :
  extractUserQuery
    (JArr ([JObj [("role", JStr "user"); ("content", JStr "first")]]
           ++ JObj [("role", JStr "user"); ("content", JStr " second ")]
           :: [JObj [("role", JStr "assistant"); ("content", JStr "ok")]]))
  = queryOf (JObj [("role", JStr "user"); ("content", JStr " second ")])
  ∧ extractUserQuery
      (JArr [JObj [("role", JStr "user"); ("content", JStr " second ")]])
    = queryOf (JObj [("role", JStr "user"); ("content", JStr " second ")]).
Proof.
  apply last_user_message_decides.
  - reflexivity.
  - repeat constructor. by exists true.
  - repeat constructor.
Defined.

End UserQueryProps.

(** ** Model-call spans *)
Module TelemetryProps.
Import Js Telemetry.

Section Numbers.
Context {Num : Type}.
Variable isFinite : Num → bool.
Variable toNumber : string → Num.
Variable zero : Num.
Variable add : Num → Num → Num.

Abbreviation finalize := (Telemetry.finalize isFinite toNumber zero add).
Abbreviation finalizeAll := (Telemetry.finalizeAll isFinite toNumber zero add).
Abbreviation recordLLMUsage :=
  (Telemetry.recordLLMUsage isFinite toNumber zero add).
Abbreviation firstCoerced := (Telemetry.firstCoerced isFinite toNumber).
Abbreviation promptTokens := (Telemetry.promptTokens isFinite toNumber).
Abbreviation completionTokens :=
  (Telemetry.completionTokens isFinite toNumber).

Lemma finalize_ended code details (f : Finalizer (Num := Num)) :
  ended (finalize code details f) = true.
Proof. unfold Telemetry.finalize. by destruct (ended f) eqn:E. Qed.

Lemma finalizeAll_ended calls : ∀ f : Finalizer (Num := Num),
  ended f = true → finalizeAll calls f = f.
Proof.
  induction calls as [|call calls IH]; intros f Hf; [done|].
  unfold Telemetry.finalizeAll. simpl. unfold Telemetry.finalize at 2.
  rewrite Hf. by apply IH.
Qed.

Lemma recordLLMUsage_endCalls (sp : Span (Num := Num)) usage :
  endCalls (recordLLMUsage sp usage) = endCalls sp.
Proof.
  destruct usage as [u|]; [|done]. unfold Telemetry.recordLLMUsage.
  by destruct (completionTokens u), (promptTokens u).
Qed.

(** X8: only the first call of a span finalizer takes effect: whatever
    calls follow, with whatever status and details, the span stays as the
    first call left it, and [end()] has been called on it exactly once. *)
Theorem finalizer_first_call_wins (s : Span (Num := Num)) code details
    (calls : list (SpanStatusCode * option Details)) :
  let first := finalize code details (createLLMSpanFinalizer s) in
  finalizeAll ((code, details) :: calls) (createLLMSpanFinalizer s)
  = first
  ∧ endCalls (span first) = S (endCalls s)
  ∧ status (span first)
    = Some (code, if optTruthy (details ≫= d_message)
                  then details ≫= d_message else None).
Proof.
  intros first. split; [|split].
  - unfold Telemetry.finalizeAll. simpl.
    apply finalizeAll_ended, finalize_ended.
  - subst first. unfold Telemetry.finalize. simpl.
    destruct (optTruthy (details ≫= d_message)); simpl;
      (destruct (details ≫= d_finishReason) as [reason|];
       [destruct (strTruthy reason)|]); simpl;
      by rewrite recordLLMUsage_endCalls.
  - subst first. unfold Telemetry.finalize. simpl.
    by destruct (optTruthy (details ≫= d_message)).
Qed.

Lemma attributes_setIfDefined key v (sp : Span (Num := Num)) k :
  attributes (setIfDefined key v sp) !! k
  = match v with
    | Some n => if decide (key = k) then Some (ANumber n)
                else attributes sp !! k
    | None => attributes sp !! k
    end.
Proof.
  destruct v as [n|]; [|done]. simpl.
  destruct (decide (key = k)) as [->|Hne].
  - by rewrite lookup_insert_eq.
  - by rewrite lookup_insert_ne.
Qed.

(** X9: whenever a usage object is given, the total token count is
    recorded on the span: the total the object states, if it states one
    that is finite, and otherwise what [+] gives for the prompt and the
    completion count, a missing count taken as 0; the sum is recorded
    whatever it comes to.  The prompt and completion attributes are written
    only when the object states them and are left as they were
    otherwise. *)
Theorem usage_total_is_always_recorded (sp : Span (Num := Num))
    (usage : Usage) :
  let after := recordLLMUsage sp (Some usage) in
  attributes after !! "llm.usage.total_tokens"
  = Some (ANumber
            match firstCoerced usage ["totalTokens"; "total_tokens"] with
            | Some stated => stated
            | None =>
                add (default zero (promptTokens usage))
                  (default zero (completionTokens usage))
            end)
  ∧ ((∀ key, field usage key = FAbsent) →
     attributes after !! "llm.usage.total_tokens"
     = Some (ANumber (add zero zero))
     ∧ attributes after !! "llm.usage.prompt_tokens"
       = attributes sp !! "llm.usage.prompt_tokens"
     ∧ attributes after !! "llm.usage.completion_tokens"
       = attributes sp !! "llm.usage.completion_tokens")
  ∧ attributes after !! "llm.usage.prompt_tokens"
    = match promptTokens usage with
      | Some n => Some (ANumber n)
      | None => attributes sp !! "llm.usage.prompt_tokens"
      end
  ∧ attributes after !! "llm.usage.completion_tokens"
    = match completionTokens usage with
      | Some n => Some (ANumber n)
      | None => attributes sp !! "llm.usage.completion_tokens"
      end
  ∧ status after = status sp ∧ endCalls after = endCalls sp.
Proof.
  intros after. subst after. unfold Telemetry.recordLLMUsage.
  assert (Hprompt :
    attributes
      (setIfDefined "llm.usage.total_tokens"
         (Some (totalTokens isFinite toNumber zero add usage))
         (setIfDefined "llm.usage.completion_tokens" (completionTokens usage)
            (setIfDefined "llm.usage.prompt_tokens" (promptTokens usage) sp)))
      !! "llm.usage.prompt_tokens"
    = match promptTokens usage with
      | Some n => Some (ANumber n)
      | None => attributes sp !! "llm.usage.prompt_tokens"
      end).
  { rewrite !attributes_setIfDefined.
    rewrite decide_False by done.
    destruct (completionTokens usage);
      [rewrite decide_False by done|];
      by destruct (promptTokens usage); [rewrite decide_True|]. }
  assert (Hcompletion :
    attributes
      (setIfDefined "llm.usage.total_tokens"
         (Some (totalTokens isFinite toNumber zero add usage))
         (setIfDefined "llm.usage.completion_tokens" (completionTokens usage)
            (setIfDefined "llm.usage.prompt_tokens" (promptTokens usage) sp)))
      !! "llm.usage.completion_tokens"
    = match completionTokens usage with
      | Some n => Some (ANumber n)
      | None => attributes sp !! "llm.usage.completion_tokens"
      end).
  { rewrite !attributes_setIfDefined.
    rewrite decide_False by done.
    destruct (completionTokens usage); [by rewrite decide_True|].
    destruct (promptTokens usage); [by rewrite decide_False|done]. }
  assert (Htotal :
    attributes
      (setIfDefined "llm.usage.total_tokens"
         (Some (totalTokens isFinite toNumber zero add usage))
         (setIfDefined "llm.usage.completion_tokens" (completionTokens usage)
            (setIfDefined "llm.usage.prompt_tokens" (promptTokens usage) sp)))
      !! "llm.usage.total_tokens"
    = Some (ANumber (totalTokens isFinite toNumber zero add usage))).
  { rewrite attributes_setIfDefined. by rewrite decide_True. }
  split; [exact Htotal|].
  split; [|split; [exact Hprompt|split; [exact Hcompletion|]]].
  - intros Habsent.
    assert (Hnone : ∀ keys, firstCoerced usage keys = None).
    { induction keys as [|key keys IH]; [done|]. simpl.
      by rewrite (Habsent key). }
    rewrite Htotal, Hprompt, Hcompletion.
    unfold totalTokens, Telemetry.promptTokens, Telemetry.completionTokens.
    by rewrite !Hnone.
  - split;
      by destruct (completionTokens usage), (promptTokens usage).
Qed.

End Numbers.

(** Counts as integers, for concrete usage objects. *)
Definition parseCount (s : string) : Z :=
  if String.eqb s "30" then 30%Z else 0%Z.

(** [{ inputTokens: 12, outputTokens: "30" }]: no total stated. *)
Definition splitUsage : Usage (Num := Z) :=
  [("inputTokens", FNumber 12%Z); ("outputTokens", FText "30")].

Definition freshSpan : Span (Num := Z) :=
  {| attributes := ∅; status := None; endCalls := 0 |}.

Lemma usage_total_is_always_recorded_witness :
  attributes
    (Telemetry.recordLLMUsage (λ _, true) parseCount 0%Z Z.add freshSpan
       (Some splitUsage))
    !! "llm.usage.total_tokens"
  = Some (ANumber 42%Z)
  ∧ attributes
      (Telemetry.recordLLMUsage (λ _, true) parseCount 0%Z Z.add freshSpan
         (Some []))
      !! "llm.usage.total_tokens"
    = Some (ANumber 0%Z).
Proof.
  split.
  - exact (proj1 (usage_total_is_always_recorded (λ _, true) parseCount 0%Z
                    Z.add freshSpan splitUsage)).
  - exact (proj1 (proj1 (proj2 (usage_total_is_always_recorded (λ _, true)
                                  parseCount 0%Z Z.add freshSpan []))
                    (λ _, eq_refl))).
Defined.

End TelemetryProps.

(** ** The returned result *)
Module ResultCloneProps.
Import Js ResultClone.

Lemma defined_lookup (overrides : gmap string JsValue)
    (base : gmap PropertyKey Descriptor) (k : PropertyKey) :
  map_fold
    (λ key value clone,
       <[inl key := DataDescriptor value true true true]> clone)
    base overrides !! k
  = match k with
    | inl name =>
        match overrides !! name with
        | Some v => Some (DataDescriptor v true true true)
        | None => base !! k
        end
    | inr _ => base !! k
    end.
Proof.
  induction overrides as [|key value overrides Hkey Hfold IH]
    using map_first_key_ind.
  { rewrite map_fold_empty. destruct k; [by rewrite lookup_empty|done]. }
  rewrite map_fold_insert_first_key by done.
  destruct k as [name|sym].
  - destruct (decide (key = name)) as [->|Hne].
    + by rewrite !lookup_insert_eq.
    + rewrite lookup_insert_ne by congruence.
      rewrite (lookup_insert_ne overrides) by done. exact IH.
  - rewrite lookup_insert_ne by done. exact IH.
Qed.

(** X10: in the result handed back to the caller, a property named by
    the overrides is a plain writable, enumerable, configurable data
    property holding the override; every other string-keyed own property of
    the service's result is carried over with its descriptor, accessors
    included; own properties keyed by a symbol are not carried over; the
    prototype is the same. *)
Theorem clone_properties (result : Object)
    (overrides : gmap string JsValue) :
  let clone := cloneGenerateTextResultWithContext result overrides in
  prototype clone = prototype result
  ∧ (∀ name value,
       overrides !! name = Some value →
       own clone !! inl name = Some (DataDescriptor value true true true))
  ∧ (∀ name,
       overrides !! name = None →
       own clone !! inl name = own result !! inl name)
  ∧ (∀ symbol, own clone !! inr symbol = None).
Proof.
  intros clone. subst clone. unfold cloneGenerateTextResultWithContext.
  simpl. split; [done|]. split; [|split].
  - intros name value Hv. by rewrite defined_lookup, Hv.
  - intros name Hn. rewrite defined_lookup, Hn.
    unfold descriptorEntries.
    destruct (own result !! inl name) as [d|] eqn:E.
    + apply map_lookup_filter_Some. split.
      * apply map_lookup_filter_Some. by split.
      * simpl. apply bool_decide_eq_false. rewrite Hn.
        by intros [? ?].
    + apply map_lookup_filter_None. left.
      apply map_lookup_filter_None. by left.
  - intros symbol. rewrite defined_lookup. unfold descriptorEntries.
    apply map_lookup_filter_None. right. intros d Hd.
    apply map_lookup_filter_Some in Hd as [_ Hd]. discriminate Hd.
Qed.

End ResultCloneProps.

(** ** System instructions *)
Module InstructionsProps.
Import Js StepRecorder Instructions.

Lemma append_assoc (a b c : string) : (a +:+ b) +:+ c = a +:+ (b +:+ c).
Proof.
  induction a as [|x a IH]; [done|].
  change (String x ((a +:+ b) +:+ c) = String x (a +:+ b +:+ c)).
  by rewrite IH.
Qed.

Lemma append_empty (a : string) : a +:+ "" = a.
Proof.
  induction a as [|x a IH]; [done|].
  change (String x (a +:+ "") = String x a). by rewrite IH.
Qed.

Lemma toolkitInstructions_grows toolkits : ∀ acc,
  ∃ more, toolkitInstructions acc toolkits = acc +:+ more.
Proof.
  induction toolkits as [|toolkit rest IH]; intros acc.
  { exists "". by rewrite append_empty. }
  simpl.
  destruct (tk_addInstructions toolkit && optTruthy (tk_instructions toolkit)).
  - destruct (IH (acc +:+ newline +:+ newline +:+
                    default "" (tk_instructions toolkit))) as [more ->].
    eexists. rewrite append_assoc. reflexivity.
  - apply IH.
Qed.

Lemma toolkitInstructions_silent toolkits : ∀ acc,
  Forall (λ toolkit, tk_addInstructions toolkit = false
                     ∨ optTruthy (tk_instructions toolkit) = false)
    toolkits →
  toolkitInstructions acc toolkits = acc.
Proof.
  induction toolkits as [|toolkit rest IH]; intros acc Hall; [done|].
  apply Forall_cons_1 in Hall as [Ht Hrest]. simpl.
  assert (tk_addInstructions toolkit && optTruthy (tk_instructions toolkit)
          = false) as ->.
  { destruct Ht as [-> | ->]; [done|apply andb_false_r]. }
  by apply IH.
Qed.

(** X11: for an agent without sub-agents the enriched instructions are
    the base instructions with text appended, never changed; when no
    toolkit contributes instructions, markdown is off and neither retriever
    nor working-memory context is given, they are the base instructions
    themselves. *)
Theorem instructions_are_only_appended_to (toolkits : list Toolkit)
    (markdown : bool)
    (generateSupervisorSystemMessage : string → string → string)
    (baseContent : string) (retrieverContext workingMemoryContext
      : option string) (conversationSteps : option (list StepWithContent)) :
  (∃ appended,
     enrichInstructions toolkits markdown 0 generateSupervisorSystemMessage
       baseContent retrieverContext workingMemoryContext conversationSteps
     = baseContent +:+ appended)
  ∧ (Forall (λ toolkit, tk_addInstructions toolkit = false
                        ∨ optTruthy (tk_instructions toolkit) = false)
       toolkits →
     markdown = false →
     optTruthy retrieverContext = false →
     optTruthy workingMemoryContext = false →
     enrichInstructions toolkits markdown 0 generateSupervisorSystemMessage
       baseContent retrieverContext workingMemoryContext conversationSteps
     = baseContent).
Proof.
  split.
  - unfold enrichInstructions, addToolkitInstructions. simpl.
    destruct markdown, (optTruthy retrieverContext),
      (optTruthy workingMemoryContext);
      rewrite ?append_assoc; eexists; reflexivity.
  - intros Hsilent -> Hr Hw.
    unfold enrichInstructions, addToolkitInstructions. simpl.
    rewrite Hr, Hw, (toolkitInstructions_silent toolkits "" Hsilent).
    apply append_empty.
Qed.

Lemma instructions_are_only_appended_to_witness :
  enrichInstructions
    [ {| tk_addInstructions := false;
         tk_instructions := Some "Use the search tool first." |} ]
    false 0 (λ content _, content) "You are a helpful assistant."
    None (Some "") None
  = "You are a helpful assistant.".
Proof.
  apply (proj2 (instructions_are_only_appended_to _ _ _ _ _ _ _));
    try reflexivity.
  repeat constructor.
Defined.

Definition isAssistant (step : StepWithContent) : bool :=
  String.eqb (swc_role step) "assistant".

Lemma filter_filter_weaker {A} (p q : A → bool) (l : list A) :
  (∀ x, p x = true → q x = true) →
  List.filter p (List.filter q l) = List.filter p l.
Proof.
  intros Hpq. induction l as [|x l IH]; [done|]. cbn [List.filter].
  destruct (q x) eqn:Eq.
  - cbn [List.filter]. destruct (p x); by rewrite IH.
  - destruct (p x) eqn:Ep; [|exact IH].
    apply Hpq in Ep. congruence.
Qed.

Lemma filter_filter_assistant (steps : list StepWithContent) :
  List.filter
    (λ step, negb (String.eqb (swc_role step) "system")
             && String.eqb (swc_role step) "assistant")
    (List.filter isAssistant steps)
  = List.filter
      (λ step, negb (String.eqb (swc_role step) "system")
               && String.eqb (swc_role step) "assistant")
      steps.
Proof.
  apply filter_filter_weaker. intros step Hs.
  by apply andb_true_iff in Hs as [_ Hs].
Qed.

(** X12: the history handed to a supervisor is never empty when the agent
    has sub-agents, is empty when it has none, and depends on the steps of
    the role [assistant] only: steps of any other role can be left out
    without changing it. *)
Theorem agents_memory_reads_assistant_steps (subAgents : nat)
    (steps : list StepWithContent) :
  (0 < subAgents → prepareAgentsMemory subAgents (Some steps) ≠ "")
  ∧ prepareAgentsMemory 0 (Some steps) = ""
  ∧ prepareAgentsMemory subAgents (Some (List.filter isAssistant steps))
    = prepareAgentsMemory subAgents (Some steps)
  ∧ prepareAgentsMemory subAgents None = prepareAgentsMemory subAgents (Some []).
Proof.
  split; [|split; [done|split; [|done]]].
  - intros Hpos. unfold prepareAgentsMemory.
    destruct subAgents as [|n]; [lia|]. simpl.
    match goal with |- (if strTruthy ?m then _ else _) ≠ _ =>
      destruct (strTruthy m) eqn:E; [|done];
      intros Hm; rewrite Hm in E; discriminate E end.
  - unfold prepareAgentsMemory. destruct (subAgents =? 0); [done|].
    simpl. by rewrite filter_filter_assistant.
Qed.

End InstructionsProps.

(** ** Hooks supplied at one level only *)
Module HooksLevelsProps.
Import Effects Hooks.

Section Props.
Context {S E Args R : Type}.
Implicit Types agentHooks callHooks : AgentHooks S E Args R.

(** X13: once a call supplies a hooks object, every merged hook other
    than the two message-preparation hooks is defined, whether or not
    either level supplies it: it runs the hooks that exist, call-level
    first, and gives back [undefined] whatever they return; with neither
    supplied it leaves the state as it is.  A message-preparation hook is
    the call-level one when that exists and the agent-level one
    otherwise, never both. *)
Theorem merged_hook_at_one_level n agentHooks callHooks :
  let merged :=
    getMergedHooks agentHooks (Some {| opt_hooks := Some callHooks |}) in
  if isPrepare n
  then hookNamed n merged
       = match hookNamed n callHooks with
         | Some c => Some c
         | None => hookNamed n agentHooks
         end
  else ∃ m, hookNamed n merged = Some m
            ∧ ∀ args s,
                m args s =
                  match hookNamed n callHooks, hookNamed n agentHooks with
                  | None, None => Returned s None
                  | Some c, None =>
                      match c args s with
                      | Returned s1 _ => Returned s1 None
                      | Threw s1 e => Threw s1 e
                      end
                  | None, Some a =>
                      match a args s with
                      | Returned s1 _ => Returned s1 None
                      | Threw s1 e => Threw s1 e
                      end
                  | Some c, Some a =>
                      match c args s with
                      | Returned s1 _ =>
                          match a args s1 with
                          | Returned s2 _ => Returned s2 None
                          | Threw s2 e => Threw s2 e
                          end
                      | Threw s1 e => Threw s1 e
                      end
                  end.
Proof.
  cbv zeta.
  destruct n; simpl; try reflexivity;
    (eexists; split; [reflexivity|]; intros args s;
     unfold callThenAgent, bind, callHook, ret;
     repeat match goal with
            | |- context [match ?h with Some _ => _ | None => _ end] =>
                destruct h
            end;
     repeat match goal with
            | |- context [match ?h ?a ?st with
                          | Returned _ _ => _ | Threw _ _ => _ end] =>
                destruct (h a st)
            end; reflexivity).
Qed.

End Props.
End HooksLevelsProps.

(** ** The abort-handling stage of the full stream *)
Module AbortStageProps.
Import Js Streaming.

(** X14: the abort-handling stage hands the reader a first part of what
    the base stream delivers, in order, and nothing else.  It ends with an
    error only when the base stream does, after everything was handed on
    and with that same error; once the signal is found aborted nothing
    more is handed on and the stage ends without an error. *)
Theorem abort_stage_delivers_a_prefix (aborted : nat → bool)
    (base : list JsValue) (baseEnding : Ending) (look : nat) :
  let delivered := wrapWithAbortHandling aborted look base baseEnding in
  chunks delivered `prefix_of` base
  ∧ (∀ error, ending delivered = Failed error →
       baseEnding = Failed error ∧ chunks delivered = base)
  ∧ (aborted look = true → delivered = {| chunks := []; ending := Done |})
  ∧ (chunks delivered ≠ base → ending delivered = Done).
Proof.
  cbv zeta. revert look.
  induction base as [|value rest IH]; intros look; simpl.
  - destruct (aborted look) eqn:E0; simpl.
    { split; [done|]. split; [discriminate|]. split; [done|]. done. }
    destruct baseEnding as [|failure]; simpl.
    { split; [done|]. split; [discriminate|]. split; [discriminate|]. done. }
    destruct (aborted (S look)); simpl.
    + split; [done|]. split; [discriminate|]. split; [discriminate|]. done.
    + split; [done|]. split; [by intros error [= <-]|].
      split; [discriminate|]. done.
  - destruct (aborted look) eqn:E0; simpl.
    { split; [apply prefix_nil|]. split; [discriminate|].
      split; [done|]. done. }
    destruct (IH (S look)) as (Hp & Hf & _ & Hd).
    split; [by apply prefix_cons|].
    split; [|split; [discriminate|]].
    + intros error He. destruct (Hf error He) as [-> ->]. done.
    + intros Hne. apply Hd. intros Heq. apply Hne. by rewrite Heq.
Qed.

End AbortStageProps.

(** ** Steps that carry no bail *)
Module BailStepProps.
Import Js Effects Hooks StepRecorder Bail BailProps.

Section Operation.
Context {U : Type}.
Variable numberToString : Z → string.

(** X15: what the step handler does with a step that carries no bail.
    (1) When the search passes over every element of every tool-result
    array of the step (none is [null], [undefined] or tagged
    [bailed: true]), the handler stores the step (when its content is an
    array), hands its response messages, if any, to the buffer and ends with
    the [onStepFinish] hook, whose outcome is the handler's; up to the hook
    no bailed result is recorded and the controller is not aborted.
    (2) When the search reaches an element that is [null] or [undefined]
    before any tagged one, the handler throws a [TypeError] with the step
    stored: nothing is handed to the buffer, the hook is not called, no
    bailed result is recorded and the controller is not aborted. *)
Theorem step_without_bail_goes_on (hooks : BailHooks U) (event : StepResult)
    (s : OperationState U) :
  let stored :=
    match step_content event with
    | Some _ => pushStoredStep event s
    | None => s
    end in
  let buffered :=
    match step_responseMessages event with
    | Some (m :: ms) => addModelMessages (m :: ms) stored
    | _ => stored
    end in
  ((∀ parts, step_content event = Some parts →
             forallb quietPart parts = true) →
   createStepHandler numberToString hooks event s
   = match callHook (onStepFinish hooks) (StepFinishArgs event) buffered with
     | Returned s' _ => Returned s' tt
     | Threw s' e => Threw s' e
     end
   ∧ bailedResult buffered = bailedResult s
   ∧ abortReason buffered = abortReason s)
  ∧ (∀ before toolName toolCallId pre x post after,
       step_content event
       = Some (before
               ++ PartToolResult toolName toolCallId (JArr (pre ++ x :: post))
                  :: after) →
       forallb quietPart before = true →
       forallb passedOver pre = true →
       nullish x = true →
       createStepHandler numberToString hooks event s
       = Threw (pushStoredStep event s) (OtherError (JStr "TypeError"))
       ∧ bailedResult (pushStoredStep event s) = bailedResult s
       ∧ abortReason (pushStoredStep event s) = abortReason s
       ∧ bufferedMessages (pushStoredStep event s) = bufferedMessages s).
Proof.
  intros stored buffered. split.
  - intros Hquiet. split.
    + unfold createStepHandler. subst buffered stored.
      destruct (step_content event) as [parts|] eqn:Ec;
        [|apply finish_unfold].
      unfold bind at 1, modify at 1. unfold bind at 1.
      rewrite <- (app_nil_r parts).
      rewrite (scanContent_quiet _ _ _ _ (Hquiet parts eq_refl)).
      apply finish_unfold.
    + subst buffered stored.
      by destruct (step_content event),
        (step_responseMessages event) as [[|m ms]|].
  - intros before toolName toolCallId pre x post after Hc Hq Hpre Hx.
    split; [|done].
    unfold createStepHandler. rewrite Hc.
    unfold bind at 1, modify at 1. unfold bind.
    rewrite (scanContent_quiet _ _ _ _ Hq).
    by rewrite (scanContent_nullish _ _ _ _ _ _ _ _ Hpre Hx).
Qed.

End Operation.

(** A step whose tool result has an element with the string ["true"]
    under [bailed]. *)
Definition searchStep : StepResult :=
  {| step_content :=
       Some [PartToolResult "search" "call-7"
               (JArr [JObj [("title", JStr "Docs")];
                      JObj [("bailed", JStr "true")]])];
     step_text := None; step_toolCalls := None; step_toolResults := None;
     step_usage := None; step_responseMessages := Some [JStr "found 2"] |}.

(** A step whose tool result lost its second element. *)
Definition holedStep : StepResult :=
  {| step_content :=
       Some [PartText "Searching";
             PartToolResult "search" "call-8"
               (JArr [JObj [("title", JStr "Docs")]; JUndefined])];
     step_text := None; step_toolCalls := None; step_toolResults := None;
     step_usage := None; step_responseMessages := Some [JStr "found 2"] |}.

Lemma step_without_bail_goes_on_witness :
  createStepHandler decimal BailExamples.noHooks searchStep
    BailExamples.startState
  = Returned
      (addModelMessages [JStr "found 2"]
         (pushStoredStep searchStep BailExamples.startState)) tt
  ∧ createStepHandler decimal BailExamples.noHooks holedStep
      BailExamples.startState
    = Threw (pushStoredStep holedStep BailExamples.startState)
        (OtherError (JStr "TypeError")).
Proof.
  split.
  - refine (proj1 (proj1 (step_without_bail_goes_on decimal BailExamples.noHooks
                            searchStep BailExamples.startState) _)).
    intros parts [= <-]. reflexivity.
  - exact (proj1 (proj2 (step_without_bail_goes_on decimal BailExamples.noHooks
                           holedStep BailExamples.startState)
                    [PartText "Searching"] "search" "call-8"
                    [JObj [("title", JStr "Docs")]] JUndefined [] []
                    eq_refl eq_refl eq_refl eq_refl)).
Defined.

End BailStepProps.

(** ** What an error payload holds *)
Module ErrorPayloadProps.
Import Js ErrorUtils.
Import ToolExecutionProps (assoc_payload_objSet).

Lemma copyOwnProperties_keys depth h props : ∀ acc p,
  copyOwnProperties depth h props acc = Ok p →
  (∀ k, isReserved k = true → assoc k p = assoc k acc)
  ∧ (∀ k, is_Some (assoc k p) →
       is_Some (assoc k acc)
       ∨ ∃ v, (k, v) ∈ props ∧ keepsProperty v = true
              ∧ isReserved k = false).
Proof.
  induction props as [|[key value] props IH]; intros acc p; simpl.
  { intros [= <-]. split; [done|]. intros k Hk. by left. }
  destruct (isReserved key || negb (keepsProperty value)) eqn:Eskip.
  - intros Hp. destruct (IH acc p Hp) as [Hres Hkeys].
    split; [exact Hres|]. intros k Hk.
    destruct (Hkeys k Hk) as [Hacc|(v & Hin & Hv)]; [by left|].
    right. exists v. split; [by right|exact Hv].
  - apply orb_false_iff in Eskip as [Hkey Hkeep].
    apply negb_false_iff in Hkeep.
    destruct (sanitizeErrorValue depth h value) as [out|name] eqn:Es;
      [|discriminate].
    simpl. intros Hp.
    destruct (IH (objSet key out acc) p Hp) as [Hres Hkeys].
    split.
    + intros k Hk. rewrite (Hres k Hk), assoc_payload_objSet.
      destruct (String.eqb_spec k key) as [->|]; [congruence|done].
    + intros k Hk. destruct (Hkeys k Hk) as [Hacc|(v & Hin & Hv)].
      * rewrite assoc_payload_objSet in Hacc.
        destruct (String.eqb_spec k key) as [->|]; [|by left].
        right. exists value. split; [by left|done].
      * right. exists v. split; [by right|exact Hv].
Qed.

(** X16: whenever the payload of a tool error is built, it is marked
    [error: true]; its [cause] is absent when the error has none, the
    name, message and stack of the cause when that is an [Error], and the
    sanitised cause otherwise; and besides the six fixed fields and [cause]
    it holds only own properties of the error that are neither [undefined]
    nor functions and do not bear a reserved name. *)
Theorem payload_cause_and_keys depth h error toolCallId toolName payload :
  buildToolErrorResult depth h error toolCallId toolName = Ok payload →
  let cause := default VUndefined (assoc "cause" (err_props error)) in
  assoc "error" payload = Some (JBool true)
  ∧ match cause with
    | VUndefined => assoc "cause" payload = None
    | VRef a =>
        match h !! a with
        | Some (OError c) => assoc "cause" payload = Some (errorSummary c)
        | _ => ∃ out, sanitizeErrorValue depth h cause = Ok out
                      ∧ assoc "cause" payload = Some out
        end
    | _ => ∃ out, sanitizeErrorValue depth h cause = Ok out
                  ∧ assoc "cause" payload = Some out
    end
  ∧ (∀ k, is_Some (assoc k payload) →
       k ∈ ["error"; "name"; "message"; "stack"; "toolCallId"; "toolName";
            "cause"]
       ∨ ∃ v, (k, v) ∈ err_props error ∧ keepsProperty v = true
              ∧ isReserved k = false).
Proof.
  unfold buildToolErrorResult. cbv zeta.
  set (base := [("error", JBool true); ("name", JStr (err_name error));
                ("message", JStr (err_message error));
                ("stack", match err_stack error with
                          | Some s => JStr s
                          | None => JUndefined
                          end);
                ("toolCallId", JStr toolCallId);
                ("toolName", JStr toolName)]).
  set (cause := default VUndefined (assoc "cause" (err_props error))).
  assert (Hbase : ∀ k, is_Some (assoc k base) →
            k ∈ ["error"; "name"; "message"; "stack"; "toolCallId";
                 "toolName"; "cause"]).
  { intros k [v Hv]. subst base. cbn [assoc] in Hv.
    repeat match type of Hv with
           | context [String.eqb k ?x] =>
               destruct (String.eqb_spec k x) as [->|];
               [repeat ((by left) || right)|]
           end.
    discriminate Hv. }
  assert (Hset : ∀ out k, is_Some (assoc k (objSet "cause" out base)) →
            k ∈ ["error"; "name"; "message"; "stack"; "toolCallId";
                 "toolName"; "cause"]).
  { intros out k. rewrite assoc_payload_objSet.
    destruct (String.eqb_spec k "cause") as [->|];
      [repeat ((by left) || right)|].
    apply Hbase. }
  assert (Hfinish : ∀ r,
    assoc "error" r = Some (JBool true) →
    (∀ k, is_Some (assoc k r) →
          k ∈ ["error"; "name"; "message"; "stack"; "toolCallId";
               "toolName"; "cause"]) →
    copyOwnProperties depth h (err_props error) r = Ok payload →
    assoc "error" payload = Some (JBool true)
    ∧ assoc "cause" payload = assoc "cause" r
    ∧ (∀ k, is_Some (assoc k payload) →
         k ∈ ["error"; "name"; "message"; "stack"; "toolCallId";
              "toolName"; "cause"]
         ∨ ∃ v, (k, v) ∈ err_props error ∧ keepsProperty v = true
                ∧ isReserved k = false)).
  { intros r He Hk Hp.
    destruct (copyOwnProperties_keys _ _ _ _ _ Hp) as [Hres Hkeys].
    split; [by rewrite (Hres "error")|].
    split; [by rewrite (Hres "cause")|].
    intros k Hsome. destruct (Hkeys k Hsome) as [Hr|Hprop];
      [left; by apply Hk|by right]. }
  assert (Hsanitised :
    resultBind
      (resultBind (sanitizeErrorValue depth h cause)
         (λ c, Ok (objSet "cause" c base)))
      (copyOwnProperties depth h (err_props error)) = Ok payload →
    assoc "error" payload = Some (JBool true)
    ∧ (∃ out, sanitizeErrorValue depth h cause = Ok out
              ∧ assoc "cause" payload = Some out)
    ∧ (∀ k, is_Some (assoc k payload) →
         k ∈ ["error"; "name"; "message"; "stack"; "toolCallId";
              "toolName"; "cause"]
         ∨ ∃ v, (k, v) ∈ err_props error ∧ keepsProperty v = true
                ∧ isReserved k = false)).
  { destruct (sanitizeErrorValue depth h cause) as [out|name];
      [|discriminate].
    simpl. intros Hp.
    destruct (Hfinish (objSet "cause" out base)) as (H1 & H2 & H3);
      [done|apply Hset|exact Hp|].
    split; [exact H1|]. split; [|exact H3].
    exists out. split; [done|]. rewrite H2, assoc_payload_objSet. done. }
  destruct cause as [| | | | | |a] eqn:Ec; try exact Hsanitised.
  - simpl. intros Hp.
    destruct (Hfinish base) as (H1 & H2 & H3); [done|exact Hbase|exact Hp|].
    split; [exact H1|]. split; [|exact H3]. by rewrite H2.
  - destruct (h !! a) as [[| |c| |]|] eqn:Ea; try exact Hsanitised.
    simpl. intros Hp.
    destruct (Hfinish (objSet "cause" (errorSummary c) base))
      as (H1 & H2 & H3); [done|apply Hset|exact Hp|].
    split; [exact H1|]. split; [|exact H3].
    rewrite H2, assoc_payload_objSet. done.
Qed.

(** An error with a cause and a method. *)
Definition timeoutError : JsError :=
  {| err_name := "TimeoutError";
     err_message := "took too long";
     err_stack := None;
     err_props := [("cause", VStr "socket closed");
                   ("retry", VFunction "function retry() {}");
                   ("attempts", VNum 3)] |}.

Lemma payload_cause_and_keys_witness :
  assoc "cause"
    [("error", JBool true); ("name", JStr "TimeoutError");
     ("message", JStr "took too long"); ("stack", JUndefined);
     ("toolCallId", JStr "call-1"); ("toolName", JStr "fetch");
     ("cause", JStr "socket closed"); ("attempts", JNum 3)]
  = Some (JStr "socket closed").
Proof.
  destruct (payload_cause_and_keys 4 [] timeoutError "call-1" "fetch"
              [("error", JBool true); ("name", JStr "TimeoutError");
               ("message", JStr "took too long"); ("stack", JUndefined);
               ("toolCallId", JStr "call-1"); ("toolName", JStr "fetch");
               ("cause", JStr "socket closed"); ("attempts", JNum 3)]
              eq_refl) as (_ & (out & Hout & Hc) & _).
  injection Hout as <-. exact Hc.
Defined.

End ErrorPayloadProps.

(** ** A tool that cannot be executed *)
Module ToolEdgeProps.
Import Js Effects ErrorUtils Hooks ToolExecution ToolExecutionProps.

Section Wrapper.
Context {U : Type}.
Variable uuid : nat → string.
Variable stackDepth : nat.
Variable stringOfThrown : Value → Eff U string.
Variable isToolDeniedError : Heap → Value → bool.

(** The message of the error made for a tool without [execute]. *)
Definition missingExecute (tool : Tool U) : string :=
  "Tool " +:+ tool_name tool +:+ " does not have " +:+ doubleQuote
    +:+ "execute" +:+ doubleQuote +:+ " method".

(** X17: for a tool that has no [execute] method the wrapped function
    does not throw: once the [onToolStart] hook has completed it makes the
    error [Tool <name> does not have "execute" method], and, the
    [onToolEnd] hook completing, returns the payload of that error with the
    identifiers of the call. *)
Theorem tool_without_execute_yields_payload (hooks : ToolHooks U)
    (tool : Tool U) (args : Value) (toolCallId : option string)
    (w w0 w1 w2 : World U) (callId : string) r1 r2 :
  tool_execute tool = None →
  resolveCallId uuid toolCallId w = Returned w0 callId →
  callHook (onToolStart hooks)
    (ToolStartArgs tool args (optionsFor tool callId)) w0 = Returned w1 r1 →
  let error := newError (missingExecute tool) in
  let thrown := VRef (length (heap w1)) in
  callHook (onToolEnd hooks)
    (ToolEndArgs tool None (Some (voltAgentErrorFor tool args callId error))
       (optionsFor tool callId))
    {| heap := heap w1 ++ [OError error];
       abortedWith := abortedWith w1;
       uuidsDrawn := uuidsDrawn w1;
       user := user w1 |} = Returned w2 r2 →
  createToolExecutionFactory uuid stackDepth stringOfThrown
    isToolDeniedError hooks tool args toolCallId w
  = Returned
      (if isToolDeniedError (heap w2) thrown then abortWith thrown w2 else w2)
      (ErrorResult
         [("error", JBool true);
          ("name", JStr "Error");
          ("message", JStr (missingExecute tool));
          ("stack", JStr ("Error: " +:+ missingExecute tool));
          ("toolCallId", JStr callId);
          ("toolName", JStr (tool_name tool))]).
Proof.
  intros Hx Hid Hstart error thrown Hend.
  rewrite wrapped_unfold, Hid.
  assert (Htry : tryBlock hooks tool args (optionsFor tool callId) w0
                 = Threw {| heap := heap w1 ++ [OError error];
                            abortedWith := abortedWith w1;
                            uuidsDrawn := uuidsDrawn w1;
                            user := user w1 |} thrown).
  { unfold tryBlock, bind. rewrite Hstart, Hx. reflexivity. }
  rewrite Htry. unfold catchBlock, bind at 1.
  rewrite (toError_of_error _ _ _ error)
    by (unfold asError, thrown; cbn [heap]; by rewrite list_lookup_middle).
  unfold bind at 1, get. unfold buildToolErrorResult. simpl.
  unfold bind. fold (voltAgentErrorFor tool args callId error).
  rewrite Hend. unfold get.
  by destruct (isToolDeniedError (heap w2) thrown).
Qed.

End Wrapper.

(** A tool registered without an [execute] method. *)
Definition lookupTool : Tool unit :=
  {| tool_name := "lookup"; tool_execute := None;
     tool_outputSchema := None |}.

Definition afterLookup : World unit :=
  {| heap := heap startWorld
             ++ [OError (newError (missingExecute lookupTool))];
     abortedWith := abortedWith startWorld;
     uuidsDrawn := uuidsDrawn startWorld;
     user := user startWorld |}.

Lemma tool_without_execute_yields_payload_witness :
  createToolExecutionFactory (λ n, "uuid-" +:+ pretty n) 4
    (λ _, ret "thrown") (λ _ _, false) noToolHooks lookupTool
    VNull (Some "call-9") startWorld
  = Returned afterLookup
      (ErrorResult
         [("error", JBool true);
          ("name", JStr "Error");
          ("message", JStr (missingExecute lookupTool));
          ("stack", JStr ("Error: " +:+ missingExecute lookupTool));
          ("toolCallId", JStr "call-9");
          ("toolName", JStr "lookup")]).
Proof.
  apply (tool_without_execute_yields_payload (λ n, "uuid-" +:+ pretty n) 4
           (λ _, ret "thrown") (λ _ _, false) noToolHooks lookupTool
           VNull (Some "call-9") startWorld startWorld startWorld
           afterLookup "call-9" None None); reflexivity.
Defined.

End ToolEdgeProps.

(** ** Whose records a pass stores *)
Module RecorderAttributionProps.
Import Js StepRecorder StepRecorderProps.

Section Props.
Context `{Platform}.
Variable self : Agent.

(** A record made for the operation [oc] by this agent. *)
Definition attributed (oc : RecorderContext) (r : ConversationStepRecord)
    : Prop :=
  persistTarget oc = Some (rec_userId r, rec_conversationId r)
  ∧ rec_operationId r = oc_operationId oc
  ∧ rec_agentId r = agent_id self
  ∧ rec_agentName r = agent_name self
  ∧ rec_role r = "assistant".

Definition allAttributed (oc : RecorderContext) (p : Pass) : Prop :=
  Forall (attributed oc) (p_records p).

Lemma attributed_recordText oc u i t p :
  allAttributed oc p → allAttributed oc (recordText self oc u i t p).
Proof.
  unfold allAttributed, recordText. simpl. intros Hp.
  destruct (persistTarget oc) as [[user conv]|] eqn:E; simpl; [|done].
  apply Forall_app. split; [done|]. by repeat constructor.
Qed.

Lemma attributed_recordToolCall oc u i p c :
  allAttributed oc p → allAttributed oc (recordToolCall self oc u i p c).
Proof.
  unfold allAttributed, recordToolCall. intros Hp.
  destruct (idOrFresh (tc_toolCallId c) p) as [sid p1] eqn:E1.
  assert (H1 : p_records p1 = p_records p).
  { by rewrite <- (idOrFresh_records (tc_toolCallId c) p), E1. }
  destruct (persistTarget oc) as [[user conv]|] eqn:E; simpl;
    [|by rewrite H1].
  destruct (idOrFresh (tc_toolCallId c) (pushStep _ p1)) as [rid p2] eqn:E2.
  assert (H2 : p_records p2 = p_records p).
  { match type of E2 with idOrFresh ?g ?q = _ =>
      pose proof (idOrFresh_records g q) as Hq end.
    rewrite E2 in Hq. simpl in Hq. by rewrite Hq, H1. }
  simpl. rewrite H2. apply Forall_app. split; [done|].
  by repeat constructor.
Qed.

Lemma attributed_recordToolResult oc u i p r :
  allAttributed oc p → allAttributed oc (recordToolResult self oc u i p r).
Proof.
  unfold allAttributed, recordToolResult. intros Hp.
  destruct (idOrFresh (tr_toolCallId r) p) as [sid p1] eqn:E1.
  assert (H1 : p_records p1 = p_records p).
  { by rewrite <- (idOrFresh_records (tr_toolCallId r) p), E1. }
  destruct (persistTarget oc) as [[user conv]|] eqn:E; simpl;
    [|by rewrite H1].
  destruct (idOrFresh (tr_toolCallId r) (pushStep _ p1)) as [rid p2] eqn:E2.
  assert (H2 : p_records p2 = p_records p).
  { match type of E2 with idOrFresh ?g ?q = _ =>
      pose proof (idOrFresh_records g q) as Hq end.
    rewrite E2 in Hq. simpl in Hq. by rewrite Hq, H1. }
  simpl. rewrite H2. apply Forall_app. split; [done|].
  by repeat constructor.
Qed.

Lemma attributed_foldl {A} (f : Pass → A → Pass) oc (l : list A) :
  (∀ p a, allAttributed oc p → allAttributed oc (f p a)) →
  ∀ p, allAttributed oc p → allAttributed oc (foldl f p l).
Proof.
  intros Hf. induction l as [|a l IH]; intros p Hp; [done|].
  simpl. apply IH. by apply Hf.
Qed.

Lemma attributed_recordSteps oc steps : ∀ i p,
  allAttributed oc p → allAttributed oc (recordSteps self oc i steps p).
Proof.
  induction steps as [|s steps IH]; intros i p Hp; [done|].
  simpl. apply IH. unfold recordStep. cbv zeta.
  unfold allAttributed, refreshTimestamp. simpl.
  apply (attributed_foldl _ oc);
    [intros; by apply attributed_recordToolResult|].
  apply (attributed_foldl _ oc);
    [intros; by apply attributed_recordToolCall|].
  destruct (trim <$> step_text s) as [t|]; [|done].
  destruct (strTruthy t); [by apply attributed_recordText|done].
Qed.

(** X18: one call of the recorder hands storage at most one batch, never
    an empty one, and every record in it bears the user, the conversation
    and the id of the operation it was called for, this agent's id and
    name, and the role [assistant].  For an operation without a user or
    without a conversation nothing is handed to storage. *)
Theorem stored_records_are_attributed (steps : option (list StepResult))
    (oc : RecorderContext) (w : World) :
  let after := recordStepResults self steps oc w in
  ∃ batches,
    savedBatches after.2 = savedBatches w ++ batches
    ∧ length batches ≤ 1
    ∧ Forall (λ batch, batch ≠ [] ∧ Forall (attributed oc) batch) batches
    ∧ (persistTarget oc = None → batches = []).
Proof.
  cbv zeta.
  assert (Hnone : ∃ batches : list (list ConversationStepRecord),
    savedBatches w = savedBatches w ++ batches
    ∧ length batches ≤ 1
    ∧ Forall (λ batch, batch ≠ [] ∧ Forall (attributed oc) batch) batches
    ∧ (persistTarget oc = None → batches = [])).
  { exists []. rewrite app_nil_r. split; [done|]. split; [simpl; lia|].
    split; [constructor|done]. }
  unfold recordStepResults.
  assert (Hstored : ∀ stored, ∃ batches,
    savedBatches (recordStored self stored oc w).2
    = savedBatches w ++ batches
    ∧ length batches ≤ 1
    ∧ Forall (λ batch, batch ≠ [] ∧ Forall (attributed oc) batch) batches
    ∧ (persistTarget oc = None → batches = [])).
  { intros stored. unfold recordStored. cbv zeta.
    set (oc1 := match oc_conversationSteps oc with
                | Some _ => oc
                | None => setConversationSteps (Some []) oc
                end).
    assert (Ht1 : persistTarget oc1 = persistTarget oc).
    { subst oc1. by destruct (oc_conversationSteps oc). }
    assert (Hid1 : oc_operationId oc1 = oc_operationId oc).
    { subst oc1. by destruct (oc_conversationSteps oc). }
    destruct (drop (default 0 (sc_persistedStepCount oc1)) stored)
      as [|s0 rest] eqn:Ed; [exact Hnone|].
    set (oc2 := setPersistedStepCount _ oc1).
    set (p0 := {| p_steps := default [] (oc_conversationSteps oc2);
                  p_records := [];
                  p_uuids := uuidsDrawn w;
                  p_clock := S (clockReads w);
                  p_timestamp := isoTime (clockReads w) |}).
    pose proof (attributed_recordSteps oc2 (s0 :: rest)
                  (default 0 (sc_persistedStepCount oc1)) p0) as Hall.
    unfold allAttributed in Hall. specialize (Hall ltac:(constructor)).
    set (p := recordSteps self oc2 (default 0 (sc_persistedStepCount oc1))
                (s0 :: rest) p0) in *.
    simpl.
    change (persistTarget (setConversationSteps (Some (p_steps p)) oc2))
      with (persistTarget oc1).
    destruct (p_records p) as [|r0 rs] eqn:Er; [exact Hnone|].
    destruct (persistTarget oc1) as [uc|] eqn:Et; [|exact Hnone].
    exists [r0 :: rs]. split; [done|]. split; [simpl; lia|]. split.
    - constructor; [|constructor]. split; [done|].
      eapply Forall_impl; [exact Hall|].
      intros r (Hr1 & Hr2 & Hr3). split; [|split; [|exact Hr3]].
      + rewrite <- Ht1, <- Et. exact Hr1.
      + rewrite <- Hid1. exact Hr2.
    - intros Hn. rewrite Ht1 in Et. congruence. }
  destruct steps as [[|s ss]|].
  - destruct (sc_conversationSteps oc) as [[|s ss]|];
      [exact Hnone|apply Hstored|exact Hnone].
  - apply Hstored.
  - destruct (sc_conversationSteps oc) as [[|s ss]|];
      [exact Hnone|apply Hstored|exact Hnone].
Qed.

End Props.
End RecorderAttributionProps.

(** ** The context of an operation without a parent *)
Module ContextSourcesProps.
Import Js OperationContextFactory ContextMapProps.

Lemma firstSome_assoc (a b c : option JsValue) :
  firstSome (firstSome a b) c = firstSome a (firstSome b c).
Proof. by destruct a. Qed.

Lemma firstSome_twice (a b : option JsValue) :
  firstSome (firstSome a b) a = firstSome a b.
Proof. by destruct a, b. Qed.

Lemma firstSome_None_r (a : option JsValue) : firstSome a None = a.
Proof. by destruct a. Qed.

Section Factory.
Variable operationUuid : nat → string.
Variable activeTriggerContext : option loc.
Variable self : Agent.

(** The map an operation without a parent works on: the caller's, else
    the agent's own, else a new one. *)
Definition chosenMap (runtimeContext : option loc) (st : Store) : loc :=
  match runtimeContext with
  | Some context => context
  | None =>
      match agent_context self with
      | Some context => context
      | None => length (maps st)
      end
  end.

(** Filling in from the trigger context, read at the chosen map. *)
Lemma trigger_fill st l k :
  l < length (maps st) →
  validRef st activeTriggerContext →
  ctxGet (optBackfill activeTriggerContext l st) l k
  = firstSome (ctxGet st l k) (optGet st activeTriggerContext k).
Proof.
  intros Hl Hv. rewrite ctxGet_optBackfill by done.
  by rewrite decide_True.
Qed.

Lemma ctxGet_same_maps st st' l k :
  maps st' = maps st → ctxGet st' l k = ctxGet st l k.
Proof. unfold ctxGet, entriesAt. by intros ->. Qed.

(** The choice of the map and the filling in, for a call without a parent:
    what [createOperationContext] does before it turns to the abort
    controller. *)
Definition contextStage (rc : option loc) (st1 : Store) : loc * Store :=
  let '(context, st) :=
    match rc with
    | Some context => (context, optBackfill (agent_context self) context st1)
    | None =>
        match agent_context self with
        | Some context => (context, st1)
        | None => allocMap [] st1
        end
    end in
  (context, optBackfill activeTriggerContext context st).

Lemma create_contextStage input options st :
  options ≫= opt_parentOperationContext = None →
  let r := createOperationContext operationUuid activeTriggerContext self
             input options st in
  let staged :=
    contextStage (toContextMap (options ≫= opt_context) (countOperation st)).1
      (toContextMap (options ≫= opt_context) (countOperation st)).2 in
  context r.1 = staged.1 ∧ maps r.2 = maps staged.2.
Proof.
  intros Hp. cbv zeta. unfold createOperationContext, contextStage.
  rewrite Hp.
  destruct (toContextMap (options ≫= opt_context) (countOperation st))
    as [rc st1].
  cbn [fst snd].
  destruct (match rc with
            | Some context =>
                (context, optBackfill (agent_context self) context st1)
            | None =>
                match agent_context self with
                | Some context => (context, st1)
                | None => allocMap [] st1
                end
            end) as [ctx stx].
  simpl. destruct (options ≫= opt_abortSignal) as [e|]; simpl; [|done].
  unfold addEventListener. simpl. done.
Qed.

(** X19: for a call without a parent operation the context map is the
    caller's own [Map] when one is passed (a new map when a plain object is
    passed), else the agent's own default map, else a new map; in it a key
    holds what the caller supplied, else the agent's default, else what the
    active trigger context has. *)
Theorem context_without_parent input options st :
  options ≫= opt_parentOperationContext = None →
  validInput st (options ≫= opt_context) →
  validRef st (agent_context self) →
  validRef st activeTriggerContext →
  let r := createOperationContext operationUuid activeTriggerContext self
             input options st in
  let supplied := options ≫= opt_context in
  match supplied with
  | Some (ContextAsMap m) => context r.1 = m
  | Some (ContextAsRecord _) => context r.1 = length (maps st)
  | None =>
      match agent_context self with
      | Some own => context r.1 = own
      | None => context r.1 = length (maps st)
      end
  end
  ∧ ∀ k, ctxGet r.2 (context r.1) k
         = firstSome (suppliedGet st supplied k)
             (firstSome (optGet st (agent_context self) k)
                (optGet st activeTriggerContext k)).
Proof.
  intros Hp Hvi Hva Hvt. cbv zeta.
  destruct (create_contextStage input options st Hp) as [Hctx Hmaps].
  rewrite Hctx.
  pose proof (toContextMap_spec (options ≫= opt_context) (countOperation st)
                Hvi) as Hspec.
  cbv zeta in Hspec.
  destruct (toContextMap (options ≫= opt_context) (countOperation st))
    as [rc st1] eqn:Etc.
  destruct Hspec as (Hlen & Hvr & Hold & Hnew).
  cbn [fst snd] in *.
  change (length (maps (countOperation st))) with (length (maps st)) in Hlen.
  split.
  - destruct (options ≫= opt_context) as [[m|fields]|]; simpl in Etc.
    + injection Etc as <- <-. reflexivity.
    + injection Etc as <- <-. reflexivity.
    + injection Etc as <- <-. unfold contextStage.
      by destruct (agent_context self).
  - intros k. rewrite (ctxGet_same_maps _ _ _ _ Hmaps).
    set (S := suppliedGet st (options ≫= opt_context) k).
    set (A := optGet st (agent_context self) k).
    set (T := optGet st activeTriggerContext k).
    assert (HS1 : optGet st1 rc k = S) by apply Hnew.
    assert (HA1 : optGet st1 (agent_context self) k = A).
    { subst A. destruct (agent_context self) as [own|]; [|done].
      simpl in *. by apply Hold. }
    assert (HT1 : optGet st1 activeTriggerContext k = T).
    { subst T. destruct activeTriggerContext as [lt|]; [|done].
      simpl in *. by apply Hold. }
    assert (Hvt1 : validRef st1 activeTriggerContext).
    { destruct activeTriggerContext as [lt|]; [|done]. simpl in *. lia. }
    clearbody S A T. clear Hctx Hmaps Hnew Etc.
    unfold contextStage. destruct rc as [c|]; simpl in Hvr.
    + cbn [fst snd].
      rewrite trigger_fill.
      2:{ by rewrite optBackfill_length. }
      2:{ destruct activeTriggerContext as [lt|]; [|done]. simpl in *.
          by rewrite optBackfill_length. }
      rewrite ctxGet_optBackfill by done. rewrite decide_True by done.
      simpl in HS1. rewrite HS1, HA1.
      destruct activeTriggerContext as [lt|]; simpl in *.
      * rewrite ctxGet_optBackfill by done.
        destruct (decide (lt = c)) as [->|Hne].
        -- rewrite HS1, HA1. rewrite HS1 in HT1. subst T.
           by destruct S, A.
        -- rewrite HT1. apply firstSome_assoc.
      * subst T. by destruct S, A.
    + simpl in HS1. subst S.
      destruct (agent_context self) as [own|] eqn:Eown; cbn [fst snd].
      * simpl in Hva, HA1. rewrite trigger_fill by (done || lia).
        by rewrite HA1, HT1.
      * unfold allocMap. cbn [fst snd].
        rewrite trigger_fill.
        2:{ simpl. rewrite length_app. simpl. lia. }
        2:{ destruct activeTriggerContext as [lt|]; [|done]. simpl in *.
            rewrite length_app. simpl. lia. }
        unfold ctxGet at 1, entriesAt at 1. cbn [maps].
        rewrite list_lookup_middle by done. subst A. simpl.
        destruct activeTriggerContext as [lt|]; [|done]. simpl in *.
        rewrite <- HT1. unfold ctxGet, entriesAt. simpl.
        by rewrite lookup_app_l by exact Hvt1.
Qed.

End Factory.

(** An agent with a default context and a caller that passes its own
    [Map]. *)
Definition tenantStore : Store :=
  {| maps := [[(KStr "tenant", JStr "acme"); (KStr "plan", JStr "free")];
              [(KStr "tenant", JStr "beta")]];
     controllers := [];
     stepArrays := [];
     operationsCreated := 0 |}.

Definition tenantAgent : Agent :=
  {| agent_id := "support"; agent_name := "Support";
     agent_context := Some 0 |}.

Definition tenantOptions : BaseGenerationOptions :=
  {| opt_context := Some (ContextAsMap 1);
     opt_parentOperationContext := None;
     opt_abortSignal := None;
     opt_userId := None;
     opt_conversationId := None;
     opt_parentAgentId := None |}.

Lemma context_without_parent_witness :
  context (createOperationContext (λ n, "op-" +:+ pretty n) None tenantAgent
             (JStr "hello") (Some tenantOptions) tenantStore).1 = 1
  ∧ ∀ k,
      ctxGet (createOperationContext (λ n, "op-" +:+ pretty n) None
                tenantAgent (JStr "hello") (Some tenantOptions)
                tenantStore).2
        (context (createOperationContext (λ n, "op-" +:+ pretty n) None
                    tenantAgent (JStr "hello") (Some tenantOptions)
                    tenantStore).1) k
      = firstSome (suppliedGet tenantStore (Some (ContextAsMap 1)) k)
          (firstSome (optGet tenantStore (Some 0) k)
             (optGet tenantStore None k)).
Proof.
  apply (context_without_parent (λ n, "op-" +:+ pretty n) None tenantAgent
           (JStr "hello") (Some tenantOptions) tenantStore).
  - reflexivity.
  - simpl. lia.
  - simpl. lia.
  - exact I.
Defined.

(** *** A context passed as a plain object *)

Lemma mapGet_not_key k (l : list (Key * JsValue)) :
  k ∉ (fst <$> l) → mapGet k l = None.
Proof.
  induction l as [|[k0 v0] l IH]; [done|]. simpl. intros Hk.
  destruct (decide (k = k0)) as [->|Hne].
  - exfalso. apply Hk. by left.
  - apply IH. intros Hin. apply Hk. by right.
Qed.

Lemma mapGet_entries k (l : list (Key * JsValue)) : ∀ m,
  NoDup (fst <$> l) →
  mapGet k (foldl (λ m kv, mapSet kv.1 kv.2 m) m l)
  = firstSome (mapGet k l) (mapGet k m).
Proof.
  induction l as [|[k0 v0] l IH]; intros m Hnd; [done|].
  simpl in *. apply NoDup_cons in Hnd as [Hk0 Hnd].
  rewrite IH by done. rewrite mapGet_mapSet.
  destruct (decide (k = k0)) as [->|Hne]; [|done].
  by rewrite (mapGet_not_key k0 l Hk0).
Qed.

Lemma objectEntries_keys (fields : list (Key * JsValue)) :
  NoDup (fst <$> fields) → NoDup (fst <$> objectEntries fields).
Proof.
  unfold objectEntries.
  induction fields as [|[k0 v0] fields IH]; [done|]. simpl.
  intros Hnd. apply NoDup_cons in Hnd as [Hk0 Hnd].
  rewrite filter_cons. simpl. destruct (decide (isStringKey k0 = true)).
  - simpl. apply NoDup_cons. split; [|by apply IH].
    intros Hin. apply Hk0.
    apply list_elem_of_fmap in Hin as ([k1 v1] & -> & Hin).
    apply list_elem_of_filter in Hin as [_ Hin].
    apply list_elem_of_fmap. by exists (k1, v1).
  - by apply IH.
Qed.

Lemma mapGet_objectEntries k (fields : list (Key * JsValue)) :
  mapGet k (objectEntries fields)
  = if isStringKey k then mapGet k fields else None.
Proof.
  unfold objectEntries.
  induction fields as [|[k0 v0] fields IH]; [by destruct (isStringKey k)|].
  rewrite filter_cons. simpl. destruct (decide (isStringKey k0 = true)) as [Hs|Hs].
  - simpl. destruct (decide (k = k0)) as [->|Hne]; [by rewrite Hs|exact IH].
  - rewrite IH. destruct (decide (k = k0)) as [->|Hne]; [|done].
    by destruct (isStringKey k0).
Qed.

(** X20: a context passed as a plain object is copied into a new map
    that holds the object's string-keyed properties with their values and
    none of its symbol-keyed ones; the maps that exist are left as they
    are.  A context passed as a [Map] is taken as it is, the same
    instance. *)
Theorem plain_object_context_is_copied (fields : list (Key * JsValue))
    (st : Store) :
  NoDup (fst <$> fields) →
  let converted := toContextMap (Some (ContextAsRecord fields)) st in
  converted.1 = Some (length (maps st))
  ∧ (∀ name, ctxGet converted.2 (length (maps st)) (KStr name)
             = mapGet (KStr name) fields)
  ∧ (∀ symbol, ctxGet converted.2 (length (maps st)) (KSym symbol) = None)
  ∧ (∀ l k, l < length (maps st) → ctxGet converted.2 l k = ctxGet st l k)
  ∧ (∀ m, toContextMap (Some (ContextAsMap m)) st = (Some m, st)).
Proof.
  intros Hnd. cbv zeta. simpl.
  assert (Hget : ∀ k,
    ctxGet {| maps := maps st ++ [mapOfEntries (objectEntries fields)];
              controllers := controllers st;
              stepArrays := stepArrays st;
              operationsCreated := operationsCreated st |}
      (length (maps st)) k
    = if isStringKey k then mapGet k fields else None).
  { intros k. unfold ctxGet, entriesAt. simpl.
    rewrite list_lookup_middle by done. simpl.
    unfold mapOfEntries.
    rewrite mapGet_entries by by apply objectEntries_keys.
    rewrite mapGet_objectEntries. simpl. by destruct (isStringKey k), (mapGet k fields). }
  split; [done|]. split; [intros name; apply Hget|].
  split; [intros symbol; apply Hget|]. split; [|done].
  intros l k Hl. unfold ctxGet, entriesAt. simpl.
  by rewrite lookup_app_l.
Qed.

Lemma plain_object_context_is_copied_witness :
  ctxGet (toContextMap
            (Some (ContextAsRecord
                     [(KStr "tenant", JStr "acme"); (KSym 7, JBool true)]))
            tenantStore).2 2 (KSym 7) = None.
Proof.
  assert (Hnd : NoDup (fst <$> [(KStr "tenant", JStr "acme");
                                (KSym 7, JBool true)])).
  { apply NoDup_cons. split; [|apply NoDup_singleton].
    intros Hin. apply list_elem_of_singleton in Hin. discriminate Hin. }
  exact (proj1 (proj2 (proj2
           (plain_object_context_is_copied
              [(KStr "tenant", JStr "acme"); (KSym 7, JBool true)]
              tenantStore Hnd))) 7).
Defined.

End ContextSourcesProps.

(** ** Cancellation *)
Module CancellationProps.
Import Js Effects Hooks Cancellation.

Section Errors.
Context {U : Type}.
Variable isBailError : JsValue → bool.
Variable isClientHTTPError : JsValue → bool.
Variable createAbortError : string → JsValue.
Variable createVoltAgentError : JsValue → JsValue.

(** X21: [handleError] never returns: it throws the bail signal as it
    is, without calling a hook; for an operation that was cancelled it
    throws the cancellation error in place of the error it was given; and
    otherwise it calls the [onEnd] and [onError] hooks with the wrapped
    error and throws the error it was given, unless one of the hooks
    throws first. *)
Theorem handleError_never_returns {A : Type}
    (agentHooks : OperationHooks)
    (options : option (HookOptions (Operation U) JsValue HookArgs unit))
    (error : JsValue) (oc : Operation U) :
  ∃ oc' thrown,
    handleError (A := A) isBailError createVoltAgentError agentHooks options
      error oc = Threw oc' thrown
    ∧ (isBailError error = true → oc' = oc ∧ thrown = error)
    ∧ (isBailError error = false →
       ∀ cancellation, cancelled oc = Some cancellation →
         oc' = oc ∧ thrown = cancellation)
    ∧ (isBailError error = false → cancelled oc = None →
       ∀ oc1 r1 oc2 r2,
         callHook (onEnd (getMergedHooks agentHooks options))
           (EndArgs (conversationOf oc) None
              (Some (createVoltAgentError error))) oc = Returned oc1 r1 →
         callHook (onError (getMergedHooks agentHooks options))
           (ErrorArgs (createVoltAgentError error)) oc1 = Returned oc2 r2 →
         oc' = oc2 ∧ thrown = error).
Proof.
  unfold handleError.
  destruct (isBailError error) eqn:Eb.
  { exists oc, error. split; [done|]. split; [done|]. split; discriminate. }
  unfold bind at 1, get.
  destruct (cancelled oc) as [cancellation|] eqn:Ec.
  { exists oc, cancellation. split; [done|]. split; [discriminate|].
    split; [|discriminate]. intros _ c [= <-]. done. }
  unfold bind.
  destruct (callHook (onEnd (getMergedHooks agentHooks options)) _ oc)
    as [oc1 r1|oc1 e1] eqn:E1.
  - destruct (callHook (onError (getMergedHooks agentHooks options)) _ oc1)
      as [oc2 r2|oc2 e2] eqn:E2.
    + exists oc2, error. split; [done|]. split; [discriminate|].
      split; [discriminate|]. intros _ _ oc1' r1' oc2' r2' [= <- <-].
      rewrite E2. by intros [= <- <-].
    + exists oc2, e2. split; [done|]. split; [discriminate|].
      split; [discriminate|]. intros _ _ oc1' r1' oc2' r2' [= <- <-].
      rewrite E2. discriminate.
  - exists oc1, e1. split; [done|]. split; [discriminate|].
    split; [discriminate|]. intros _ _ oc1' r1' oc2' r2'. discriminate.
Qed.

(** X22: when the signal fires with the bail signal, the listener marks
    the operation inactive and does nothing else: no cancellation error,
    no hook.  When it fires with anything else, the cancellation error is
    the reason itself for a client HTTP error and otherwise an abort error
    made from the reason's text, and the [onEnd] hook of the agent, not one
    passed with the call, is called with it.  From then on [handleError]
    throws that cancellation error, whatever error it is given (the bail
    signal aside), as long as the hook has left the operation as it
    was. *)
Theorem abort_listener_sets_cancellation (agentHooks : OperationHooks)
    (reason : JsValue) (oc : Operation U) :
  let chosen :=
    if isClientHTTPError reason then reason
    else createAbortError (abortReasonText reason) in
  let marked := setCancellationError chosen (deactivate oc) in
  (isBailError reason = true →
   abortListener isBailError isClientHTTPError createAbortError agentHooks
     reason oc = Returned (deactivate oc) tt)
  ∧ (isBailError reason = false →
     abortListener isBailError isClientHTTPError createAbortError agentHooks
       reason oc
     = match callHook (onEnd agentHooks)
               (EndArgs (conversationOf oc) None (Some chosen)) marked with
       | Returned oc' _ => Returned oc' tt
       | Threw oc' e => Threw oc' e
       end)
  ∧ (truthy chosen = true →
     ∀ A options error, isBailError error = false →
       handleError (A := A) isBailError createVoltAgentError agentHooks
         options error marked = Threw marked chosen).
Proof.
  cbv zeta. split; [|split].
  - intros Hb. unfold abortListener, bind, modify. by rewrite Hb.
  - intros Hb. unfold abortListener, bind, modify, get. rewrite Hb.
    change (getMergedHooks agentHooks None) with agentHooks.
    unfold conversationOf. simpl.
    by destruct (callHook (onEnd agentHooks) _ _).
  - intros Ht A options error Hb. unfold handleError. rewrite Hb.
    unfold bind, get, cancelled. simpl. by rewrite Ht.
Qed.

End Errors.

Lemma abort_listener_sets_cancellation_witness :
  handleError (U := unit) (A := unit) (λ _, false) (λ e, e)
    {| onStart := None; onEnd := None; onError := None; onHandoff := None;
       onHandoffComplete := None; onToolStart := None; onToolEnd := None;
       onStepFinish := None; onPrepareMessages := None;
       onPrepareModelMessages := None |}
    None (JStr "model unavailable")
    (setCancellationError (JObj [("name", JStr "AbortError");
                                 ("message", JStr "user left")])
       (deactivate {| isActive := true; cancellationError := None;
                      conversationId := Some "c1"; user := tt |}))
  = Threw
      (setCancellationError (JObj [("name", JStr "AbortError");
                                   ("message", JStr "user left")])
         (deactivate {| isActive := true; cancellationError := None;
                        conversationId := Some "c1"; user := tt |}))
      (JObj [("name", JStr "AbortError"); ("message", JStr "user left")]).
Proof.
  apply (proj2 (proj2
           (abort_listener_sets_cancellation (U := unit) (λ _, false)
              (λ _, false)
              (λ text, JObj [("name", JStr "AbortError");
                             ("message", JStr text)])
              (λ e, e)
              {| onStart := None; onEnd := None; onError := None;
                 onHandoff := None; onHandoffComplete := None;
                 onToolStart := None; onToolEnd := None;
                 onStepFinish := None; onPrepareMessages := None;
                 onPrepareModelMessages := None |}
              (JStr "user left")
              {| isActive := true; cancellationError := None;
                 conversationId := Some "c1"; user := tt |})));
    reflexivity.
Defined.

End CancellationProps.

(** ** Chat prompts *)
Module ChatPromptProps.
Import Js ChatPrompt.
Import Instructions (newline).

Lemma lastSystemIndex_snoc (messages : list Message) (m : Message) :
  lastSystemIndex (messages ++ [m])
  = if isSystem m then Some (length messages) else lastSystemIndex messages.
Proof.
  unfold lastSystemIndex. rewrite imap_app. simpl.
  rewrite List.filter_app. simpl. rewrite Nat.add_0_r.
  destruct (isSystem m).
  - by rewrite last_snoc.
  - by rewrite app_nil_r.
Qed.

(** The index found is the one of the last message with the role
    [system]. *)
Lemma lastSystemIndex_spec (messages : list Message) :
  match lastSystemIndex messages with
  | Some i =>
      (∃ m, messages !! i = Some m ∧ isSystem m = true)
      ∧ ∀ j m, i < j → messages !! j = Some m → isSystem m = false
  | None => Forall (λ m, isSystem m = false) messages
  end.
Proof.
  induction messages as [|m messages IH] using rev_ind; [constructor|].
  rewrite lastSystemIndex_snoc. destruct (isSystem m) eqn:Em.
  - split.
    + exists m. split; [by rewrite list_lookup_middle|done].
    + intros j m' Hj Hm'. apply lookup_lt_Some in Hm'.
      rewrite length_app in Hm'. simpl in Hm'. lia.
  - destruct (lastSystemIndex messages) as [i|].
    + destruct IH as [(m0 & Hm0 & Hs0) Hafter]. split.
      * exists m0. split; [|done]. apply lookup_app_l_Some. exact Hm0.
      * intros j m' Hj Hm'.
        apply lookup_app_Some in Hm' as [Hm'|[Hlen Hm']].
        -- by apply (Hafter j).
        -- destruct (j - length messages) as [|n]; [|done].
           by injection Hm' as <-.
    + apply Forall_app. split; [exact IH|]. by constructor.
Qed.

(** X23: for a chat prompt, retriever and working-memory context go
    into the last message with the role [system], appended to its content
    after an empty line, every other message and the number of messages
    staying as they are; when the prompt has no such message, one is added
    at the end that holds the context; and when there is no context to add
    the messages are returned unchanged. *)
Theorem context_goes_to_last_system_message (messages : list Message)
    (retrieverContext workingMemoryContext : option string) :
  let additional :=
    additionalContext retrieverContext workingMemoryContext in
  let out := chatMessages messages retrieverContext workingMemoryContext in
  (additional = "" → out = messages)
  ∧ (additional ≠ "" →
     match lastSystemIndex messages with
     | Some i =>
         length out = length messages
         ∧ (∀ j, j ≠ i → out !! j = messages !! j)
         ∧ (∃ m, messages !! i = Some m
                 ∧ role m = "system"
                 ∧ out !! i
                   = Some {| role := role m;
                             content :=
                               JStr (Bail.jsString (content m) +:+ newline
                                     +:+ newline +:+ additional);
                             rest := rest m |})
         ∧ (∀ j m, i < j → messages !! j = Some m → role m ≠ "system")
     | None =>
         out = messages ++ [ {| role := "system"; content := JStr additional;
                                rest := [] |} ]
         ∧ Forall (λ m, role m ≠ "system") messages
     end).
Proof.
  cbv zeta. unfold chatMessages. cbv zeta.
  set (additional := additionalContext retrieverContext workingMemoryContext).
  split.
  { intros ->. reflexivity. }
  intros Hne.
  assert (strTruthy additional = true) as ->.
  { destruct additional; [done|reflexivity]. }
  pose proof (lastSystemIndex_spec messages) as Hspec.
  destruct (lastSystemIndex messages) as [i|].
  - destruct Hspec as [(m & Hm & Hs) Hafter]. rewrite Hm.
    split; [apply length_insert|]. split; [|split].
    + intros j Hj. by apply list_lookup_insert_ne.
    + exists m. split; [done|]. split.
      * by apply String.eqb_eq in Hs.
      * apply list_lookup_insert_eq. by apply lookup_lt_Some in Hm.
    + intros j m' Hj Hm'. specialize (Hafter j m' Hj Hm').
      by apply String.eqb_neq in Hafter.
  - split; [done|]. eapply Forall_impl; [exact Hspec|].
    intros m' Hm'. by apply String.eqb_neq in Hm'.
Qed.

Lemma context_goes_to_last_system_message_witness :
  chatMessages
    [ {| role := "system"; content := JStr "Be brief."; rest := [] |};
      {| role := "user"; content := JStr "Hi"; rest := [] |} ]
    None (Some "")
  = [ {| role := "system"; content := JStr "Be brief."; rest := [] |};
      {| role := "user"; content := JStr "Hi"; rest := [] |} ].
Proof.
  apply (proj1 (context_goes_to_last_system_message _ None (Some ""))).
  reflexivity.
Defined.

End ChatPromptProps.

(** ** Retriever context *)
Module RetrievalProps.
Import Js Effects Retrieval.

Section Retriever.
Context {S E : Type}.
Variable retriever : option (JsValue → M S E (option string)).
Variable convertToModelMessages : JsValue → M S E JsValue.
Variable trim : string → string.
Variable errorText : E → M S E string.

Abbreviation context :=
  (getRetrieverContext retriever convertToModelMessages trim errorText).

(** X24: the retriever context.
    (1) Without a retriever there is no context and nothing happens.
    (2) Context is given only when the retriever returned text that is not
    blank, and then it is that text, as returned.
    (3) When the conversion of the input or the retriever throws, the error
    is caught: there is no context, and the call throws only what making
    the log entry from the thrown value throws ([String(error)] for a value
    that is not an [Error]). *)
Theorem retriever_failure_gives_no_context (input : JsValue) (s : S) :
  (retriever = None → context input s = Returned s None)
  ∧ (∀ s' content,
       context input s = Returned s' (Some content) →
       strTruthy (trim content) = true
       ∧ ∃ retrieve prepared s0,
           retriever = Some retrieve
           ∧ retrieve prepared s0 = Returned s' (Some content))
  ∧ (∀ retrieve s1 e,
       retriever = Some retrieve →
       retrieverInput convertToModelMessages input s = Threw s1 e
       ∨ (∃ prepared s0,
            retrieverInput convertToModelMessages input s
            = Returned s0 prepared
            ∧ retrieve prepared s0 = Threw s1 e) →
       context input s
       = match errorText e s1 with
         | Returned s2 _ => Returned s2 None
         | Threw s2 x => Threw s2 x
         end).
Proof.
  unfold getRetrieverContext. split; [|split].
  - by intros ->.
  - intros s' content.
    destruct retriever as [retrieve|]; [|discriminate].
    unfold tryCatch, retrieveTry, bind.
    destruct (retrieverInput convertToModelMessages input s)
      as [s0 prepared|s0 e0].
    2:{ unfold retrieveCatch, bind. by destruct (errorText e0 s0). }
    destruct (retrieve prepared s0) as [s1 [c|]|s1 e1] eqn:Er.
    + destruct (strTruthy (trim c)) eqn:Et; [|discriminate].
      intros [= <- <-]. split; [done|]. by exists retrieve, prepared, s0.
    + discriminate.
    + unfold retrieveCatch, bind. by destruct (errorText e1 s1).
  - intros retrieve s1 e -> Hthrow.
    assert (Htry : retrieveTry convertToModelMessages trim retrieve input s
                   = Threw s1 e).
    { unfold retrieveTry, bind.
      destruct Hthrow as [-> | (prepared & s0 & -> & ->)]; done. }
    unfold tryCatch. rewrite Htry. unfold retrieveCatch, bind.
    by destruct (errorText e s1).
Qed.

End Retriever.

(** A retriever whose index is down: it throws a string.  The state counts
    the log entries made. *)
Definition failingRetriever : JsValue → M nat string (option string) :=
  λ _, throw "index unavailable".

Definition logText : string → M nat string string :=
  λ error n, Returned (Datatypes.S n) error.

Lemma retriever_failure_gives_no_context_witness :
  getRetrieverContext (Some failingRetriever) ret Js.trim logText
    (JStr "what is VoltAgent?") 0
  = Returned 1 None.
Proof.
  exact (proj2 (proj2 (retriever_failure_gives_no_context
                         (Some failingRetriever) ret Js.trim logText
                         (JStr "what is VoltAgent?") 0))
           failingRetriever 0 "index unavailable" eq_refl
           (or_intror (ex_intro _ (JStr "what is VoltAgent?")
                         (ex_intro _ 0 (conj eq_refl eq_refl))))).
Defined.

End RetrievalProps.

(** ** Attributes of a model-call span *)
Module SpanAttributesProps.
Import Js SpanAttributes.
Import InstructionsProps (append_assoc).

Lemma beforeSlash_splits (s : string) :
  hasSlash s = true →
  hasSlash (beforeSlash s) = false
  ∧ ∃ rest, s = beforeSlash s +:+ "/" +:+ rest.
Proof.
  induction s as [|a s IH]; [discriminate|]. simpl.
  destruct (Ascii.eqb a "/") eqn:Ea; simpl.
  - intros _. split; [done|]. exists s.
    apply Ascii.eqb_eq in Ea. by subst a.
  - intros Hs. destruct (IH Hs) as [Hno [rest Hrest]].
    rewrite Ea. split; [exact Hno|]. exists rest.
    change (String a s = String a (beforeSlash s +:+ "/" +:+ rest)).
    by rewrite <- Hrest.
Qed.

Lemma beforeSlash_of_split (p rest : string) :
  hasSlash p = false →
  hasSlash (p +:+ "/" +:+ rest) = true
  ∧ beforeSlash (p +:+ "/" +:+ rest) = p.
Proof.
  induction p as [|a p IH]; [done|]. intros Hp. simpl in Hp.
  destruct (Ascii.eqb a "/") eqn:Ea; [discriminate|]. simpl in Hp.
  destruct (IH Hp) as [Hs Hb].
  change (String a p +:+ "/" +:+ rest)
    with (String a (p +:+ "/" +:+ rest)).
  cbn [hasSlash beforeSlash]. rewrite Ea. simpl.
  split; [exact Hs|by rewrite Hb].
Qed.

Section Numbers.
Context {Num : Type}.
Variable toNumber : string → option Num.
Variable stringify : JsValue → string.

Lemma lookup_setIfDefined_ne key (v : option (Attribute Num)) attrs k :
  key ≠ k → setIfDefined key v attrs !! k = attrs !! k.
Proof. intros Hne. destruct v; [by apply lookup_insert_ne|done]. Qed.

Lemma lookup_setIfDefined_eq key (v : option (Attribute Num)) attrs :
  setIfDefined key v attrs !! key
  = match v with Some a => Some a | None => attrs !! key end.
Proof. destruct v; [by apply lookup_insert_eq|done]. Qed.

Ltac other_keys :=
  repeat first [ rewrite lookup_setIfDefined_ne by done
               | rewrite lookup_insert_ne by done ].

(** X25: the attributes of a model-call span count every message of the
    call but carry at most the last ten of them, in order; and they name a
    provider exactly when the model name has a ["/"] with text before it:
    the text before the first ["/"]. *)
Theorem span_attributes_cap_messages (params : Params Num) :
  let attrs := buildLLMSpanAttributes toNumber stringify params in
  (∀ m ms, messages params = Some (m :: ms) →
     attrs !! "llm.messages.count" = Some (ACount (S (length ms)))
     ∧ ∃ kept,
         attrs !! "llm.messages"
         = Some (AStr (stringify (JArr (messageEntry <$> kept))))
         ∧ kept `suffix_of` (m :: ms)
         ∧ length kept = min 10 (S (length ms)))
  ∧ (messages params = None ∨ messages params = Some [] →
     attrs !! "llm.messages.count" = None
     ∧ attrs !! "llm.messages" = None)
  ∧ (∀ p, attrs !! "llm.provider" = Some (AStr p)
          ↔ p ≠ "" ∧ hasSlash p = false
            ∧ ∃ rest, modelName params = p +:+ "/" +:+ rest).
Proof.
  cbv zeta. unfold buildLLMSpanAttributes. cbv zeta.
  split; [|split].
  - intros m ms Hm. rewrite Hm.
    split.
    + destruct (tools params) as [[|t ts]|]; other_keys;
        by rewrite lookup_insert_eq.
    + exists (trimmedMessages (m :: ms)). split; [|split].
      * destruct (tools params) as [[|t ts]|]; other_keys;
          by rewrite lookup_insert_eq.
      * apply suffix_drop.
      * unfold trimmedMessages. rewrite length_drop.
        change (length (m :: ms)) with (S (length ms)).
        destruct (Nat.min_spec 10 (S (length ms))) as [[? ->]|[? ->]]; lia.
  - intros Hm.
    assert (Hskip : match messages params with
                    | Some (_ :: _) => False
                    | _ => True
                    end).
    { by destruct Hm as [-> | ->]. }
    destruct (messages params) as [[|m ms]|]; try done;
      (split; destruct (tools params) as [[|t ts]|]; other_keys;
       by rewrite lookup_empty).
  - intros p.
    assert (Hlookup :
      buildLLMSpanAttributes toNumber stringify params !! "llm.provider"
      = if hasSlash (modelName params)
        then if strTruthy (beforeSlash (modelName params))
             then Some (AStr (beforeSlash (modelName params))) else None
        else None).
    { unfold buildLLMSpanAttributes. cbv zeta.
      destruct (messages params) as [[|m ms]|];
        destruct (tools params) as [[|t ts]|]; other_keys;
        rewrite lookup_setIfDefined_eq; other_keys;
        rewrite lookup_empty;
        by destruct (hasSlash (modelName params)),
          (strTruthy (beforeSlash (modelName params))). }
    unfold buildLLMSpanAttributes in Hlookup. cbv zeta in Hlookup.
    rewrite Hlookup. clear Hlookup.
    destruct (hasSlash (modelName params)) eqn:Hs.
    + destruct (beforeSlash_splits _ Hs) as [Hno [rest Hrest]].
      destruct (strTruthy (beforeSlash (modelName params))) eqn:Ht.
      * split.
        -- intros [= <-]. split; [|split; [done|by exists rest]].
           intros Hp. rewrite Hp in Ht. discriminate Ht.
        -- intros (Hne & Hp & rest' & Hm).
           destruct (beforeSlash_of_split p rest' Hp) as [_ Hb].
           rewrite <- Hm in Hb. by rewrite Hb.
      * split; [discriminate|]. intros (Hne & Hp & rest' & Hm).
        destruct (beforeSlash_of_split p rest' Hp) as [_ Hb].
        rewrite <- Hm in Hb. rewrite Hb in Ht.
        destruct p; [done|discriminate Ht].
    + split; [discriminate|]. intros (Hne & Hp & rest' & Hm).
      destruct (beforeSlash_of_split p rest' Hp) as [Hs' _].
      rewrite <- Hm in Hs'. congruence.
Qed.

End Numbers.
End SpanAttributesProps.

(** ** The conversation steps a pass collects *)
Module RecorderStepsProps.
Import Js StepRecorder StepRecorderProps.

Section Props.
Context `{Platform}.
Variable self : Agent.

(** The number of entries one model step contributes: one for its text
    when that is not blank, one for each tool call and tool result. *)
Definition entriesOf (step : StepResult) : nat :=
  (match trim <$> step_text step with
   | Some trimmed => if strTruthy trimmed then 1 else 0
   | None => 0
   end)
  + length (default [] (step_toolCalls step))
  + length (default [] (step_toolResults step)).

(** From [p] to [p'] the pass appended [n] conversation steps, all of the
    role [assistant]. *)
Definition collects (n : nat) (p p' : Pass) : Prop :=
  ∃ added, p_steps p' = p_steps p ++ added
           ∧ length added = n
           ∧ Forall (λ s, swc_role s = "assistant") added.

Lemma collects_refl p p' : p_steps p' = p_steps p → collects 0 p p'.
Proof. intros Hp. exists []. by rewrite app_nil_r. Qed.

Lemma collects_trans n m p1 p2 p3 :
  collects n p1 p2 → collects m p2 p3 → collects (n + m) p1 p3.
Proof.
  intros (a & Ha & Hla & Hra) (b & Hb & Hlb & Hrb).
  exists (a ++ b). rewrite Hb, Ha, <- app_assoc. split; [done|].
  split; [rewrite length_app; lia|by apply Forall_app].
Qed.

Lemma randomUUID_steps p : p_steps (randomUUID p).2 = p_steps p.
Proof. done. Qed.

Lemma idOrFresh_steps g p : p_steps (idOrFresh g p).2 = p_steps p.
Proof. unfold idOrFresh. by destruct (strTruthy g). Qed.

Lemma collects_recordText oc u i t p :
  collects 1 p (recordText self oc u i t p).
Proof.
  unfold recordText. simpl.
  eexists [_]. split; [by destruct (persistTarget oc)|].
  split; [done|]. by constructor.
Qed.

Lemma collects_recordToolCall oc u i p c :
  collects 1 p (recordToolCall self oc u i p c).
Proof.
  unfold recordToolCall.
  destruct (idOrFresh (tc_toolCallId c) p) as [sid p1] eqn:E1.
  assert (H1 : p_steps p1 = p_steps p).
  { by rewrite <- (idOrFresh_steps (tc_toolCallId c) p), E1. }
  eexists [_]. split.
  - destruct (persistTarget oc) as [uc|]; simpl.
    + destruct (idOrFresh (tc_toolCallId c) (pushStep _ p1))
        as [rid p2] eqn:E2.
      match type of E2 with idOrFresh ?g ?q = _ =>
        pose proof (idOrFresh_steps g q) as Hq end.
      rewrite E2 in Hq. simpl in Hq. simpl. rewrite Hq, H1. reflexivity.
    + rewrite H1. reflexivity.
  - split; [done|]. by constructor.
Qed.

Lemma collects_recordToolResult oc u i p r :
  collects 1 p (recordToolResult self oc u i p r).
Proof.
  unfold recordToolResult.
  destruct (idOrFresh (tr_toolCallId r) p) as [sid p1] eqn:E1.
  assert (H1 : p_steps p1 = p_steps p).
  { by rewrite <- (idOrFresh_steps (tr_toolCallId r) p), E1. }
  eexists [_]. split.
  - destruct (persistTarget oc) as [uc|]; simpl.
    + destruct (idOrFresh (tr_toolCallId r) (pushStep _ p1))
        as [rid p2] eqn:E2.
      match type of E2 with idOrFresh ?g ?q = _ =>
        pose proof (idOrFresh_steps g q) as Hq end.
      rewrite E2 in Hq. simpl in Hq. simpl. rewrite Hq, H1. reflexivity.
    + rewrite H1. reflexivity.
  - split; [done|]. by constructor.
Qed.

Lemma collects_foldl {A} (f : Pass → A → Pass) (l : list A) :
  (∀ p a, collects 1 p (f p a)) →
  ∀ p, collects (length l) p (foldl f p l).
Proof.
  intros Hf. induction l as [|a l IH]; intros p; [by apply collects_refl|].
  simpl. change (S (length l)) with (1 + length l).
  eapply collects_trans; [apply Hf|apply IH].
Qed.

Lemma collects_same n p p' p'' :
  p_steps p'' = p_steps p' → collects n p p' → collects n p p''.
Proof. intros Hs (added & Ha & Hl). exists added. by rewrite Hs. Qed.

Lemma collects_recordStep oc i step p :
  collects (entriesOf step) p (recordStep self oc i step p).
Proof.
  unfold recordStep, entriesOf. cbv zeta.
  eapply collects_same; [reflexivity|].
  eapply collects_trans;
    [|apply collects_foldl; intros; apply collects_recordToolResult].
  eapply collects_trans;
    [|apply collects_foldl; intros; apply collects_recordToolCall].
  destruct (trim <$> step_text step) as [t|]; [|by apply collects_refl].
  destruct (strTruthy t); [apply collects_recordText|by apply collects_refl].
Qed.

Lemma collects_recordSteps oc steps : ∀ i p,
  collects (sum_list (entriesOf <$> steps)) p
    (recordSteps self oc i steps p).
Proof.
  induction steps as [|s steps IH]; intros i p; [by apply collects_refl|].
  simpl. eapply collects_trans; [apply collects_recordStep|apply IH].
Qed.

(** X26: a call of the recorder only appends to the conversation steps
    of the operation: what was there stays, in order, and one entry of the
    role [assistant] is added for each non-blank text, each tool call and
    each tool result of the steps not yet recorded, whether or not the
    operation has a user and a conversation to store them under. *)
Theorem conversation_steps_only_grow (steps : option (list StepResult))
    (oc : RecorderContext) (w : World) :
  let after := recordStepResults self steps oc w in
  let stored :=
    match steps with
    | Some (s :: ss) => s :: ss
    | _ => default [] (sc_conversationSteps oc)
    end in
  let fresh := drop (default 0 (sc_persistedStepCount oc)) stored in
  ∃ added,
    default [] (oc_conversationSteps after.1)
    = default [] (oc_conversationSteps oc) ++ added
    ∧ length added = sum_list (entriesOf <$> fresh)
    ∧ Forall (λ s, swc_role s = "assistant") added.
Proof.
  cbv zeta.
  assert (Hstored : ∀ stored, ∃ added,
    default [] (oc_conversationSteps (recordStored self stored oc w).1)
    = default [] (oc_conversationSteps oc) ++ added
    ∧ length added
      = sum_list (entriesOf <$> drop (default 0 (sc_persistedStepCount oc))
                                  stored)
    ∧ Forall (λ s, swc_role s = "assistant") added).
  { intros stored. unfold recordStored. cbv zeta.
    set (oc1 := match oc_conversationSteps oc with
                | Some _ => oc
                | None => setConversationSteps (Some []) oc
                end).
    assert (Hc1 : default [] (oc_conversationSteps oc1)
                  = default [] (oc_conversationSteps oc)).
    { subst oc1. destruct (oc_conversationSteps oc) eqn:E; simpl;
        by rewrite ?E. }
    assert (Hn1 : sc_persistedStepCount oc1 = sc_persistedStepCount oc).
    { subst oc1. by destruct (oc_conversationSteps oc). }
    rewrite <- Hn1.
    destruct (drop (default 0 (sc_persistedStepCount oc1)) stored)
      as [|s0 rest] eqn:Ed.
    { exists []. rewrite app_nil_r. simpl. by rewrite Hc1. }
    set (oc2 := setPersistedStepCount _ oc1).
    set (p0 := {| p_steps := default [] (oc_conversationSteps oc2);
                  p_records := [];
                  p_uuids := uuidsDrawn w;
                  p_clock := S (clockReads w);
                  p_timestamp := isoTime (clockReads w) |}).
    destruct (collects_recordSteps oc2 (s0 :: rest)
                (default 0 (sc_persistedStepCount oc1)) p0)
      as (added & Ha & Hl & Hr).
    exists added. split; [|split; [exact Hl|exact Hr]].
    change (p_steps (recordSteps self oc2
                       (default 0 (sc_persistedStepCount oc1))
                       (s0 :: rest) p0)
            = default [] (oc_conversationSteps oc) ++ added).
    rewrite Ha. f_equal. exact Hc1. }
  assert (Hnone : ∃ added : list StepWithContent,
    default [] (oc_conversationSteps oc)
    = default [] (oc_conversationSteps oc) ++ added
    ∧ length added = 0
    ∧ Forall (λ s, swc_role s = "assistant") added).
  { exists []. by rewrite app_nil_r. }
  unfold recordStepResults.
  destruct steps as [[|s ss]|].
  - destruct (sc_conversationSteps oc) as [[|s ss]|]; simpl.
    + by rewrite drop_nil.
    + apply Hstored.
    + by rewrite drop_nil.
  - apply Hstored.
  - destruct (sc_conversationSteps oc) as [[|s ss]|]; simpl.
    + by rewrite drop_nil.
    + apply Hstored.
    + by rewrite drop_nil.
Qed.

End Props.
End RecorderStepsProps.
